(** * lifelib: recursive, memoized, vector-valued formula evaluation

    A shallow embedding of the cell formulas of
    [lifelib/libraries/savings/CashValue_ME/Projection/__init__.py] and
    [lifelib/projects/ifrs17sim/model/OuterProj/InnerProj/PV/__init__.py].

    A cell formula is a Python function whose calls to other cells go
    through the evaluation engine.  Its embedding is a request tree
    ([comp]): the formula either returns, raises, or requests the value of
    a key and continues with the answer.  Two interpreters give meaning
    to request trees: [run], the plain call semantics of the formulas, and
    [evaluate], the caching evaluator with its in-progress chain.

    Numbers are exact rationals ([Q]); booleans are the numbers 0 and 1,
    as in numpy arithmetic.  The two float primitives the formulas use
    ([**] and [np.exp]) are parameters of the development.  Exact
    numbers neither round nor hold NaN: what is stated of them is a
    bound, an equation in the operation order of the source, or
    expressly an identity of exact arithmetic; what depends on rounding
    or on NaN is stated of the same formulas over binary64 floats
    ([Binary64]). *)

From Stdlib Require Import ZArith QArith Qround Qminmax String List Lia Lqa.
From Stdlib Require Import Floats.
From stdpp Require Import base decidable countable gmap strings list.

Local Open Scope string_scope.
Local Open Scope list_scope.
Local Open Scope Z_scope.

Set Warnings "-inexact-float".

(** ** Argument tuples, keys, errors *)

(** One positional argument of a cell: an integer time index, a
    categorical string, or Python's [None]. *)
Inductive arg : Type :=
| AInt (z : Z)
| AStr (s : string)
| ANone.

#[global] Instance arg_eq_dec : EqDecision arg.
Proof. solve_decision. Defined.

#[global] Instance arg_countable : Countable arg.
Proof.
  refine (inj_countable'
    (fun a => match a with
              | AInt z => inl (inl z) | AStr s => inl (inr s) | ANone => inr tt
              end)
    (fun x => match x with
              | inl (inl z) => AInt z | inl (inr s) => AStr s | inr _ => ANone
              end) _).
  intros []; reflexivity.
Defined.

(** A key is a cell name together with an argument tuple; two keys are
    equal when the names and all positional values are. *)
Abbreviation key := (string * list arg)%type.

(** The exceptions of the formulas ([ValueError] to [ZeroDivisionError],
    as Python raises them) and the errors of the engine ([AlignmentError]
    to [CircularEvaluationError], as the specification names them).  The
    "invalid timing" and "invalid kind" rejections are [ValueError]s. *)
Inductive error : Type :=
| ValueError (msg : string)
| TypeError
| KeyError (name : string)
| NameError (name : string)
| IndexError
| ZeroDivisionError
| AlignmentError
| UnknownCellError (name : string)
| ArgumentArityError (name : string)
| CircularEvaluationError (chain : list key).

Inductive result (A : Type) : Type :=
| Ok (a : A)
| Err (e : error).
Arguments Ok {A} a.
Arguments Err {A} e.

Definition rbind {A B} (r : result A) (f : A -> result B) : result B :=
  match r with
  | Ok a => f a
  | Err e => Err e
  end.

(** ** Values *)

(** An index label: a number or a string. *)
Inductive label : Type :=
| LNum (q : Q)
| LStr (s : string).

Definition label_eqb (a b : label) : bool :=
  match a, b with
  | LNum x, LNum y => Qeq_bool x y
  | LStr x, LStr y => String.eqb x y
  | _, _ => false
  end.

(** A Series with a two-level index: rows of ((label1, label2), value). *)
Definition table : Type := list ((label * label) * Q).

Inductive column : Type :=
| NumCol (l : list Q)
| StrCol (l : list string).

(** A DataFrame: its index and its named columns. *)
Record frame : Type := Frame {
  index : list label;
  columns : list (string * column)
}.

(** What a cell returns: a scalar, a numeric or string array aligned to
    the model points, a two-dimensional array, a DataFrame, or an indexed
    table.  Booleans are the numbers 0 and 1. *)
Inductive value : Type :=
| VNum (q : Q)
| VArr (l : list Q)
| VStr (l : list string)
| VMat (m : list (list Q))
| VFrame (f : frame)
| VTab (t : table).

(** ** Request trees *)

Inductive comp (A : Type) : Type :=
| Ret (a : A)
| Raise (e : error)
| Call (k : key) (cont : value -> comp A).
Arguments Ret {A} a.
Arguments Raise {A} e.
Arguments Call {A} k cont.

Fixpoint bind {A B} (c : comp A) (f : A -> comp B) : comp B :=
  match c with
  | Ret a => f a
  | Raise e => Raise e
  | Call k cont => Call k (fun v => bind (cont v) f)
  end.

Definition lift {A} (r : result A) : comp A :=
  match r with
  | Ok a => Ret a
  | Err e => Raise e
  end.

(** [cell name args] is the request a formula makes when it calls
    [name(args)]. *)
Definition cell (name : string) (args : list arg) : comp value :=
  Call (name, args) Ret.

Declare Scope comp_scope.
Delimit Scope comp_scope with comp.
Notation "'let*' x ':=' c 'in' k" :=
  (bind c (fun x => k))
  (at level 10, x name, c at level 100, k at level 200) : comp_scope.
Notation "'let!' x ':=' r 'in' k" :=
  (bind (lift r) (fun x => k))
  (at level 10, x name, r at level 100, k at level 200) : comp_scope.
Local Open Scope comp_scope.

(** Modelled from the spec: the Cell Registry (section 4.2), which is
    not among the source files.  A registered cell has an arity and a
    formula; [register] binds a name, [resolve] finds it or fails with
    [UnknownCellError]. *)
Record cell_def : Type := CellDef {
  arity : nat;
  formula : list arg -> comp value
}.

Abbreviation registry := (gmap string cell_def).

Definition register (name : string) (f : list arg -> comp value) (n : nat)
    (reg : registry) : registry :=
  <[name := CellDef n f]> reg.

Definition resolve (reg : registry) (name : string) : result cell_def :=
  match reg !! name with
  | Some c => Ok c
  | None => Err (UnknownCellError name)
  end.

(** The registry that registers a list of (name, arity, formula), the
    first entry of a name winning. *)
Definition registry_of (l : list (string * nat * (list arg -> comp value)))
    : registry :=
  fold_right (fun c reg => register (fst (fst c)) (snd c) (snd (fst c)) reg)
             ∅ l.

(** The formula to invoke for a key, after name resolution and the
    arity check. *)
Definition body (reg : registry) (k : key) : comp value :=
  match resolve reg (fst k) with
  | Err e => Raise e
  | Ok c =>
      if Nat.eqb (length (snd k)) (arity c) then formula c (snd k)
      else Raise (ArgumentArityError (fst k))
  end.

(** ** Plain call semantics

    What the formulas compute when their calls are ordinary function
    calls: no cache, no cycle check.  This is the reference the caching
    evaluator is compared with. *)

Section Exec.
Context {A : Type}.
Variable ev : key -> option (result value).

Fixpoint exec (c : comp A) : option (result A) :=
  match c with
  | Ret a => Some (Ok a)
  | Raise e => Some (Err e)
  | Call k cont =>
      match ev k with
      | None => None
      | Some (Ok v) => exec (cont v)
      | Some (Err e) => Some (Err e)
      end
  end.
End Exec.

(** [run reg n k]: call [k] as an ordinary (uncached) function, with at
    most [n] nested calls.  [None] means the nesting bound was hit. *)
Fixpoint run (reg : registry) (fuel : nat) (k : key) : option (result value) :=
  match fuel with
  | O => None
  | S n => exec (run reg n) (body reg k)
  end.

Definition evaluates (reg : registry) (k : key) (r : result value) : Prop :=
  exists n, run reg n k = Some r.

(** ** The caching evaluator *)

(** Modelled from the spec: the Value Table (section 4.1), which is not
    among the source files.  [cache] maps a key to its value and is only
    ever extended; [calls] is the instrumentation the specification tests
    memoization with: the keys whose cell function was invoked, most
    recent first. *)
Record state : Type := State {
  cache : gmap key value;
  calls : list key
}.

Definition empty_state : state := State ∅ [].

Definition log_call (k : key) (st : state) : state :=
  State (cache st) (k :: calls st).

Definition store (k : key) (v : value) (st : state) : state :=
  State (<[k := v]> (cache st)) (calls st).

Section Interp.
Context {A : Type}.
Variable ev : key -> state -> option (result value * state).

Fixpoint interp (c : comp A) (st : state) : option (result A * state) :=
  match c with
  | Ret a => Some (Ok a, st)
  | Raise e => Some (Err e, st)
  | Call k cont =>
      match ev k st with
      | None => None
      | Some (Ok v, st') => interp (cont v) st'
      | Some (Err e, st') => Some (Err e, st')
      end
  end.
End Interp.

(** Modelled from the spec: the Evaluator (section 4.3), which is not
    among the source files.  The in-progress marker set is the [chain] of
    keys under computation on the active call chain; it follows the stack
    discipline, so it is passed down rather than stored.  A cached key is
    returned; a key on the chain fails with [CircularEvaluationError]
    naming the chain; otherwise the key is marked, the cell function is
    resolved and invoked, and its value is stored.  A failed key leaves no
    cache entry (section 7).  [fuel] bounds the nesting of requests;
    [None] means the bound was hit. *)
Fixpoint evaluate_in (reg : registry) (fuel : nat) (chain : list key)
    (k : key) (st : state) : option (result value * state) :=
  match fuel with
  | O => None
  | S n =>
      match cache st !! k with
      | Some v => Some (Ok v, st)
      | None =>
          if decide (k ∈ chain)
          then Some (Err (CircularEvaluationError (k :: chain)), st)
          else
            match resolve reg (fst k) with
            | Err e => Some (Err e, st)
            | Ok c =>
                if Nat.eqb (length (snd k)) (arity c) then
                  match interp (evaluate_in reg n (k :: chain))
                               (formula c (snd k)) (log_call k st) with
                  | None => None
                  | Some (Ok v, st') => Some (Ok v, store k v st')
                  | Some (Err e, st') => Some (Err e, st')
                  end
                else Some (Err (ArgumentArityError (fst k)), st)
            end
      end
  end.

(** Modelled from the spec: the top-level query [evaluate(cell_name,
    args)] (section 6), with a fresh chain per request. *)
Definition evaluate (reg : registry) (fuel : nat) (name : string)
    (args : list arg) (st : state) : option (result value * state) :=
  evaluate_in reg fuel [] (name, args) st.

(** How often the cell function of [k] was invoked. *)
Definition call_count (k : key) (st : state) : nat :=
  length (filter (fun k' => k' = k) (calls st)).

(** ** Elementwise arithmetic on values *)

Definition qbool (b : bool) : Q := if b then 1%Q else 0%Q.

(** Python's floor division [x // y] on exact numbers. *)
Definition qfloordiv (x y : Q) : Q := inject_Z (Qfloor (x / y)).

Definition qgt (x y : Q) : Q := qbool (negb (Qle_bool x y)).
Definition qlt (x y : Q) : Q := qbool (negb (Qle_bool y x)).
Definition qeq (x y : Q) : Q := qbool (Qeq_bool x y).

Fixpoint zip_with_q (f : Q -> Q -> Q) (l1 l2 : list Q) : list Q :=
  match l1, l2 with
  | x :: l1', y :: l2' => f x y :: zip_with_q f l1' l2'
  | _, _ => []
  end.

(** Scalars broadcast against arrays; arrays combine position by
    position.  All arrays of a run are aligned to the same model points;
    arrays of different lengths are the specification's
    [AlignmentError].  The operation [f] is exact: the binary64
    operation of the source rounds its result and propagates NaN
    ([Binary64]). *)
Definition broadcast (f : Q -> Q -> Q) (a b : value) : result value :=
  match a, b with
  | VNum x, VNum y => Ok (VNum (f x y))
  | VNum x, VArr l => Ok (VArr (List.map (f x) l))
  | VArr l, VNum y => Ok (VArr (List.map (fun x => f x y) l))
  | VArr l1, VArr l2 =>
      if Nat.eqb (length l1) (length l2)
      then Ok (VArr (zip_with_q f l1 l2))
      else Err AlignmentError
  | _, _ => Err TypeError
  end.

Definition add : value -> value -> result value := broadcast Qplus.
Definition sub : value -> value -> result value := broadcast Qminus.

(** [n * s] for a string [s]: [s] repeated [n] times, empty for [n <= 0];
    [n] must be a whole number (a bool counts as 0 or 1). *)
Fixpoint repeat_string (n : nat) (s : string) : string :=
  match n with
  | O => ""
  | S n' => String.append s (repeat_string n' s)
  end.

Fixpoint repeat_strings (ns : list Q) (ss : list string) : result (list string) :=
  match ns, ss with
  | n :: ns', s :: ss' =>
      if Qeq_bool n (inject_Z (Qfloor n))
      then rbind (repeat_strings ns' ss') (fun r =>
             Ok (repeat_string (Z.to_nat (Qfloor n)) s :: r))
      else Err TypeError
  | _, _ => Ok []
  end.

(** [a * b]: numeric product with broadcasting, or, for a numeric array
    times a string array, elementwise string repetition. *)
Definition mul (a b : value) : result value :=
  match a, b with
  | VArr ns, VStr ss =>
      if Nat.eqb (length ns) (length ss)
      then rbind (repeat_strings ns ss) (fun r => Ok (VStr r))
      else Err AlignmentError
  | _, _ => broadcast Qmult a b
  end.

Definition maximum : value -> value -> result value := broadcast Qmax.
Definition minimum : value -> value -> result value := broadcast Qmin.
Definition gt : value -> value -> result value := broadcast qgt.
Definition lt : value -> value -> result value := broadcast qlt.
Definition eq_num : value -> value -> result value := broadcast qeq.
Definition floordiv : value -> value -> result value := broadcast qfloordiv.

Definition has_zero (v : value) : bool :=
  match v with
  | VNum y => Qeq_bool y 0
  | VArr l => existsb (fun y => Qeq_bool y 0) l
  | _ => false
  end.

(** True division; a zero divisor raises, as Python's [/] does. *)
Definition div (a b : value) : result value :=
  if has_zero b then Err ZeroDivisionError else broadcast Qdiv a b.

Definition neg (a : value) : result value :=
  match a with
  | VNum x => Ok (VNum (- x))
  | VArr l => Ok (VArr (List.map Qopp l))
  | _ => Err TypeError
  end.

(** [s.where(cond, other=o)]: keep the entries of [s] where [cond]
    holds, put [o] elsewhere. *)
Definition where_ (s cond : value) (o : Q) : result value :=
  match s, cond with
  | VArr l, VArr c =>
      if Nat.eqb (length l) (length c)
      then Ok (VArr (zip_with_q (fun x b => if Qeq_bool b 0 then o else x) l c))
      else Err AlignmentError
  | _, _ => Err TypeError
  end.

(** ** Frames and indexed tables *)

Fixpoint assoc {B} (name : string) (l : list (string * B)) : option B :=
  match l with
  | [] => None
  | (n, b) :: l' => if String.eqb n name then Some b else assoc name l'
  end.

(** [df[name]] *)
Definition getitem (v : value) (name : string) : result value :=
  match v with
  | VFrame f =>
      match assoc name (columns f) with
      | Some (NumCol l) => Ok (VArr l)
      | Some (StrCol l) => Ok (VStr l)
      | None => Err (KeyError name)
      end
  | _ => Err TypeError
  end.

(** [s == 'text'] on a string array. *)
Definition eq_str (v : value) (s : string) : result value :=
  match v with
  | VStr l => Ok (VArr (List.map (fun x => qbool (String.eqb x s)) l))
  | _ => Err TypeError
  end.

Fixpoint zip_labels (l1 l2 : list label) : list (label * label) :=
  match l1, l2 with
  | x :: l1', y :: l2' => (x, y) :: zip_labels l1' l2'
  | _, _ => []
  end.

Definition labels_of (v : value) : result (list label) :=
  match v with
  | VArr l => Ok (List.map LNum l)
  | VStr l => Ok (List.map LStr l)
  | _ => Err TypeError
  end.

(** [pd.MultiIndex.from_arrays([a, b])] *)
Definition multiindex_from_arrays (a b : value) : result (list (label * label)) :=
  rbind (labels_of a) (fun la =>
  rbind (labels_of b) (fun lb =>
  if Nat.eqb (length la) (length lb) then Ok (zip_labels la lb)
  else Err (ValueError "all arrays must be same length"))).

Definition pair_eqb (a b : label * label) : bool :=
  label_eqb (fst a) (fst b) && label_eqb (snd a) (snd b).

Fixpoint lookup2 (k : label * label) (t : table) : option Q :=
  match t with
  | [] => None
  | (k', x) :: t' => if pair_eqb k' k then Some x else lookup2 k t'
  end.

Fixpoint unique_index (t : table) : bool :=
  match t with
  | [] => true
  | (k, _) :: t' =>
      match lookup2 k t' with
      | Some _ => false
      | None => unique_index t'
      end
  end.

(** [s.reindex(mi, fill_value=fill)]: the value stored under each key
    pair of [mi], and [fill] for a pair the table does not have.  pandas
    refuses to reindex a table whose index has duplicates. *)
Definition reindex (v : value) (mi : list (label * label)) (fill : Q)
    : result value :=
  match v with
  | VTab t =>
      if unique_index t
      then Ok (VArr (List.map (fun k => match lookup2 k t with
                                        | Some x => x
                                        | None => fill
                                        end) mi))
      else Err (ValueError "cannot handle a non-unique multi-index!")
  | _ => Err TypeError
  end.

(** [s.set_axis(df.index, inplace=False)]: relabel [s] by the index of
    [df]; positions are unchanged, the lengths must agree. *)
Definition set_axis (s df : value) : result value :=
  match s, df with
  | VArr l, VFrame f =>
      if Nat.eqb (length l) (length (index f)) then Ok (VArr l)
      else Err (ValueError "Length mismatch")
  | _, _ => Err TypeError
  end.

Fixpoint find_pos (x : label) (l : list label) : option nat :=
  match l with
  | [] => None
  | y :: l' => if label_eqb y x then Some O
               else option_map S (find_pos x l')
  end.

Definition column_labels (c : column) : list label :=
  match c with
  | NumCol l => List.map LNum l
  | StrCol l => List.map LStr l
  end.

Fixpoint pick {B} (l : list B) (ps : list nat) : result (list B) :=
  match ps with
  | [] => Ok []
  | p :: ps' =>
      match nth_error l p with
      | Some b => rbind (pick l ps') (fun bs => Ok (b :: bs))
      | None => Err IndexError
      end
  end.

Definition pick_column (c : column) (ps : list nat) : result column :=
  match c with
  | NumCol l => rbind (pick l ps) (fun l' => Ok (NumCol l'))
  | StrCol l => rbind (pick l ps) (fun l' => Ok (StrCol l'))
  end.

Fixpoint pick_columns (cs : list (string * column)) (ps : list nat)
    : result (list (string * column)) :=
  match cs with
  | [] => Ok []
  | (n, c) :: cs' =>
      rbind (pick_column c ps) (fun c' =>
      rbind (pick_columns cs' ps) (fun r => Ok ((n, c') :: r)))
  end.

Fixpoint positions (ids idx : list label) : result (list nat) :=
  match ids with
  | [] => Ok []
  | i :: ids' =>
      match find_pos i idx with
      | Some p => rbind (positions ids' idx) (fun ps => Ok (p :: ps))
      | None => Err (KeyError "NaN")
      end
  end.

(** [left.join(right, on=name)]: to every row of [left], the columns of
    the row of [right] whose index label is the row's [name] entry.  The
    index of [right] is taken to be duplicate-free (the first match is
    used).  pandas fills the new columns of an unmatched row with NaN;
    exact numbers have no NaN, and the model raises there, so that what
    is stated of the joined frame is stated of model points that all
    have a row in [right].  [Binary64.Projection.model_point_table_ext]
    is the join with the NaN. *)
Definition join_on (left right : frame) (name : string) : result value :=
  match assoc name (columns left) with
  | None => Err (KeyError name)
  | Some c =>
      if existsb (fun nc => match assoc (fst nc) (columns left) with
                            | Some _ => true
                            | None => false
                            end) (columns right)
      then Err (ValueError "columns overlap but no suffix specified")
      else
        rbind (positions (column_labels c) (index right)) (fun ps =>
        rbind (pick_columns (columns right) ps) (fun cs =>
        Ok (VFrame (Frame (index left) (columns left ++ cs)))))
  end.

(** numpy indexing of one axis: negative positions count from the end. *)
Definition np_index {B} (l : list B) (i : Z) : result B :=
  let n := Z.of_nat (length l) in
  let j := if i <? 0 then i + n else i in
  if (0 <=? j) && (j <? n)
  then match nth_error l (Z.to_nat j) with
       | Some b => Ok b
       | None => Err IndexError
       end
  else Err IndexError.

(** ** Arguments of a formula *)

(** [a == b] between any two Python arguments. *)
Definition arg_eqb (a b : arg) : bool := bool_decide (a = b).

(** [t - 1] and [t + 1] *)
Definition arg_pred (a : arg) : result arg :=
  match a with
  | AInt z => Ok (AInt (z - 1))
  | _ => Err TypeError
  end.

Definition arg_succ (a : arg) : result arg :=
  match a with
  | AInt z => Ok (AInt (z + 1))
  | _ => Err TypeError
  end.

Definition arg_int (a : arg) : result Z :=
  match a with
  | AInt z => Ok z
  | _ => Err TypeError
  end.

Definition num (z : Z) : value := VNum (inject_Z z).

(** ** The Projection space of CashValue_ME *)

Module Projection.

(** [mort_table]: a DataFrame whose index is the attained age and whose
    columns are labelled by the duration ([int(col)] in the source). *)
Record mort_frame : Type := MortFrame {
  mt_columns : list Z;
  mt_rows : list (Q * list Q)
}.

(** [surr_charge_table]: a DataFrame whose index is the duration and
    whose columns are labelled by the surrender charge id. *)
Record surr_frame : Type := SurrFrame {
  sc_columns : list string;
  sc_rows : list (Q * list Q)
}.

(** The References of the space: supplied from outside and read-only. *)
Record references : Type := References {
  model_point_table : frame;
  product_spec_table : frame;
  mort_table : mort_frame;
  std_norm_rand : list (list Q);
  surr_charge_table : surr_frame;
  scen_id : Z
}.

Section Cells.

(** The float primitives [x ** y] and [np.exp(x)]. *)
Variable fpow : Q -> Q -> Q.
Variable fexp : Q -> Q.
Variable R : references.

Definition pow : value -> value -> result value := broadcast fpow.

Definition accum_prem_init_pp (args : list arg) : comp value :=
  let* mp := cell "model_point" [] in
  lift (getitem mp "accum_prem_init_pp").

Definition accum_prem_pp (args : list arg) : comp value :=
  match args with
  | [t] =>
      let* prev :=
        (if arg_eqb t (AInt 0) then cell "accum_prem_init_pp" []
         else let! t1 := arg_pred t in cell "accum_prem_pp" [t1]) in
      let* p := cell "premium_pp" [t] in
      lift (add prev p)
  | _ => Raise (ArgumentArityError "accum_prem_pp")
  end.

Definition age (args : list arg) : comp value :=
  match args with
  | [t] =>
      let* a := cell "age_at_entry" [] in
      let* d := cell "duration" [t] in
      lift (add a d)
  | _ => Raise (ArgumentArityError "age")
  end.

Definition age_at_entry (args : list arg) : comp value :=
  let* mp := cell "model_point" [] in
  lift (getitem mp "age_at_entry").

Definition av_at (args : list arg) : comp value :=
  match args with
  | [t; timing] =>
      if arg_eqb timing (AStr "BEF_MAT") then
        let* a := cell "av_pp_at" [t; AStr "BEF_PREM"] in
        let* p := cell "pols_if_at" [t; AStr "BEF_MAT"] in
        lift (mul a p)
      else if arg_eqb timing (AStr "BEF_NB") then
        let* a := cell "av_pp_at" [t; AStr "BEF_PREM"] in
        let* p := cell "pols_if_at" [t; AStr "BEF_NB"] in
        lift (mul a p)
      else if arg_eqb timing (AStr "BEF_FEE") then
        let* a := cell "av_pp_at" [t; AStr "BEF_FEE"] in
        let* p := cell "pols_if_at" [t; AStr "BEF_DECR"] in
        lift (mul a p)
      else Raise (ValueError "invalid timing")
  | _ => Raise (ArgumentArityError "av_at")
  end.

Definition av_pp_at (args : list arg) : comp value :=
  match args with
  | [t; timing] =>
      if arg_eqb timing (AStr "BEF_PREM") then
        if arg_eqb t (AInt 0) then cell "av_pp_init" []
        else
          let! t1 := arg_pred t in
          let* a := cell "av_pp_at" [t1; AStr "BEF_INV"] in
          let* i := cell "inv_income_pp" [t1] in
          lift (add a i)
      else if arg_eqb timing (AStr "BEF_FEE") then
        let* a := cell "av_pp_at" [t; AStr "BEF_PREM"] in
        let* p := cell "prem_to_av_pp" [t] in
        lift (add a p)
      else if arg_eqb timing (AStr "BEF_INV") then
        let* a := cell "av_pp_at" [t; AStr "BEF_FEE"] in
        let* m := cell "maint_fee_pp" [t] in
        let! x := sub a m in
        let* c := cell "coi_pp" [t] in
        lift (sub x c)
      else if arg_eqb timing (AStr "MID_MTH") then
        let* a := cell "av_pp_at" [t; AStr "BEF_INV"] in
        let* i := cell "inv_income_pp" [t] in
        let! h := mul (VNum (1 # 2)) i in
        lift (add a h)
      else Raise (ValueError "invalid timing")
  | _ => Raise (ArgumentArityError "av_pp_at")
  end.

Definition av_pp_init (args : list arg) : comp value :=
  let* mp := cell "model_point" [] in
  lift (getitem mp "av_pp_init").

Definition claim_pp (args : list arg) : comp value :=
  match args with
  | [t; kind] =>
      if arg_eqb kind (AStr "DEATH") then
        let* s := cell "sum_assured" [] in
        let* a := cell "av_pp_at" [t; AStr "MID_MTH"] in
        lift (maximum s a)
      else if arg_eqb kind (AStr "LAPSE") then
        cell "av_pp_at" [t; AStr "MID_MTH"]
      else if arg_eqb kind (AStr "MATURITY") then
        cell "av_pp_at" [t; AStr "BEF_PREM"]
      else Raise (ValueError "invalid kind")
  | _ => Raise (ArgumentArityError "claim_pp")
  end.

(** [claims(t, kind=None)]: a call that omits [kind] passes [ANone]. *)
Definition claims (args : list arg) : comp value :=
  match args with
  | [t; kind] =>
      if arg_eqb kind (AStr "DEATH") then
        let* c := cell "claim_pp" [t; AStr "DEATH"] in
        let* d := cell "pols_death" [t] in
        lift (mul c d)
      else if arg_eqb kind (AStr "LAPSE") then
        let* c := cell "claims_from_av" [t; AStr "LAPSE"] in
        let* s := cell "surr_charge" [t] in
        lift (sub c s)
      else if arg_eqb kind (AStr "MATURITY") then
        cell "claims_from_av" [t; AStr "MATURITY"]
      else if arg_eqb kind ANone then
        let* c1 := cell "claims" [t; AStr "DEATH"] in
        let! s1 := add (num 0) c1 in
        let* c2 := cell "claims" [t; AStr "LAPSE"] in
        let! s2 := add s1 c2 in
        let* c3 := cell "claims" [t; AStr "MATURITY"] in
        lift (add s2 c3)
      else Raise (ValueError "invalid kind")
  | _ => Raise (ArgumentArityError "claims")
  end.

Definition claims_from_av (args : list arg) : comp value :=
  match args with
  | [t; kind] =>
      if arg_eqb kind (AStr "DEATH") then
        let* a := cell "av_pp_at" [t; AStr "MID_MTH"] in
        let* d := cell "pols_death" [t] in
        lift (mul a d)
      else if arg_eqb kind (AStr "LAPSE") then
        let* a := cell "av_pp_at" [t; AStr "MID_MTH"] in
        let* l := cell "pols_lapse" [t] in
        lift (mul a l)
      else if arg_eqb kind (AStr "MATURITY") then
        let* a := cell "av_pp_at" [t; AStr "BEF_PREM"] in
        let* m := cell "pols_maturity" [t] in
        lift (mul a m)
      else Raise (ValueError "invalid kind")
  | _ => Raise (ArgumentArityError "claims_from_av")
  end.

Definition coi (args : list arg) : comp value :=
  match args with
  | [t] =>
      let* c := cell "coi_pp" [t] in
      let* p := cell "pols_if_at" [t; AStr "BEF_DECR"] in
      lift (mul c p)
  | _ => Raise (ArgumentArityError "coi")
  end.

Definition coi_av (args : list arg) : comp value :=
  match args with
  | [t] =>
      let* m := cell "mort_rate_mth" [t] in
      lift (mul (VNum (11 # 10)) m)
  | _ => Raise (ArgumentArityError "coi_av")
  end.

Definition coi_pp (args : list arg) : comp value :=
  match args with
  | [t] =>
      let* c := cell "coi_av" [t] in
      let* n := cell "net_amt_at_risk" [t] in
      lift (mul c n)
  | _ => Raise (ArgumentArityError "coi_pp")
  end.

Definition duration (args : list arg) : comp value :=
  match args with
  | [t] =>
      let* d := cell "duration_mth" [t] in
      lift (floordiv d (num 12))
  | _ => Raise (ArgumentArityError "duration")
  end.

(** The months in force at [t].  The [duration_mth] column holds int64
    in the source, where an increment past [2^63 - 1] wraps around; the
    exact numbers here do not, which is the result of the source for
    every column whose entries stay in range up to [t]
    ([Binary64.Projection.duration_mth] wraps). *)
Definition duration_mth (args : list arg) : comp value :=
  match args with
  | [t] =>
      if arg_eqb t (AInt 0) then
        let* mp := cell "model_point" [] in
        lift (getitem mp "duration_mth")
      else
        let! t1 := arg_pred t in
        let* d := cell "duration_mth" [t1] in
        lift (add d (num 1))
  | _ => Raise (ArgumentArityError "duration_mth")
  end.

Definition inv_income_pp (args : list arg) : comp value :=
  match args with
  | [t] =>
      let* r := cell "inv_return_mth" [t] in
      let* a := cell "av_pp_at" [t; AStr "BEF_INV"] in
      lift (mul r a)
  | _ => Raise (ArgumentArityError "inv_income_pp")
  end.

Definition inv_return_mth (args : list arg) : comp value :=
  match args with
  | [t] =>
      let* tab := cell "inv_return_table" [] in
      match tab with
      | VMat m =>
          let! row := np_index m (scen_id R) in
          let! i := arg_int t in
          let! x := np_index row i in
          Ret (VNum x)
      | _ => Raise TypeError
      end
  | _ => Raise (ArgumentArityError "inv_return_mth")
  end.

Definition inv_return_table (args : list arg) : comp value :=
  Ret (VMat (List.map (List.map (fun z =>
    fexp ((1 # 50) * 1 / 12 + (3 # 100) * fpow (1 / 12) (1 # 2) * z) - 1)%Q)
    (std_norm_rand R))).

Definition is_wl (args : list arg) : comp value :=
  let* mp := cell "model_point" [] in
  lift (getitem mp "is_wl").

Definition lapse_rate (args : list arg) : comp value :=
  match args with
  | [t] =>
      let* d := cell "duration" [t] in
      let! x := mul (VNum (1 # 50)) d in
      let! y := sub (VNum (1 # 10)) x in
      lift (maximum y (VNum (1 # 50)))
  | _ => Raise (ArgumentArityError "lapse_rate")
  end.

Definition load_prem_rate (args : list arg) : comp value :=
  let* mp := cell "model_point" [] in
  lift (getitem mp "load_prem_rate").

Definition maint_fee_av (args : list arg) : comp value :=
  Ret (VNum ((1 # 100) / 12)).

Definition maint_fee_pp (args : list arg) : comp value :=
  match args with
  | [t] =>
      let* f := cell "maint_fee_av" [] in
      let* a := cell "av_pp_at" [t; AStr "BEF_FEE"] in
      lift (mul f a)
  | _ => Raise (ArgumentArityError "maint_fee_pp")
  end.

Definition model_point (args : list arg) : comp value :=
  cell "model_point_table_ext" [].

Definition model_point_table_ext (args : list arg) : comp value :=
  lift (join_on (model_point_table R) (product_spec_table R) "spec_id").

Definition mort_rate (args : list arg) : comp value :=
  match args with
  | [t] =>
      let* a := cell "age" [t] in
      let* d := cell "duration" [t] in
      let! d5 := minimum d (num 5) in
      let! mi := multiindex_from_arrays a d5 in
      let* tab := cell "mort_table_reindexed" [] in
      let! r := reindex tab mi 0 in
      let* mp := cell "model_point" [] in
      lift (set_axis r mp)
  | _ => Raise (ArgumentArityError "mort_rate")
  end.

Definition mort_rate_mth (args : list arg) : comp value :=
  match args with
  | [t] =>
      let* m := cell "mort_rate" [t] in
      let! x := sub (num 1) m in
      let! y := pow x (VNum (1 / 12)) in
      lift (sub (num 1) y)
  | _ => Raise (ArgumentArityError "mort_rate_mth")
  end.

(** How often the age [a] occurs among the index labels [ages]. *)
Definition occurrences (a : Q) (ages : list Q) : nat :=
  length (List.filter (Qeq_bool a) ages).

(** The loop of [mort_table_last_age]: the first age whose row is all
    ones; failing that, the last age; [i] is unbound on an empty table.
    [mort_table.loc[i]] selects by label: it is the row of [i] when the
    age [i] occurs once in the index, and a DataFrame of all its rows
    when it occurs more often; the truth value of
    [(mort_i == 1).all()] is then ambiguous, which raises. *)
Fixpoint last_age_loop (ages : list Q) (rows : list (Q * list Q))
    (i : option Q) : result value :=
  match rows with
  | [] =>
      match i with
      | Some a => Ok (VNum a)
      | None => Err (NameError "i")
      end
  | (a, mort_i) :: rows' =>
      if Nat.ltb 1 (occurrences a ages)
      then Err (ValueError "The truth value of a Series is ambiguous")
      else if forallb (fun x => Qeq_bool x 1) mort_i then Ok (VNum a)
      else last_age_loop ages rows' (Some a)
  end.

Definition mort_table_last_age (args : list arg) : comp value :=
  lift (last_age_loop (List.map fst (mt_rows (mort_table R)))
                      (mt_rows (mort_table R)) None).

(** The Series of one column [j], labelled [col], of [mort_table],
    indexed by (age, Duration). *)
Definition mort_column (j : nat) (col : Z) : table :=
  List.map (fun r => ((LNum (fst r), LNum (inject_Z col)), nth j (snd r) 0%Q))
           (mt_rows (mort_table R)).

Fixpoint mort_columns_from (j : nat) (cols : list Z) : list table :=
  match cols with
  | [] => []
  | col :: cols' => mort_column j col :: mort_columns_from (S j) cols'
  end.

Definition mort_table_reindexed (args : list arg) : comp value :=
  match mort_columns_from 0 (mt_columns (mort_table R)) with
  | [] => Raise (ValueError "No objects to concatenate")
  | result => Ret (VTab (List.concat result))
  end.

Definition net_amt_at_risk (args : list arg) : comp value :=
  match args with
  | [t] =>
      let* s := cell "sum_assured" [] in
      let* a := cell "av_pp_at" [t; AStr "BEF_FEE"] in
      let! x := sub s a in
      lift (maximum x (num 0))
  | _ => Raise (ArgumentArityError "net_amt_at_risk")
  end.

Definition policy_term (args : list arg) : comp value :=
  let* w := cell "is_wl" [] in
  let* la := cell "mort_table_last_age" [] in
  let* ae := cell "age_at_entry" [] in
  let! x := sub la ae in
  let! y := mul w x in
  let* w' := cell "is_wl" [] in
  let! nw := eq_num w' (num 0) in
  let* mp := cell "model_point" [] in
  let! pt := getitem mp "policy_term" in
  let! z := mul nw pt in
  lift (add y z).

Definition pols_death (args : list arg) : comp value :=
  match args with
  | [t] =>
      let* p := cell "pols_if_at" [t; AStr "BEF_DECR"] in
      let* m := cell "mort_rate_mth" [t] in
      lift (mul p m)
  | _ => Raise (ArgumentArityError "pols_death")
  end.

Definition pols_if (args : list arg) : comp value :=
  match args with
  | [t] => cell "pols_if_at" [t; AStr "BEF_MAT"]
  | _ => Raise (ArgumentArityError "pols_if")
  end.

Definition pols_if_at (args : list arg) : comp value :=
  match args with
  | [t; timing] =>
      if arg_eqb timing (AStr "BEF_MAT") then
        if arg_eqb t (AInt 0) then cell "pols_if_init" []
        else
          let! t1 := arg_pred t in
          let* p := cell "pols_if_at" [t1; AStr "BEF_DECR"] in
          let* l := cell "pols_lapse" [t1] in
          let! x := sub p l in
          let* d := cell "pols_death" [t1] in
          lift (sub x d)
      else if arg_eqb timing (AStr "BEF_NB") then
        let* p := cell "pols_if_at" [t; AStr "BEF_MAT"] in
        let* m := cell "pols_maturity" [t] in
        lift (sub p m)
      else if arg_eqb timing (AStr "BEF_DECR") then
        let* p := cell "pols_if_at" [t; AStr "BEF_NB"] in
        let* n := cell "pols_new_biz" [t] in
        lift (add p n)
      else Raise (ValueError "invalid timing")
  | _ => Raise (ArgumentArityError "pols_if_at")
  end.

Definition pols_if_init (args : list arg) : comp value :=
  let* mp := cell "model_point" [] in
  let! pc := getitem mp "policy_count" in
  let* d := cell "duration_mth" [AInt 0] in
  let! c := gt d (num 0) in
  lift (where_ pc c 0).

Definition pols_lapse (args : list arg) : comp value :=
  match args with
  | [t] =>
      let* p := cell "pols_if_at" [t; AStr "BEF_DECR"] in
      let* d := cell "pols_death" [t] in
      let! x := sub p d in
      let* l := cell "lapse_rate" [t] in
      let! y := sub (num 1) l in
      let! z := pow y (VNum (1 / 12)) in
      let! w := sub (num 1) z in
      lift (mul x w)
  | _ => Raise (ArgumentArityError "pols_lapse")
  end.

Definition pols_maturity (args : list arg) : comp value :=
  match args with
  | [t] =>
      let* d := cell "duration_mth" [t] in
      let* pt := cell "policy_term" [] in
      let! pt12 := mul pt (num 12) in
      let! e := eq_num d pt12 in
      let* p := cell "pols_if_at" [t; AStr "BEF_MAT"] in
      lift (mul e p)
  | _ => Raise (ArgumentArityError "pols_maturity")
  end.

Definition pols_new_biz (args : list arg) : comp value :=
  match args with
  | [t] =>
      let* mp := cell "model_point" [] in
      let! pc := getitem mp "policy_count" in
      let* d := cell "duration_mth" [t] in
      let! c := eq_num d (num 0) in
      lift (where_ pc c 0)
  | _ => Raise (ArgumentArityError "pols_new_biz")
  end.

Definition prem_to_av_pp (args : list arg) : comp value :=
  match args with
  | [t] =>
      let* l := cell "load_prem_rate" [] in
      let! x := sub (num 1) l in
      let* p := cell "premium_pp" [t] in
      lift (mul x p)
  | _ => Raise (ArgumentArityError "prem_to_av_pp")
  end.

Definition premium_pp (args : list arg) : comp value :=
  match args with
  | [t] =>
      let* ty := cell "premium_type" [] in
      let! single := eq_str ty "SINGLE" in
      let* d := cell "duration_mth" [t] in
      let! d0 := eq_num d (num 0) in
      let! s1 := mul single d0 in
      let* mp := cell "model_point" [] in
      let! pp := getitem mp "premium_pp" in
      let! sp := mul s1 pp in
      let* ty' := cell "premium_type" [] in
      let! level := eq_str ty' "LEVEL" in
      let* d' := cell "duration_mth" [t] in
      let* pt := cell "policy_term" [] in
      let! pt12 := mul (num 12) pt in
      let! dl := lt d' pt12 in
      let! l1 := mul level dl in
      let* mp' := cell "model_point" [] in
      let! pp' := getitem mp' "premium_pp" in
      let! lp := mul l1 pp' in
      lift (add sp lp)
  | _ => Raise (ArgumentArityError "premium_pp")
  end.

Definition premium_type (args : list arg) : comp value :=
  let* mp := cell "model_point" [] in
  lift (getitem mp "premium_type").

Definition sum_assured (args : list arg) : comp value :=
  let* mp := cell "model_point" [] in
  lift (getitem mp "sum_assured").

Definition has_surr_charge (args : list arg) : comp value :=
  let* mp := cell "model_point" [] in
  lift (getitem mp "has_surr_charge").

Definition surr_charge (args : list arg) : comp value :=
  match args with
  | [t] =>
      let* s := cell "surr_charge_av" [t] in
      let* a := cell "av_pp_at" [t; AStr "MID_MTH"] in
      let! x := mul s a in
      let* l := cell "pols_lapse" [t] in
      lift (mul x l)
  | _ => Raise (ArgumentArityError "surr_charge")
  end.

Definition surr_charge_av (args : list arg) : comp value :=
  match args with
  | [t] =>
      let* h := cell "has_surr_charge" [] in
      let* i := cell "surr_charge_id" [] in
      let! hi := mul h i in
      let* d := cell "duration" [t] in
      let* mx := cell "surr_charge_max_idx" [] in
      let! dm := minimum d mx in
      let! idx := multiindex_from_arrays hi dm in
      let* tab := cell "surr_charge_table_stacked" [] in
      let! r := reindex tab idx 0 in
      let* mp := cell "model_point" [] in
      lift (set_axis r mp)
  | _ => Raise (ArgumentArityError "surr_charge_av")
  end.

Definition surr_charge_id (args : list arg) : comp value :=
  let* mp := cell "model_point" [] in
  lift (getitem mp "surr_charge_id").

(** [df.stack()]: row by row, one entry per column, indexed by
    (row label, column label). *)
Fixpoint stack_row (d : Q) (cols : list string) (vals : list Q) : table :=
  match cols, vals with
  | c :: cols', v :: vals' => ((LNum d, LStr c), v) :: stack_row d cols' vals'
  | _, _ => []
  end.

Definition stack (f : surr_frame) : table :=
  List.concat (List.map (fun r => stack_row (fst r) (sc_columns f) (snd r))
                        (sc_rows f)).

Definition reorder_levels_1_0 (t : table) : table :=
  List.map (fun e => ((snd (fst e), fst (fst e)), snd e)) t.

(** The order [sort_index] uses within one level. *)
Definition label_leb (a b : label) : bool :=
  match a, b with
  | LNum x, LNum y => Qle_bool x y
  | LStr x, LStr y => String.leb x y
  | LNum _, LStr _ => true
  | LStr _, LNum _ => false
  end.

Definition pair_leb (a b : label * label) : bool :=
  if label_eqb (fst a) (fst b) then label_leb (snd a) (snd b)
  else label_leb (fst a) (fst b).

Fixpoint insert_sorted (e : (label * label) * Q) (t : table) : table :=
  match t with
  | [] => [e]
  | e' :: t' =>
      if pair_leb (fst e) (fst e') then e :: t
      else e' :: insert_sorted e t'
  end.

Definition sort_index (t : table) : table :=
  fold_right insert_sorted [] t.

Definition surr_charge_table_stacked (args : list arg) : comp value :=
  Ret (VTab (sort_index (reorder_levels_1_0 (stack (surr_charge_table R))))).

(** Python's [max] of a sequence; it raises on an empty one. *)
Fixpoint max_of (l : list Q) : result Q :=
  match l with
  | [] => Err (ValueError "max() arg is an empty sequence")
  | [x] => Ok x
  | x :: l' => rbind (max_of l') (fun m => Ok (if Qle_bool m x then x else m))
  end.

Definition surr_charge_max_idx (args : list arg) : comp value :=
  let! m := max_of (List.map fst (sc_rows (surr_charge_table R))) in
  Ret (VNum m).

(** The registered cells of the space, with their arities. *)
Definition cell_list : list (string * nat * (list arg -> comp value)) :=
  [ ("accum_prem_init_pp", 0%nat, accum_prem_init_pp);
    ("accum_prem_pp", 1%nat, accum_prem_pp);
    ("age", 1%nat, age);
    ("age_at_entry", 0%nat, age_at_entry);
    ("av_at", 2%nat, av_at);
    ("av_pp_at", 2%nat, av_pp_at);
    ("av_pp_init", 0%nat, av_pp_init);
    ("claim_pp", 2%nat, claim_pp);
    ("claims", 2%nat, claims);
    ("claims_from_av", 2%nat, claims_from_av);
    ("coi", 1%nat, coi);
    ("coi_av", 1%nat, coi_av);
    ("coi_pp", 1%nat, coi_pp);
    ("duration", 1%nat, duration);
    ("duration_mth", 1%nat, duration_mth);
    ("has_surr_charge", 0%nat, has_surr_charge);
    ("inv_income_pp", 1%nat, inv_income_pp);
    ("inv_return_mth", 1%nat, inv_return_mth);
    ("inv_return_table", 0%nat, inv_return_table);
    ("is_wl", 0%nat, is_wl);
    ("lapse_rate", 1%nat, lapse_rate);
    ("load_prem_rate", 0%nat, load_prem_rate);
    ("maint_fee_av", 0%nat, maint_fee_av);
    ("maint_fee_pp", 1%nat, maint_fee_pp);
    ("model_point", 0%nat, model_point);
    ("model_point_table_ext", 0%nat, model_point_table_ext);
    ("mort_rate", 1%nat, mort_rate);
    ("mort_rate_mth", 1%nat, mort_rate_mth);
    ("mort_table_last_age", 0%nat, mort_table_last_age);
    ("mort_table_reindexed", 0%nat, mort_table_reindexed);
    ("net_amt_at_risk", 1%nat, net_amt_at_risk);
    ("policy_term", 0%nat, policy_term);
    ("pols_death", 1%nat, pols_death);
    ("pols_if", 1%nat, pols_if);
    ("pols_if_at", 2%nat, pols_if_at);
    ("pols_if_init", 0%nat, pols_if_init);
    ("pols_lapse", 1%nat, pols_lapse);
    ("pols_maturity", 1%nat, pols_maturity);
    ("pols_new_biz", 1%nat, pols_new_biz);
    ("prem_to_av_pp", 1%nat, prem_to_av_pp);
    ("premium_pp", 1%nat, premium_pp);
    ("premium_type", 0%nat, premium_type);
    ("sum_assured", 0%nat, sum_assured);
    ("surr_charge", 1%nat, surr_charge);
    ("surr_charge_av", 1%nat, surr_charge_av);
    ("surr_charge_id", 0%nat, surr_charge_id);
    ("surr_charge_max_idx", 0%nat, surr_charge_max_idx);
    ("surr_charge_table_stacked", 0%nat, surr_charge_table_stacked) ].

Definition cells : registry := registry_of cell_list.

End Cells.
(** *** The nesting measure

    Every key of the space with [t >= 0] and a recognized timing or kind
    gets a measure: 30 per unit of [t], plus an offset that orders the
    cells of one time step.  Every request a formula makes goes to a key of
    smaller measure. *)
Definition offsets0 : list (string * nat) :=
  [ ("model_point_table_ext", 0%nat); ("mort_table_last_age", 0%nat);
    ("mort_table_reindexed", 0%nat); ("inv_return_table", 0%nat);
    ("maint_fee_av", 0%nat); ("surr_charge_table_stacked", 0%nat);
    ("surr_charge_max_idx", 0%nat); ("model_point", 1%nat);
    ("age_at_entry", 2%nat); ("is_wl", 2%nat);
    ("accum_prem_init_pp", 2%nat); ("av_pp_init", 2%nat);
    ("has_surr_charge", 2%nat); ("load_prem_rate", 2%nat);
    ("premium_type", 2%nat); ("sum_assured", 2%nat);
    ("surr_charge_id", 2%nat); ("policy_term", 3%nat);
    ("pols_if_init", 5%nat) ].

Definition offsets1 : list (string * nat) :=
  [ ("inv_return_mth", 1%nat); ("duration_mth", 4%nat);
    ("duration", 5%nat); ("pols_new_biz", 5%nat); ("premium_pp", 5%nat);
    ("age", 6%nat); ("lapse_rate", 6%nat); ("prem_to_av_pp", 6%nat);
    ("surr_charge_av", 6%nat); ("accum_prem_pp", 6%nat);
    ("mort_rate", 7%nat); ("mort_rate_mth", 8%nat); ("coi_av", 9%nat);
    ("pols_maturity", 10%nat); ("pols_if", 10%nat);
    ("pols_death", 13%nat); ("pols_lapse", 14%nat);
    ("maint_fee_pp", 17%nat); ("net_amt_at_risk", 17%nat);
    ("coi_pp", 18%nat); ("coi", 19%nat); ("inv_income_pp", 20%nat);
    ("surr_charge", 22%nat) ].

Definition offsets2 : list (string * list (string * nat)) :=
  [ ("pols_if_at",
       [ ("BEF_MAT", 9%nat); ("BEF_NB", 11%nat); ("BEF_DECR", 12%nat) ]);
    ("av_pp_at",
       [ ("BEF_PREM", 15%nat); ("BEF_FEE", 16%nat); ("BEF_INV", 19%nat);
         ("MID_MTH", 21%nat) ]);
    ("av_at",
       [ ("BEF_MAT", 16%nat); ("BEF_NB", 16%nat); ("BEF_FEE", 17%nat) ]);
    ("claim_pp",
       [ ("DEATH", 22%nat); ("LAPSE", 22%nat); ("MATURITY", 16%nat) ]);
    ("claims_from_av",
       [ ("DEATH", 22%nat); ("LAPSE", 22%nat); ("MATURITY", 16%nat) ]);
    ("claims",
       [ ("DEATH", 23%nat); ("LAPSE", 23%nat); ("MATURITY", 17%nat) ]) ].

(** [claims(t)], that is [claims(t, None)]. *)
Definition offsets_none : list (string * nat) := [ ("claims", 24%nat) ].

Definition at_time (t : Z) (o : option nat) : option nat :=
  if 0 <=? t then option_map (fun n => (30 * Z.to_nat t + n)%nat) o else None.

Definition rank (k : key) : option nat :=
  match k with
  | (name, []) => assoc name offsets0
  | (name, [AInt t]) => at_time t (assoc name offsets1)
  | (name, [AInt t; AStr kind]) =>
      at_time t (match assoc name offsets2 with
                 | Some l => assoc kind l
                 | None => None
                 end)
  | (name, [AInt t; ANone]) => at_time t (assoc name offsets_none)
  | _ => None
  end.

(** *** Categorical arguments

    The cells that take a timing or a kind, the values each one
    recognizes, and the message of its rejection. *)
Definition categorical : list (string * (list string * string)) :=
  [ ("pols_if_at", (["BEF_MAT"; "BEF_NB"; "BEF_DECR"], "invalid timing"));
    ("av_at", (["BEF_MAT"; "BEF_NB"; "BEF_FEE"], "invalid timing"));
    ("av_pp_at",
       (["BEF_PREM"; "BEF_FEE"; "BEF_INV"; "MID_MTH"], "invalid timing"));
    ("claim_pp", (["DEATH"; "LAPSE"; "MATURITY"], "invalid kind"));
    ("claims", (["DEATH"; "LAPSE"; "MATURITY"], "invalid kind"));
    ("claims_from_av", (["DEATH"; "LAPSE"; "MATURITY"], "invalid kind")) ].

End Projection.

(** ** The PV space of ifrs17sim *)

Module PV.

(** The refs bound by [_formula]: cells of the enclosing spaces, which
    this space only reads; they are given functions of [t] here.
    [BenefitMat] is used by [PV_BenefitMat] but is not among the refs
    [_formula] binds, so it may be unbound. *)
Record references : Type := References {
  last_t : Z;
  InsurIF_Beg1 : Z -> Q;
  InsurIF_End : Z -> Q;
  PremIncome : Z -> Q;
  BenefitSurr : Z -> Q;
  BenefitDeath : Z -> Q;
  BenefitTotal : Z -> Q;
  ExpsCommTotal : Z -> Q;
  ExpsAcq : Z -> Q;
  ExpsMaint : Z -> Q;
  ExpsTotal : Z -> Q;
  DiscRate : Z -> Q;
  BenefitMat : option (Z -> Q)
}.

Section Cells.

Variable R : references.

(** [1 + DiscRate(t)] *)
Definition one_plus_disc (t : Z) : value := VNum (1 + DiscRate R t).

Definition InterestNetCF (args : list arg) : comp value :=
  match args with
  | [AInt t] =>
      if last_t R <? t then Ret (num 0)
      else
        let* pv := cell "PV_NetCashflow" [AInt t] in
        let! x := sub pv (VNum (PremIncome R t)) in
        let! y := add x (VNum (ExpsTotal R t)) in
        lift (mul y (VNum (DiscRate R t)))
  | [_] => Raise TypeError
  | _ => Raise (ArgumentArityError "InterestNetCF")
  end.

(** The shape [(-cf(t) + pv(t+1)) / (1 + DiscRate(t))] shared by the
    benefit cells. *)
Definition discounted_end (name : string) (cf : Z -> Q) (t : Z) : comp value :=
  let! c := neg (VNum (cf t)) in
  let* nxt := cell name [AInt (t + 1)] in
  let! s := add c nxt in
  lift (div s (one_plus_disc t)).

(** The shape [cf(t) + pv(t+1) / (1 + DiscRate(t))]. *)
Definition discounted_beg (name : string) (cf : Q) (t : Z) : comp value :=
  let* nxt := cell name [AInt (t + 1)] in
  let! q := div nxt (one_plus_disc t) in
  lift (add (VNum cf) q).

Definition PV_BenefitDeath (args : list arg) : comp value :=
  match args with
  | [AInt t] =>
      if last_t R <? t then Ret (num 0)
      else discounted_end "PV_BenefitDeath" (BenefitDeath R) t
  | [_] => Raise TypeError
  | _ => Raise (ArgumentArityError "PV_BenefitDeath")
  end.

Definition PV_BenefitMat (args : list arg) : comp value :=
  match args with
  | [AInt t] =>
      if last_t R <? t then Ret (num 0)
      else
        match BenefitMat R with
        | Some cf => discounted_end "PV_BenefitMat" cf t
        | None => Raise (NameError "BenefitMat")
        end
  | [_] => Raise TypeError
  | _ => Raise (ArgumentArityError "PV_BenefitMat")
  end.

Definition PV_BenefitSurr (args : list arg) : comp value :=
  match args with
  | [AInt t] =>
      if last_t R <? t then Ret (num 0)
      else discounted_end "PV_BenefitSurr" (BenefitSurr R) t
  | [_] => Raise TypeError
  | _ => Raise (ArgumentArityError "PV_BenefitSurr")
  end.

Definition PV_BenefitTotal (args : list arg) : comp value :=
  match args with
  | [AInt t] =>
      if last_t R <? t then Ret (num 0)
      else discounted_end "PV_BenefitTotal" (BenefitTotal R) t
  | [_] => Raise TypeError
  | _ => Raise (ArgumentArityError "PV_BenefitTotal")
  end.

Definition PV_Check (args : list arg) : comp value :=
  match args with
  | [t] =>
      let* a := cell "PV_NetCashflow" [t] in
      let* b := cell "PV_NetCashflowForCheck" [t] in
      lift (sub a b)
  | _ => Raise (ArgumentArityError "PV_Check")
  end.

Definition PV_ExpsAcq (args : list arg) : comp value :=
  match args with
  | [AInt t] =>
      if last_t R <? t then Ret (num 0)
      else discounted_beg "PV_ExpsAcq" (- ExpsAcq R t) t
  | [_] => Raise TypeError
  | _ => Raise (ArgumentArityError "PV_ExpsAcq")
  end.

Definition PV_ExpsCommTotal (args : list arg) : comp value :=
  match args with
  | [AInt t] =>
      if last_t R <? t then Ret (num 0)
      else discounted_beg "PV_ExpsCommTotal" (- ExpsCommTotal R t) t
  | [_] => Raise TypeError
  | _ => Raise (ArgumentArityError "PV_ExpsCommTotal")
  end.

Definition PV_ExpsMaint (args : list arg) : comp value :=
  match args with
  | [AInt t] =>
      if last_t R <? t then Ret (num 0)
      else discounted_beg "PV_ExpsMaint" (- ExpsMaint R t) t
  | [_] => Raise TypeError
  | _ => Raise (ArgumentArityError "PV_ExpsMaint")
  end.

Definition PV_ExpsTotal (args : list arg) : comp value :=
  match args with
  | [AInt t] =>
      if last_t R <? t then Ret (num 0)
      else discounted_beg "PV_ExpsTotal" (- ExpsTotal R t) t
  | [_] => Raise TypeError
  | _ => Raise (ArgumentArityError "PV_ExpsTotal")
  end.

Definition PV_NetCashflow (args : list arg) : comp value :=
  match args with
  | [t] =>
      let* p := cell "PV_PremIncome" [t] in
      let* e := cell "PV_ExpsTotal" [t] in
      let! x := add p e in
      let* b := cell "PV_BenefitTotal" [t] in
      lift (add x b)
  | _ => Raise (ArgumentArityError "PV_NetCashflow")
  end.

Definition PV_NetCashflowForCheck (args : list arg) : comp value :=
  match args with
  | [AInt t] =>
      if last_t R <? t then Ret (num 0)
      else
        let! x := sub (VNum (PremIncome R t)) (VNum (ExpsTotal R t)) in
        let! b := div (VNum (BenefitTotal R t)) (one_plus_disc t) in
        let! y := sub x b in
        let* nxt := cell "PV_NetCashflow" [AInt (t + 1)] in
        let! q := div nxt (one_plus_disc t) in
        lift (add y q)
  | [_] => Raise TypeError
  | _ => Raise (ArgumentArityError "PV_NetCashflowForCheck")
  end.

Definition PV_PremIncome (args : list arg) : comp value :=
  match args with
  | [AInt t] =>
      if last_t R <? t then Ret (num 0)
      else discounted_beg "PV_PremIncome" (PremIncome R t) t
  | [_] => Raise TypeError
  | _ => Raise (ArgumentArityError "PV_PremIncome")
  end.

Definition PV_SumInsurIF (args : list arg) : comp value :=
  match args with
  | [AInt t] =>
      if last_t R <? t then Ret (num 0)
      else discounted_beg "PV_SumInsurIF" (InsurIF_Beg1 R t) t
  | [_] => Raise TypeError
  | _ => Raise (ArgumentArityError "PV_SumInsurIF")
  end.

Definition cell_list : list (string * nat * (list arg -> comp value)) :=
  [ ("InterestNetCF", 1%nat, InterestNetCF);
    ("PV_BenefitDeath", 1%nat, PV_BenefitDeath);
    ("PV_BenefitMat", 1%nat, PV_BenefitMat);
    ("PV_BenefitSurr", 1%nat, PV_BenefitSurr);
    ("PV_BenefitTotal", 1%nat, PV_BenefitTotal);
    ("PV_Check", 1%nat, PV_Check);
    ("PV_ExpsAcq", 1%nat, PV_ExpsAcq);
    ("PV_ExpsCommTotal", 1%nat, PV_ExpsCommTotal);
    ("PV_ExpsMaint", 1%nat, PV_ExpsMaint);
    ("PV_ExpsTotal", 1%nat, PV_ExpsTotal);
    ("PV_NetCashflow", 1%nat, PV_NetCashflow);
    ("PV_NetCashflowForCheck", 1%nat, PV_NetCashflowForCheck);
    ("PV_PremIncome", 1%nat, PV_PremIncome);
    ("PV_SumInsurIF", 1%nat, PV_SumInsurIF) ].

Definition cells : registry := registry_of cell_list.

End Cells.
(** The cells that start with the guard [if t > last_t(): return 0]. *)
Definition guarded : list string :=
  [ "InterestNetCF"; "PV_BenefitDeath"; "PV_BenefitMat"; "PV_BenefitSurr";
    "PV_BenefitTotal"; "PV_ExpsAcq"; "PV_ExpsCommTotal"; "PV_ExpsMaint";
    "PV_ExpsTotal"; "PV_NetCashflowForCheck"; "PV_PremIncome";
    "PV_SumInsurIF" ].

End PV.

(** ** The scenarios of the specification

    Modelled from the spec: the cells of the test scenarios of section 8,
    registered with the engine above. *)

Module Scenario.

(** [balance(t) = balance(t-1) + deposit(t)], [balance(0) = initial()],
    [deposit(t) = 10], [initial() = 100]. *)
Definition balance (args : list arg) : comp value :=
  match args with
  | [t] =>
      if arg_eqb t (AInt 0) then cell "initial" []
      else
        let! t1 := arg_pred t in
        let* b := cell "balance" [t1] in
        let* d := cell "deposit" [t] in
        lift (add b d)
  | _ => Raise (ArgumentArityError "balance")
  end.

Definition deposit (args : list arg) : comp value := Ret (num 10).

Definition initial (args : list arg) : comp value := Ret (num 100).

Definition savings : registry :=
  registry_of [ ("balance", 1%nat, balance);
                ("deposit", 1%nat, deposit);
                ("initial", 0%nat, initial) ].

(** [count_if(t, "A") = count_if(t-1, "B")],
    [count_if(t, "B") = count_if(t, "A") + 1], no base case. *)
Definition count_if (args : list arg) : comp value :=
  match args with
  | [t; kind] =>
      if arg_eqb kind (AStr "A") then
        let! t1 := arg_pred t in
        cell "count_if" [t1; AStr "B"]
      else if arg_eqb kind (AStr "B") then
        let* c := cell "count_if" [t; AStr "A"] in
        lift (add c (num 1))
      else Raise (ValueError "invalid kind")
  | _ => Raise (ArgumentArityError "count_if")
  end.

Definition counting : registry := registry_of [ ("count_if", 2%nat, count_if) ].

(** A true cycle: [f(t)] asks for [f(t)] again before resolving. *)
Definition self_ref (args : list arg) : comp value :=
  match args with
  | [t] =>
      let* x := cell "f" [t] in
      lift (add x (num 1))
  | _ => Raise (ArgumentArityError "f")
  end.

Definition cyclic : registry := registry_of [ ("f", 1%nat, self_ref) ].

End Scenario.

(** ** Runs of the evaluator *)

(** The states a run can be in: the empty state, and the state left by
    any top-level request, whether it succeeded or failed. *)
Inductive reachable (reg : registry) : state -> Prop :=
| reach_empty : reachable reg empty_state
| reach_step st fuel name args r st' :
    reachable reg st ->
    evaluate reg fuel name args st = Some (r, st') ->
    reachable reg st'.

(** All requests of a request tree satisfy [P], whatever the answers. *)
Fixpoint requests {A} (P : key -> Prop) (c : comp A) : Prop :=
  match c with
  | Ret _ => True
  | Raise _ => True
  | Call k cont => P k /\ forall v, requests P (cont v)
  end.

(** The keys a formula asks for when the answers come from [oracle], in
    the order it asks; the walk stops at the first failing answer. *)
Fixpoint trace {A} (oracle : key -> result value) (c : comp A) : list key :=
  match c with
  | Ret _ => []
  | Raise _ => []
  | Call k cont =>
      k :: match oracle k with
           | Ok v => trace oracle (cont v)
           | Err _ => []
           end
  end.

(** Elementwise non-negativity of a numeric value. *)
Definition nonneg (v : value) : Prop :=
  match v with
  | VNum x => (0 <= x)%Q
  | VArr l => Forall (fun x => (0 <= x)%Q) l
  | _ => False
  end.

(** The first entry of a name in a list of cells. *)
Fixpoint find_cell (name : string)
    (l : list (string * nat * (list arg -> comp value))) : option cell_def :=
  match l with
  | [] => None
  | c :: l' =>
      if String.eqb (fst (fst c)) name then Some (CellDef (snd (fst c)) (snd c))
      else find_cell name l'
  end.

(** A cache is coherent when every entry is the value the plain call
    of its key returns. *)
Definition coherent (reg : registry) (c : gmap key value) : Prop :=
  forall k v, c !! k = Some v -> evaluates reg k (Ok v).

(** [returns reg c r]: the request tree [c] runs to [r] under the plain
    call semantics. *)
Definition returns {A} (reg : registry) (c : comp A) (r : result A) : Prop :=
  exists n, exec (run reg n) c = Some r.

(** The state a top-level request leaves behind. *)
Definition after (reg : registry) (fuel : nat) (name : string)
    (args : list arg) (st : state) : state :=
  match evaluate reg fuel name args st with
  | Some (_, st') => st'
  | None => st
  end.

(** ** A small portfolio

    Two model points, used to exercise the formulas on concrete data.
    The first is in force at time 0; the second is new business issued at
    [t = 2]. *)
Module Sample.

Definition model_point_table : frame :=
  Frame [LNum 1; LNum 2]
    [ ("spec_id", StrCol ["A"; "B"]);
      ("age_at_entry", NumCol [47; 29]%Q);
      ("policy_term", NumCol [10; 15]%Q);
      ("policy_count", NumCol [100; 50]%Q);
      ("sum_assured", NumCol [622000; 752000]%Q);
      ("duration_mth", NumCol [1; - (2)]%Q);
      ("accum_prem_init_pp", NumCol [0; 0]%Q);
      ("av_pp_init", NumCol [1000; 0]%Q);
      ("premium_pp", NumCol [500; 30]%Q) ].

Definition product_spec_table : frame :=
  Frame [LStr "A"; LStr "B"]
    [ ("premium_type", StrCol ["SINGLE"; "LEVEL"]);
      ("has_surr_charge", NumCol [0; 1]%Q);
      ("surr_charge_id", StrCol [""; "type_1"]);
      ("load_prem_rate", NumCol [0; 1 # 10]%Q);
      ("is_wl", NumCol [0; 0]%Q) ].

Definition mort_table : Projection.mort_frame :=
  Projection.MortFrame [0; 1]
    [ (29, [1 # 100; 2 # 100]); (47, [3 # 100; 4 # 100]); (48, [1; 1]) ]%Q.

Definition surr_charge_table : Projection.surr_frame :=
  Projection.SurrFrame ["type_1"; "type_2"]
    [ (0, [1 # 10; 2 # 10]); (1, [1 # 20; 1 # 10]) ]%Q.

Definition refs : Projection.references :=
  Projection.References model_point_table product_spec_table mort_table
    [[0; 0; 0; 0]; [1 # 10; 0; 0; 0]]%Q surr_charge_table 1.

(** Stand-ins for the float primitives: any functions will do to run the
    formulas; these are the first-order approximations [x ** y ~ x] and
    [exp x ~ 1 + x]. *)
Definition pow1 (x y : Q) : Q := x.
Definition exp1 (x : Q) : Q := (1 + x)%Q.

Definition cells : registry := Projection.cells pow1 exp1 refs.

Definition pv_refs : PV.references :=
  PV.References 2
    (fun _ => 1000%Q) (fun _ => 990%Q) (fun _ => 100%Q)
    (fun _ => 5%Q) (fun _ => 20%Q) (fun _ => 25%Q)
    (fun _ => 3%Q) (fun _ => 2%Q) (fun _ => 1%Q) (fun _ => 6%Q)
    (fun _ => (1 # 100)%Q) None.

Definition pv_cells : registry := PV.cells pv_refs.

End Sample.

(** While a request is being evaluated from a state [st0] of any
    history, with the keys of [chain] in progress: the cache has only
    grown since [st0], and the cell functions invoked since then are
    pairwise different keys, none of them cached in [st0], each cached by
    now or still in progress. *)
Definition logged_since (st0 : state) (chain : list key) (st : state) : Prop :=
  cache st0 ⊆ cache st /\
  exists new,
    calls st = new ++ calls st0 /\ NoDup new /\
    forall k, k ∈ new ->
      cache st0 !! k = None /\ (is_Some (cache st !! k) \/ k ∈ chain).

(** A key succeeds when its plain call returns a value. *)
Definition succeeds (reg : registry) (k : key) : Prop :=
  exists v, evaluates reg k (Ok v).

(** Over a run of any history, failed requests included: a key that
    succeeds was invoked at most once, and once invoked it is cached or
    still in progress. *)
Definition invoked_once (reg : registry) (chain : list key) (st : state)
    : Prop :=
  forall k, succeeds reg k ->
    (call_count k st <= 1)%nat /\
    (k ∈ calls st -> is_Some (cache st !! k) \/ k ∈ chain).

(** The keys in progress wait for the request tree [c]: whenever the
    plain call of one of them returns a value, [c] has returned one
    before, within fewer nested calls. *)
Definition awaited {A} (reg : registry) (chain : list key) (c : comp A)
    : Prop :=
  forall c0, c0 ∈ chain ->
    forall m v, run reg m c0 = Some (Ok v) ->
      exists m' a, (m' < m)%nat /\ exec (run reg m') c = Some (Ok a).

(** The position of a [count_if] key in the regress of the second
    scenario: [count_if(t, "A")] sits at [2 t], [count_if(t, "B")] at
    [2 t + 1], and every request goes one position down. *)
Definition count_position (k : key) : option Z :=
  match k with
  | (name, [AInt t; AStr kind]) =>
      if String.eqb name "count_if" then
        if String.eqb kind "A" then Some (2 * t)
        else if String.eqb kind "B" then Some (2 * t + 1)
        else None
      else None
  | _ => None
  end.

(** A duration column [n] months later: each entry incremented [n]
    times, as [duration_mth] does. *)
Fixpoint months_later (n : nat) (d0 : list Q) : list Q :=
  match n with
  | O => d0
  | S n' => List.map (fun x => (x + inject_Z 1)%Q) (months_later n' d0)
  end.

(** Elementwise, a probability: between 0 and 1. *)
Definition in_unit (v : value) : Prop :=
  match v with
  | VNum x => (0 <= x <= 1)%Q
  | VArr l => Forall (fun x => (0 <= x <= 1)%Q) l
  | _ => False
  end.

(** ** The nesting measure of the PV space *)

Module PVSpec.

(** How many steps remain from [t] to the end of the projection: the
    number of [s] with [t <= s <= last_t()].  An argument that is not an
    integer has none. *)
Definition steps_left (R : PV.references) (a : arg) : nat :=
  match a with
  | AInt t => Z.to_nat (PV.last_t R + 1 - t)
  | _ => O
  end.

(** The order of the cells within one time step. *)
Definition offsets : list (string * nat) :=
  [ ("PV_BenefitDeath", 0%nat); ("PV_BenefitMat", 0%nat);
    ("PV_BenefitSurr", 0%nat); ("PV_BenefitTotal", 0%nat);
    ("PV_ExpsAcq", 0%nat); ("PV_ExpsCommTotal", 0%nat);
    ("PV_ExpsMaint", 0%nat); ("PV_ExpsTotal", 0%nat);
    ("PV_PremIncome", 0%nat); ("PV_SumInsurIF", 0%nat);
    ("PV_NetCashflow", 1%nat); ("PV_NetCashflowForCheck", 2%nat);
    ("InterestNetCF", 2%nat); ("PV_Check", 3%nat) ].

(** The nesting measure of a key of the PV space: three per remaining
    step, plus the offset of the cell.  Any other key is answered without
    a request. *)
Definition rank (R : PV.references) (k : key) : option nat :=
  match k with
  | (name, [a]) =>
      match assoc name offsets with
      | Some o => Some (3 * steps_left R a + o)%nat
      | None => Some O
      end
  | _ => Some O
  end.

End PVSpec.

(** ** Sortedness of an indexed table *)

(** Each entry's key is at most the next one's, in the order of
    [sort_index]. *)
Fixpoint sorted_index (t : table) : bool :=
  match t with
  | [] => true
  | e :: t' =>
      match t' with
      | [] => true
      | e' :: _ => Projection.pair_leb (fst e) (fst e') && sorted_index t'
      end
  end.

(** ** The cashflow cells of the Projection space

    The cells of the space that turn the per-policy amounts into
    cashflows, margins and checks.  They call the cells above and one
    another; [cells] registers the whole space. *)

Module Cashflows.

Section Cells.

Variable fpow : Q -> Q -> Q.
Variable fexp : Q -> Q.
Variable R : Projection.references.

Definition av_change (args : list arg) : comp value :=
  match args with
  | [t] =>
      let! t1 := arg_succ t in
      let* a := cell "av_at" [t1; AStr "BEF_MAT"] in
      let* b := cell "av_at" [t; AStr "BEF_MAT"] in
      lift (sub a b)
  | _ => Raise (ArgumentArityError "av_change")
  end.

Definition check_av_roll_fwd (args : list arg) : comp value :=
  match args with
  | [t] =>
      let* a := cell "av_at" [t; AStr "BEF_NB"] in
      let* p := cell "prem_to_av" [t] in
      let! x1 := add a p in
      let* m := cell "maint_fee" [t] in
      let! x2 := sub x1 m in
      let* c := cell "coi" [t] in
      let! x3 := sub x2 c in
      let* i := cell "inv_income" [t] in
      let! x4 := add x3 i in
      let* cd := cell "claims_from_av" [t; AStr "DEATH"] in
      let! x5 := sub x4 cd in
      let* cl := cell "claims_from_av" [t; AStr "LAPSE"] in
      let! x6 := sub x5 cl in
      let* cm := cell "claims_from_av" [t; AStr "MATURITY"] in
      let! av := sub x6 cm in
      let! t1 := arg_succ t in
      let* nxt := cell "av_at" [t1; AStr "BEF_NB"] in
      lift (sub nxt av)
  | _ => Raise (ArgumentArityError "check_av_roll_fwd")
  end.

Definition check_margin (args : list arg) : comp value :=
  match args with
  | [t] =>
      let* n := cell "net_cf" [t] in
      let* e := cell "margin_expense" [t] in
      let! x := sub n e in
      let* m := cell "margin_mortality" [t] in
      lift (sub x m)
  | _ => Raise (ArgumentArityError "check_margin")
  end.

Definition claims_over_av (args : list arg) : comp value :=
  match args with
  | [t] =>
      let* c := cell "claim_pp" [t; AStr "DEATH"] in
      let* a := cell "av_pp_at" [t; AStr "MID_MTH"] in
      let! x := sub c a in
      let* d := cell "pols_death" [t] in
      lift (mul x d)
  | _ => Raise (ArgumentArityError "claims_over_av")
  end.

Definition commissions (args : list arg) : comp value :=
  match args with
  | [t] =>
      let* p := cell "premiums" [t] in
      lift (mul (VNum (1 # 20)) p)
  | _ => Raise (ArgumentArityError "commissions")
  end.

Definition expense_acq (args : list arg) : comp value := Ret (num 5000).

Definition expense_maint (args : list arg) : comp value := Ret (num 500).

Definition expenses (args : list arg) : comp value :=
  match args with
  | [t] =>
      let* ea := cell "expense_acq" [] in
      let* nb := cell "pols_new_biz" [t] in
      let! x := mul ea nb in
      let* p := cell "pols_if_at" [t; AStr "BEF_DECR"] in
      let* em := cell "expense_maint" [] in
      let! y := mul p em in
      let! z := div y (num 12) in
      let* i := cell "inflation_factor" [t] in
      let! w := mul z i in
      lift (add x w)
  | _ => Raise (ArgumentArityError "expenses")
  end.

Definition inflation_factor (args : list arg) : comp value :=
  match args with
  | [t] =>
      let* r := cell "inflation_rate" [] in
      let! x := add (num 1) r in
      let! z := arg_int t in
      lift (Projection.pow fpow x (VNum (inject_Z z / 12)))
  | _ => Raise (ArgumentArityError "inflation_factor")
  end.

Definition inflation_rate (args : list arg) : comp value :=
  Ret (VNum (1 # 100)).

Definition inv_income (args : list arg) : comp value :=
  match args with
  | [t] =>
      let* i := cell "inv_income_pp" [t] in
      let! t1 := arg_succ t in
      let* p := cell "pols_if_at" [t1; AStr "BEF_MAT"] in
      let! x := mul i p in
      let* i' := cell "inv_income_pp" [t] in
      let! h := mul (VNum (1 # 2)) i' in
      let* d := cell "pols_death" [t] in
      let* l := cell "pols_lapse" [t] in
      let! s := add d l in
      let! y := mul h s in
      lift (add x y)
  | _ => Raise (ArgumentArityError "inv_income")
  end.

Definition loading_prem (args : list arg) : comp value :=
  Ret (VNum (1 # 2)).

Definition maint_fee (args : list arg) : comp value :=
  match args with
  | [t] =>
      let* m := cell "maint_fee_pp" [t] in
      let* p := cell "pols_if_at" [t; AStr "BEF_DECR"] in
      lift (mul m p)
  | _ => Raise (ArgumentArityError "maint_fee")
  end.

Definition margin_expense (args : list arg) : comp value :=
  match args with
  | [t] =>
      let* l := cell "load_prem_rate" [] in
      let* pp := cell "premium_pp" [t] in
      let! x1 := mul l pp in
      let* p := cell "pols_if_at" [t; AStr "BEF_DECR"] in
      let! x2 := mul x1 p in
      let* s := cell "surr_charge" [t] in
      let! x3 := add x2 s in
      let* m := cell "maint_fee" [t] in
      let! x4 := add x3 m in
      let* c := cell "commissions" [t] in
      let! x5 := sub x4 c in
      let* e := cell "expenses" [t] in
      lift (sub x5 e)
  | _ => Raise (ArgumentArityError "margin_expense")
  end.

Definition margin_mortality (args : list arg) : comp value :=
  match args with
  | [t] =>
      let* c := cell "coi" [t] in
      let* o := cell "claims_over_av" [t] in
      lift (sub c o)
  | _ => Raise (ArgumentArityError "margin_mortality")
  end.

(** [max(proj_len())]: Python's [max] iterates over the array. *)
Definition max_proj_len (args : list arg) : comp value :=
  let* pl := cell "proj_len" [] in
  match pl with
  | VArr l =>
      let! m := Projection.max_of l in
      Ret (VNum m)
  | _ => Raise TypeError
  end.

(** [claims(t)] passes no [kind]. *)
Definition net_cf (args : list arg) : comp value :=
  match args with
  | [t] =>
      let* p := cell "premiums" [t] in
      let* c := cell "claims" [t; ANone] in
      let! x := sub p c in
      let* e := cell "expenses" [t] in
      let! y := sub x e in
      let* m := cell "commissions" [t] in
      lift (sub y m)
  | _ => Raise (ArgumentArityError "net_cf")
  end.

Definition prem_to_av (args : list arg) : comp value :=
  match args with
  | [t] =>
      let* l := cell "load_prem_rate" [] in
      let! x := sub (num 1) l in
      let* pp := cell "premium_pp" [t] in
      let! y := mul x pp in
      let* p := cell "pols_if_at" [t; AStr "BEF_DECR"] in
      lift (mul y p)
  | _ => Raise (ArgumentArityError "prem_to_av")
  end.

Definition premiums (args : list arg) : comp value :=
  match args with
  | [t] =>
      let* pp := cell "premium_pp" [t] in
      let* p := cell "pols_if_at" [t; AStr "BEF_DECR"] in
      lift (mul pp p)
  | _ => Raise (ArgumentArityError "premiums")
  end.

Definition proj_len (args : list arg) : comp value :=
  let* pt := cell "policy_term" [] in
  let! x := mul (num 12) pt in
  let* d := cell "duration_mth" [AInt 0] in
  let! y := sub x d in
  let! z := add y (num 1) in
  lift (maximum z (num 0)).

Definition sex (args : list arg) : comp value :=
  let* mp := cell "model_point" [] in
  lift (getitem mp "sex").

(** The cells above, with their arities. *)
Definition cell_list : list (string * nat * (list arg -> comp value)) :=
  [ ("av_change", 1%nat, av_change);
    ("check_av_roll_fwd", 1%nat, check_av_roll_fwd);
    ("check_margin", 1%nat, check_margin);
    ("claims_over_av", 1%nat, claims_over_av);
    ("commissions", 1%nat, commissions);
    ("expense_acq", 0%nat, expense_acq);
    ("expense_maint", 0%nat, expense_maint);
    ("expenses", 1%nat, expenses);
    ("inflation_factor", 1%nat, inflation_factor);
    ("inflation_rate", 0%nat, inflation_rate);
    ("inv_income", 1%nat, inv_income);
    ("loading_prem", 0%nat, loading_prem);
    ("maint_fee", 1%nat, maint_fee);
    ("margin_expense", 1%nat, margin_expense);
    ("margin_mortality", 1%nat, margin_mortality);
    ("max_proj_len", 0%nat, max_proj_len);
    ("net_cf", 1%nat, net_cf);
    ("prem_to_av", 1%nat, prem_to_av);
    ("premiums", 1%nat, premiums);
    ("proj_len", 0%nat, proj_len);
    ("sex", 0%nat, sex) ].

(** The registry of the whole space. *)
Definition cells : registry :=
  registry_of (cell_list ++ Projection.cell_list fpow fexp R).

End Cells.

(** The nesting measure of the cashflow cells: above every cell they
    call at [t] and at [t + 1]. *)
Definition offsets0 : list (string * nat) :=
  [ ("expense_acq", 0%nat); ("expense_maint", 0%nat);
    ("inflation_rate", 0%nat); ("loading_prem", 0%nat); ("sex", 2%nat);
    ("proj_len", 6%nat); ("max_proj_len", 7%nat) ].

Definition offsets1 : list (string * nat) :=
  [ ("av_change", 60%nat); ("claims_over_av", 60%nat);
    ("inflation_factor", 60%nat); ("inv_income", 60%nat);
    ("maint_fee", 60%nat); ("prem_to_av", 60%nat); ("premiums", 60%nat);
    ("commissions", 61%nat); ("expenses", 61%nat);
    ("margin_mortality", 61%nat); ("check_av_roll_fwd", 61%nat);
    ("net_cf", 62%nat); ("margin_expense", 62%nat);
    ("check_margin", 63%nat) ].

Definition rank (k : key) : option nat :=
  match Projection.rank k with
  | Some r => Some r
  | None =>
      match k with
      | (name, []) => assoc name offsets0
      | (name, [AInt t]) => Projection.at_time t (assoc name offsets1)
      | _ => None
      end
  end.

End Cashflows.

Module FullSample.

(** The whole space over the sample portfolio. *)
Definition cells : registry :=
  Cashflows.cells Sample.pow1 Sample.exp1 Sample.refs.

End FullSample.

(** ** Running totals over the months of a projection *)

(** [(...((a + g(0)) + g(1)) + ...) + g(n)]: the amounts [g(0)], ...,
    [g(n)] added to [a] one after the other, in this order. *)
Fixpoint running_total (a : Q) (g : Z -> Q) (n : nat) : Q :=
  match n with
  | O => (a + g 0%Z)%Q
  | S n' => (running_total a g n' + g (Z.of_nat (S n')))%Q
  end.

(** ** The formulas over binary64

    The numbers of the Python code are IEEE 754 binary64 floats, with
    rounding after every operation and with NaN; the integers of a table
    column are 64 bits wide.  Where a statement depends on either, it is
    made about the cell functions below, which follow the source over
    Rocq's primitive floats, operation by operation in the order of the
    source.  A cell function calls the cells it needs directly; [fuel]
    bounds the nesting of the calls, and [None] means the bound was
    hit. *)
Module Binary64.

Definition outcome (A : Type) : Type := option (result A).

Definition oret {A} (a : A) : outcome A := Some (Ok a).

Definition oraise {A} (e : error) : outcome A := Some (Err e).

Definition obind {A B} (c : outcome A) (k : A -> outcome B) : outcome B :=
  match c with
  | None => None
  | Some (Err e) => Some (Err e)
  | Some (Ok a) => k a
  end.

Declare Scope outcome_scope.
Delimit Scope outcome_scope with outcome.
Notation "'let*' x ':=' c 'in' k" :=
  (obind c (fun x => k))
  (at level 10, x name, c at level 100, k at level 200) : outcome_scope.
Local Open Scope outcome_scope.

(** A bool in arithmetic: [True] is 1.0, [False] is 0.0. *)
Definition fbool (b : bool) : float := if b then 1%float else 0%float.

(** True division of Python floats; a zero divisor raises. *)
Definition fdiv (x y : float) : outcome float :=
  if (y =? 0)%float then oraise ZeroDivisionError else oret (x / y)%float.

(** [np.maximum(x, y)]: a NaN operand is returned as it is. *)
Definition np_maximum (x y : float) : float :=
  if PrimFloat.is_nan x then x
  else if PrimFloat.is_nan y then y
  else if (x <? y)%float then y else x.

(** An int64 result: the integers wrap around at 64 bits. *)
Definition wrap64 (z : Z) : Z := (z + 2 ^ 63) mod 2 ^ 64 - 2 ^ 63.

(** The float64 nearest to an int64. *)
Definition float_of_int64 (z : Z) : float :=
  if z =? - 2 ^ 63 then (- 9223372036854775808)%float
  else if z <? 0 then (- PrimFloat.of_uint63 (Uint63.of_Z (- z)))%float
  else PrimFloat.of_uint63 (Uint63.of_Z z).

(** *** The PV space *)
Module PV.

(** The refs the cells below read, as functions of [t] returning Python
    floats. *)
Record references : Type := References {
  last_t : Z;
  PremIncome : Z -> float;
  BenefitTotal : Z -> float;
  ExpsTotal : Z -> float;
  DiscRate : Z -> float
}.

Section Cells.

Variable R : references.

Fixpoint PV_BenefitTotal (fuel : nat) (t : Z) : outcome float :=
  match fuel with
  | O => None
  | S n =>
      if last_t R <? t then oret 0%float
      else
        let* nxt := PV_BenefitTotal n (t + 1) in
        fdiv (- BenefitTotal R t + nxt)%float (1 + DiscRate R t)%float
  end.

Fixpoint PV_ExpsTotal (fuel : nat) (t : Z) : outcome float :=
  match fuel with
  | O => None
  | S n =>
      if last_t R <? t then oret 0%float
      else
        let* nxt := PV_ExpsTotal n (t + 1) in
        let* q := fdiv nxt (1 + DiscRate R t)%float in
        oret (- ExpsTotal R t + q)%float
  end.

Fixpoint PV_PremIncome (fuel : nat) (t : Z) : outcome float :=
  match fuel with
  | O => None
  | S n =>
      if last_t R <? t then oret 0%float
      else
        let* nxt := PV_PremIncome n (t + 1) in
        let* q := fdiv nxt (1 + DiscRate R t)%float in
        oret (PremIncome R t + q)%float
  end.

Definition PV_NetCashflow (fuel : nat) (t : Z) : outcome float :=
  match fuel with
  | O => None
  | S n =>
      let* p := PV_PremIncome n t in
      let* e := PV_ExpsTotal n t in
      let* b := PV_BenefitTotal n t in
      oret (p + e + b)%float
  end.

Definition PV_NetCashflowForCheck (fuel : nat) (t : Z) : outcome float :=
  match fuel with
  | O => None
  | S n =>
      if last_t R <? t then oret 0%float
      else
        let* b := fdiv (BenefitTotal R t) (1 + DiscRate R t)%float in
        let* nxt := PV_NetCashflow n (t + 1) in
        let* q := fdiv nxt (1 + DiscRate R t)%float in
        oret (PremIncome R t - ExpsTotal R t - b + q)%float
  end.

Definition PV_Check (fuel : nat) (t : Z) : outcome float :=
  match fuel with
  | O => None
  | S n =>
      let* a := PV_NetCashflow n t in
      let* b := PV_NetCashflowForCheck n t in
      oret (a - b)%float
  end.

End Cells.

(** The references of [Sample.pv_refs], as floats. *)
Definition sample : references :=
  References 2 (fun _ => 100%float) (fun _ => 25%float) (fun _ => 6%float)
    (fun _ => 0.01%float).

End PV.

(** *** The Projection space, from the model points to the net amount
    at risk *)
Module Projection.

(** A row of [model_point_table]: integers in the int64 columns, floats
    in the float64 ones. *)
Record model_point_row : Type := ModelPoint {
  mp_spec_id : string;
  mp_age_at_entry : Z;
  mp_policy_term : Z;
  mp_policy_count : float;
  mp_sum_assured : float;
  mp_duration_mth : Z;
  mp_accum_prem_init_pp : float;
  mp_av_pp_init : float;
  mp_premium_pp : float
}.

(** A row of [product_spec_table]. *)
Record product_spec_row : Type := ProductSpec {
  ps_premium_type : string;
  ps_has_surr_charge : bool;
  ps_surr_charge_id : string;
  ps_load_prem_rate : float;
  ps_is_wl : bool
}.

(** The References the cells below read: the model points, the product
    specifications under their index labels, and the mortality table as
    rows of an age and its rates. *)
Record references : Type := References {
  model_point_table : list model_point_row;
  product_spec_table : list (string * product_spec_row);
  mort_table : list (Z * list float)
}.

Section Cells.

Variable R : references.

(** The cells that [av_pp_at] reads after the premium is added.  They
    need [**] and [np.exp], which binary64 arithmetic alone does not
    give, and are taken as given arrays for every [t]. *)
Variables inv_income_pp maint_fee_pp coi_pp : Z -> list float.

Fixpoint loc (id : string) (tab : list (string * product_spec_row))
    : option product_spec_row :=
  match tab with
  | [] => None
  | (l, row) :: tab' => if String.eqb l id then Some row else loc id tab'
  end.

(** [model_point_table.join(product_spec_table, on='spec_id')]: each
    model point with the product specification labelled by its
    [spec_id].  [None] stands for the NaN that pandas fills every joined
    column of an unmatched model point with.  The index of
    [product_spec_table] is taken to be duplicate-free. *)
Definition model_point_table_ext
    : list (model_point_row * option product_spec_row) :=
  List.map (fun r => (r, loc (mp_spec_id r) (product_spec_table R)))
           (model_point_table R).

Definition model_point : list (model_point_row * option product_spec_row) :=
  model_point_table_ext.

Definition age_at_entry : list Z :=
  List.map (fun r => mp_age_at_entry (fst r)) model_point.

Definition av_pp_init : list float :=
  List.map (fun r => mp_av_pp_init (fst r)) model_point.

Definition sum_assured : list float :=
  List.map (fun r => mp_sum_assured (fst r)) model_point.

Definition is_wl : list (option bool) :=
  List.map (fun r => option_map ps_is_wl (snd r)) model_point.

Definition premium_type : list (option string) :=
  List.map (fun r => option_map ps_premium_type (snd r)) model_point.

Definition load_prem_rate : list float :=
  List.map (fun r => match snd r with
                     | Some s => ps_load_prem_rate s
                     | None => nan
                     end) model_point.

(** [mort_table.loc[i]] is a row when the label [i] occurs once in the
    index, and a DataFrame when it occurs more often; the truth value of
    [(mort_i == 1).all()] is then ambiguous, which raises. *)
Fixpoint last_age_loop (ages : list Z) (rows : list (Z * list float))
    (i : option Z) : result Z :=
  match rows with
  | [] =>
      match i with
      | Some a => Ok a
      | None => Err (NameError "i")
      end
  | (a, mort_i) :: rows' =>
      if (1 <? Z.of_nat (count_occ Z.eq_dec ages a))%Z
      then Err (ValueError "The truth value of a Series is ambiguous")
      else if forallb (fun x => (x =? 1)%float) mort_i then Ok a
      else last_age_loop ages rows' (Some a)
  end.

Definition mort_table_last_age : result Z :=
  last_age_loop (List.map fst (mort_table R)) (mort_table R) None.

(** An entry of a bool column in arithmetic, NaN where the join left
    the row unmatched. *)
Definition fobj (b : option bool) : float :=
  match b with
  | Some b => fbool b
  | None => nan
  end.

(** [x == False] for such an entry: NaN equals nothing. *)
Definition is_false (b : option bool) : bool :=
  match b with
  | Some b => negb b
  | None => false
  end.

(** [x == s] for an entry of a string column. *)
Definition is_string (x : option string) (s : string) : bool :=
  match x with
  | Some x => String.eqb x s
  | None => false
  end.

(** Integers enter float arithmetic as the nearest floats. *)
Definition policy_term : result (list float) :=
  rbind mort_table_last_age (fun last =>
  Ok (List.map
        (fun r =>
           (fobj (option_map ps_is_wl (snd r))
              * float_of_int64 (wrap64 (last - mp_age_at_entry (fst r)))
            + fbool (is_false (option_map ps_is_wl (snd r)))
              * float_of_int64 (mp_policy_term (fst r)))%float)
        model_point)).

Fixpoint duration_mth (fuel : nat) (t : Z) : outcome (list Z) :=
  match fuel with
  | O => None
  | S n =>
      if t =? 0 then oret (List.map (fun r => mp_duration_mth (fst r)) model_point)
      else
        let* d := duration_mth n (t - 1) in
        oret (List.map (fun x => wrap64 (x + 1)) d)
  end.

(** The premium of one model point at duration [d] with policy term
    [pt]: [sp + lp]. *)
Definition premium_of (r : model_point_row * option product_spec_row)
    (d : Z) (pt : float) : float :=
  let ty := option_map ps_premium_type (snd r) in
  (fbool (is_string ty "SINGLE" && (d =? 0)%Z) * mp_premium_pp (fst r)
   + fbool (is_string ty "LEVEL" && (float_of_int64 d <? 12 * pt))
     * mp_premium_pp (fst r))%float.

Fixpoint zip_with3 {A B C D} (f : A -> B -> C -> D)
    (la : list A) (lb : list B) (lc : list C) : list D :=
  match la, lb, lc with
  | a :: la', b :: lb', c :: lc' => f a b c :: zip_with3 f la' lb' lc'
  | _, _, _ => []
  end.

Definition premium_pp (fuel : nat) (t : Z) : outcome (list float) :=
  match fuel with
  | O => None
  | S n =>
      let* d := duration_mth n t in
      match policy_term with
      | Err e => oraise e
      | Ok pt => oret (zip_with3 premium_of model_point d pt)
      end
  end.

Definition prem_to_av_pp (fuel : nat) (t : Z) : outcome (list float) :=
  match fuel with
  | O => None
  | S n =>
      let* p := premium_pp n t in
      oret (zip_with (fun l x => ((1 - l) * x)%float) load_prem_rate p)
  end.

Fixpoint av_pp_at (fuel : nat) (t : Z) (timing : string)
    : outcome (list float) :=
  match fuel with
  | O => None
  | S n =>
      if String.eqb timing "BEF_PREM" then
        if t =? 0 then oret av_pp_init
        else
          let* a := av_pp_at n (t - 1) "BEF_INV" in
          oret (zip_with PrimFloat.add a (inv_income_pp (t - 1)))
      else if String.eqb timing "BEF_FEE" then
        let* a := av_pp_at n t "BEF_PREM" in
        let* p := prem_to_av_pp n t in
        oret (zip_with PrimFloat.add a p)
      else if String.eqb timing "BEF_INV" then
        let* a := av_pp_at n t "BEF_FEE" in
        oret (zip_with PrimFloat.sub (zip_with PrimFloat.sub a (maint_fee_pp t))
                       (coi_pp t))
      else if String.eqb timing "MID_MTH" then
        let* a := av_pp_at n t "BEF_INV" in
        oret (zip_with (fun x i => (x + 0.5 * i)%float) a (inv_income_pp t))
      else oraise (ValueError "invalid timing")
  end.

Definition net_amt_at_risk (fuel : nat) (t : Z) : outcome (list float) :=
  match fuel with
  | O => None
  | S n =>
      let* a := av_pp_at n t "BEF_FEE" in
      oret (List.map (fun x => np_maximum x 0%float)
                     (zip_with PrimFloat.sub sum_assured a))
  end.

End Cells.

(** The first model point of [Sample.model_point_table], and a second
    one whose [spec_id] has no row in the product specifications. *)
Definition sample : references :=
  References
    [ ModelPoint "A" 47 10 100%float 622000%float 1 0%float 1000%float
        500%float;
      ModelPoint "C" 29 15 50%float 752000%float (- 2) 0%float 0%float
        30%float ]
    [ ("A", ProductSpec "SINGLE" false "" 0%float false);
      ("B", ProductSpec "LEVEL" true "type_1" 0.1%float false) ]
    [ (29, [0.01; 0.02]%float); (47, [0.03; 0.04]%float);
      (48, [1; 1]%float) ].

(** No investment income, fee or cost of insurance. *)
Definition no_charge (t : Z) : list float := [0; 0]%float.

End Projection.

End Binary64.

(** * Properties *)

(** ** Registries *)

Lemma lookup_registry_of l name :
  registry_of l !! name = find_cell name l.
Proof.
  induction l as [|[[n a] f] l IH].
  - apply lookup_empty.
  - change (registry_of ((n, a, f) :: l)) with (<[n := CellDef a f]> (registry_of l)).
    simpl. destruct (String.eqb n name) eqn:E.
    + apply String.eqb_eq in E. subst. apply lookup_insert_eq.
    + apply String.eqb_neq in E. rewrite lookup_insert_ne by exact E. exact IH.
Qed.

Lemma resolve_registry_of l name :
  resolve (registry_of l) name =
  match find_cell name l with
  | Some c => Ok c
  | None => Err (UnknownCellError name)
  end.
Proof. unfold resolve. now rewrite lookup_registry_of. Qed.

(** ** Request trees *)

Lemma exec_bind {A B} ev (c : comp A) (f : A -> comp B) :
  exec ev (bind c f) =
  match exec ev c with
  | Some (Ok a) => exec ev (f a)
  | Some (Err e) => Some (Err e)
  | None => None
  end.
Proof.
  induction c as [a|e|k cont IH]; simpl; try reflexivity.
  destruct (ev k) as [[v|e]|]; auto.
Qed.

Lemma exec_lift {A} ev (r : result A) :
  exec ev (lift r) = Some r.
Proof. destruct r; reflexivity. Qed.

Lemma exec_cell ev name args :
  exec ev (cell name args) = ev (name, args).
Proof. unfold cell. simpl. destruct (ev (name, args)) as [[v|e]|]; reflexivity. Qed.

Lemma exec_mono {A} (ev ev' : key -> option (result value)) (c : comp A) r :
  (forall k x, ev k = Some x -> ev' k = Some x) ->
  exec ev c = Some r -> exec ev' c = Some r.
Proof.
  intros Hev. induction c as [a|e|k cont IH]; simpl; auto.
  destruct (ev k) as [[v|e]|] eqn:E; try discriminate.
  - rewrite (Hev _ _ E). apply IH.
  - rewrite (Hev _ _ E). auto.
Qed.

Lemma requests_bind {A B} P (c : comp A) (f : A -> comp B) :
  requests P c -> (forall a, requests P (f a)) -> requests P (bind c f).
Proof.
  intros Hc Hf. induction c as [a|e|k cont IH]; simpl in *; auto.
  destruct Hc as [Hk Hc]. split; auto.
Qed.

Lemma requests_lift {A} P (r : result A) : requests P (lift r).
Proof. destruct r; exact I. Qed.

Lemma requests_cell P name args : P (name, args) -> requests P (cell name args).
Proof. intros H. simpl. split; [exact H|]. intros v. exact I. Qed.

(** ** Plain call semantics: fuel and determinism *)

Lemma run_S reg n k : run reg n k <> None -> run reg (S n) k = run reg n k.
Proof.
  revert k. induction n as [|n IH]; intros k H; [now destruct H|].
  destruct (run reg (S n) k) as [r|] eqn:E; [|now destruct H].
  change (exec (run reg (S n)) (body reg k) = Some r).
  simpl in E. eapply exec_mono; [|exact E].
  intros k' x Hx. rewrite IH; congruence.
Qed.

Lemma run_mono reg n m k r :
  run reg n k = Some r -> (n <= m)%nat -> run reg m k = Some r.
Proof.
  intros H Hle. induction Hle as [|m Hle IH]; [exact H|].
  rewrite run_S; congruence.
Qed.

Lemma run_None_mono reg n m k :
  run reg m k = None -> (n <= m)%nat -> run reg n k = None.
Proof.
  intros H Hle. destruct (run reg n k) as [r|] eqn:E; [|reflexivity].
  rewrite (run_mono _ _ _ _ _ E Hle) in H. discriminate.
Qed.

Lemma evaluates_det reg k r1 r2 :
  evaluates reg k r1 -> evaluates reg k r2 -> r1 = r2.
Proof.
  intros [n1 H1] [n2 H2].
  pose proof (run_mono _ _ (n1 + n2) _ _ H1 ltac:(lia)) as E1.
  pose proof (run_mono _ _ (n1 + n2) _ _ H2 ltac:(lia)) as E2.
  congruence.
Qed.

Lemma exec_requests {A} ev (P : key -> Prop) (c : comp A) :
  requests P c ->
  (forall k, P k -> exists res, ev k = Some res) ->
  exists res, exec ev c = Some res.
Proof.
  intros Hc Hev. induction c as [a|e|k cont IH]; simpl; eauto.
  destruct Hc as [Hk Hc]. destruct (Hev k Hk) as [[v|e] ->]; eauto.
Qed.

(** A measure that strictly decreases along every request bounds the
    nesting depth: the call returns. *)
Lemma run_of_rank reg (rank : key -> option nat) :
  (forall k r, rank k = Some r ->
     requests (fun k' => exists r', rank k' = Some r' /\ (r' < r)%nat)
              (body reg k)) ->
  forall r k, rank k = Some r -> exists res, run reg (S r) k = Some res.
Proof.
  intros Hreq r. induction r as [r IH] using lt_wf_ind.
  intros k Hk. change (exists res, exec (run reg r) (body reg k) = Some res).
  eapply exec_requests; [exact (Hreq k r Hk)|].
  intros k' (r' & Hr' & Hlt). destruct (IH r' Hlt k' Hr') as [res Hres].
  exists res. eapply run_mono; [exact Hres|lia].
Qed.

(** ** The evaluator agrees with the plain call semantics *)

Lemma evaluates_body reg k r :
  evaluates reg k r <-> exists n, exec (run reg n) (body reg k) = Some r.
Proof.
  split.
  - intros [[|n] H]; [discriminate|]. exists n. exact H.
  - intros [n H]. exists (S n). exact H.
Qed.

Lemma body_formula reg k c :
  resolve reg (fst k) = Ok c ->
  Nat.eqb (length (snd k)) (arity c) = true ->
  body reg k = formula c (snd k).
Proof. intros H1 H2. unfold body. now rewrite H1, H2. Qed.

Lemma body_unknown reg k e :
  resolve reg (fst k) = Err e -> body reg k = Raise e.
Proof. intros H. unfold body. now rewrite H. Qed.

Lemma body_arity reg k c :
  resolve reg (fst k) = Ok c ->
  Nat.eqb (length (snd k)) (arity c) = false ->
  body reg k = Raise (ArgumentArityError (fst k)).
Proof. intros H1 H2. unfold body. now rewrite H1, H2. Qed.

Lemma coherent_store reg k v st :
  coherent reg (cache st) -> evaluates reg k (Ok v) ->
  coherent reg (cache (store k v st)).
Proof.
  intros Hc Hk k' v'. simpl. rewrite lookup_insert.
  case_decide as E; [intros [= <-]; now subst|apply Hc].
Qed.

(** Soundness over one request tree, given it for the requests. *)
Lemma interp_sound {A} reg ev (c : comp A) :
  (forall k st r st', coherent reg (cache st) -> ev k st = Some (r, st') ->
     coherent reg (cache st') /\ forall v, r = Ok v -> evaluates reg k (Ok v)) ->
  forall st r st', coherent reg (cache st) -> interp ev c st = Some (r, st') ->
    coherent reg (cache st') /\
    forall a, r = Ok a -> exists n, exec (run reg n) c = Some (Ok a).
Proof.
  intros Hev. induction c as [a|e|k cont IH]; simpl; intros st r st' Hc H.
  - injection H as <- <-. split; [exact Hc|]. intros a' [= <-]. now exists O.
  - injection H as <- <-. split; [exact Hc|]. discriminate.
  - destruct (ev k st) as [[[v|e] st1]|] eqn:E; try discriminate.
    + destruct (Hev _ _ _ _ Hc E) as [Hc1 Hv].
      destruct (IH v _ _ _ Hc1 H) as [Hc' Hr]. split; [exact Hc'|].
      intros a Ha. destruct (Hr a Ha) as [n Hn].
      destruct (Hv v eq_refl) as [m Hm]. exists (n + m)%nat.
      rewrite (run_mono _ _ (n + m) _ _ Hm) by lia.
      eapply exec_mono; [|exact Hn].
      intros k' x Hx. eapply run_mono; [exact Hx|lia].
    + injection H as <- <-. destruct (Hev _ _ _ _ Hc E) as [Hc1 _].
      split; [exact Hc1|discriminate].
Qed.

(** Every value the evaluator returns or stores is the value of the
    plain call. *)
Lemma evaluate_in_sound reg n :
  forall chain k st r st',
    coherent reg (cache st) ->
    evaluate_in reg n chain k st = Some (r, st') ->
    coherent reg (cache st') /\ forall v, r = Ok v -> evaluates reg k (Ok v).
Proof.
  induction n as [|n IH]; intros chain k st r st' Hc H; [discriminate|].
  simpl in H. destruct (cache st !! k) as [v|] eqn:Ek.
  { injection H as <- <-. split; [exact Hc|]. intros v' [= <-]. now apply Hc. }
  destruct (decide (k ∈ chain)).
  { injection H as <- <-. split; [exact Hc|discriminate]. }
  destruct (resolve reg (fst k)) as [c|e] eqn:Er.
  2:{ injection H as <- <-. split; [exact Hc|discriminate]. }
  destruct (Nat.eqb (length (snd k)) (arity c)) eqn:Ea.
  2:{ injection H as <- <-. split; [exact Hc|discriminate]. }
  destruct (interp _ _ _) as [[[v|e] st1]|] eqn:Ei; try discriminate.
  - injection H as <- <-.
    destruct (interp_sound reg _ _ (IH (k :: chain)) (log_call k st) _ _ Hc Ei)
      as [Hc1 Hr].
    assert (Hk : evaluates reg k (Ok v)).
    { apply evaluates_body. rewrite (body_formula _ _ _ Er Ea). now apply Hr. }
    split; [now apply coherent_store|]. intros v' [= <-]. exact Hk.
  - injection H as <- <-.
    destruct (interp_sound reg _ _ (IH (k :: chain)) (log_call k st) _ _ Hc Ei)
      as [Hc1 _].
    split; [exact Hc1|discriminate].
Qed.

Lemma coherent_empty reg : coherent reg (cache empty_state).
Proof. intros k v H. simpl in H. now rewrite lookup_empty in H. Qed.

Lemma reachable_coherent reg st :
  reachable reg st -> coherent reg (cache st).
Proof.
  induction 1 as [|st fuel name args r st' _ IH H].
  - apply coherent_empty.
  - unfold evaluate in H. now destruct (evaluate_in_sound _ _ _ _ _ _ _ IH H).
Qed.

Lemma interp_mono {A} (ev ev' : key -> state -> option (result value * state))
    (c : comp A) st x :
  (forall k s y, ev k s = Some y -> ev' k s = Some y) ->
  interp ev c st = Some x -> interp ev' c st = Some x.
Proof.
  intros Hev. revert st. induction c as [a|e|k cont IH]; simpl; auto.
  intros st. destruct (ev k st) as [[[v|e] st1]|] eqn:E; try discriminate.
  - rewrite (Hev _ _ _ E). apply IH.
  - rewrite (Hev _ _ _ E). auto.
Qed.

Lemma evaluate_in_S reg n :
  forall chain k st x,
    evaluate_in reg n chain k st = Some x ->
    evaluate_in reg (S n) chain k st = Some x.
Proof.
  induction n as [|n IH]; intros chain k st x H; [discriminate|].
  remember (S n) as m. simpl. subst m. simpl in H.
  destruct (cache st !! k); [exact H|].
  destruct (decide (k ∈ chain)); [exact H|].
  destruct (resolve reg (fst k)) as [c|e]; [|exact H].
  destruct (Nat.eqb (length (snd k)) (arity c)); [|exact H].
  destruct (interp (evaluate_in reg n (k :: chain)) _ _) as [y|] eqn:E;
    [|discriminate].
  erewrite (interp_mono _ (evaluate_in reg (S n) (k :: chain))); [exact H| |exact E].
  intros k' s z Hz. now apply IH.
Qed.

Lemma evaluate_in_mono reg n m chain k st x :
  evaluate_in reg n chain k st = Some x -> (n <= m)%nat ->
  evaluate_in reg m chain k st = Some x.
Proof.
  intros H Hle. induction Hle as [|m Hle IH]; [exact H|].
  now apply evaluate_in_S.
Qed.

(** Completeness over one request tree, given it for the requests. *)
Lemma interp_complete {A} reg ev m (c : comp A) :
  (forall k st r, run reg m k = Some r -> coherent reg (cache st) ->
     exists st', ev k st = Some (r, st') /\ coherent reg (cache st')) ->
  forall st r, exec (run reg m) c = Some r -> coherent reg (cache st) ->
    exists st', interp ev c st = Some (r, st') /\ coherent reg (cache st').
Proof.
  intros Hev. induction c as [a|e|k cont IH]; simpl; intros st r H Hc.
  - injection H as <-. eauto.
  - injection H as <-. eauto.
  - destruct (run reg m k) as [[v|e]|] eqn:E; try discriminate.
    + destruct (Hev _ _ _ E Hc) as (st1 & -> & Hc1). now apply IH.
    + injection H as <-. destruct (Hev _ _ _ E Hc) as (st1 & -> & Hc1). eauto.
Qed.

(** Whenever the plain call of [k] returns within [n] nested calls, so
    does the evaluator, with the same result, from any coherent cache and
    any chain of keys that do not themselves return within [n]. *)
Lemma evaluate_in_complete reg n :
  forall chain k st r,
    run reg n k = Some r ->
    (forall c, c ∈ chain -> run reg n c = None) ->
    coherent reg (cache st) ->
    exists st', evaluate_in reg n chain k st = Some (r, st') /\
                coherent reg (cache st').
Proof.
  induction n as [|n IH]; intros chain k st r Hr Hchain Hc; [discriminate|].
  destruct (run reg n k) as [r0|] eqn:E0.
  { assert (r0 = r) by (rewrite (run_mono _ _ (S n) _ _ E0) in Hr by lia; congruence).
    subst r0. destruct (IH chain k st r E0) as (st' & H & Hc'); auto.
    { intros c Hin. eapply run_None_mono; [now apply Hchain|lia]. }
    exists st'. split; [now apply evaluate_in_S|exact Hc']. }
  assert (Hk : evaluates reg k r) by now exists (S n).
  remember (S n) as m. simpl. subst m. simpl.
  destruct (cache st !! k) as [v|] eqn:Ek.
  { rewrite (evaluates_det _ _ _ _ Hk (Hc _ _ Ek)). eauto. }
  destruct (decide (k ∈ chain)) as [Hin|Hin].
  { rewrite (Hchain _ Hin) in Hr. discriminate. }
  change (exec (run reg n) (body reg k) = Some r) in Hr.
  destruct (resolve reg (fst k)) as [c|e] eqn:Er.
  2:{ rewrite (body_unknown _ _ _ Er) in Hr. injection Hr as <-. eauto. }
  destruct (Nat.eqb (length (snd k)) (arity c)) eqn:Ea.
  2:{ rewrite (body_arity _ _ _ Er Ea) in Hr. injection Hr as <-. eauto. }
  rewrite (body_formula _ _ _ Er Ea) in Hr.
  destruct (interp_complete reg (evaluate_in reg n (k :: chain)) n
              (formula c (snd k))) with (st := log_call k st) (r := r)
    as (st1 & -> & Hc1); auto.
  { intros k' s r' Hr' Hs. apply IH; auto.
    intros c' Hc'. apply elem_of_cons in Hc' as [->|Hc']; [exact E0|].
    eapply run_None_mono; [now apply Hchain|lia]. }
  destruct r as [v|e]; eauto using coherent_store.
Qed.

Lemma evaluate_complete reg n name args st r :
  run reg n (name, args) = Some r ->
  reachable reg st ->
  exists st', evaluate reg n name args st = Some (r, st').
Proof.
  intros Hr Hst. unfold evaluate.
  destruct (evaluate_in_complete reg n [] (name, args) st r Hr) as (st' & H & _).
  - intros c Hc. now apply elem_of_nil in Hc.
  - now apply reachable_coherent.
  - eauto.
Qed.

(** ** Termination *)

Ltac find_formula :=
  unfold body; rewrite resolve_registry_of;
  match goal with
  | |- context [find_cell ?n ?l] =>
      let x := eval cbv [find_cell Projection.cell_list PV.cell_list
                         String.eqb Ascii.eqb Bool.eqb andb fst snd] in
                 (find_cell n l) in
      change (find_cell n l) with x
  end;
  cbv beta iota delta [fst snd arity formula length Nat.eqb].

Ltac case_name H :=
  cbv [assoc Projection.offsets0 Projection.offsets1 Projection.offsets2
       Projection.offsets_none] in H;
  repeat match type of H with
         | context [if String.eqb ?a ?b then _ else _] =>
             destruct (String.eqb_spec a b); [subst|]; cbv beta iota in H
         end;
  try (exfalso; inversion H; fail).

Lemma rank_at_time t o n :
  0 <= t -> o = Some n ->
  Projection.at_time t o = Some (30 * Z.to_nat t + n)%nat.
Proof.
  intros Ht ->. unfold Projection.at_time.
  destruct (Z.leb_spec 0 t); [reflexivity|lia].
Qed.

Lemma at_time_inv t o r :
  Projection.at_time t o = Some r ->
  0 <= t /\ exists n, o = Some n /\ r = (30 * Z.to_nat t + n)%nat.
Proof.
  unfold Projection.at_time. destruct (Z.leb_spec 0 t) as [Ht|Ht].
  - destruct o as [n|]; intros H; inversion H. eauto.
  - intros H; inversion H.
Qed.

Lemma rank1 name t n :
  0 <= t -> assoc name Projection.offsets1 = Some n ->
  Projection.rank (name, [AInt t]) = Some (30 * Z.to_nat t + n)%nat.
Proof. intros. now apply rank_at_time. Qed.

Lemma rank2 name kind t l n :
  0 <= t -> assoc name Projection.offsets2 = Some l -> assoc kind l = Some n ->
  Projection.rank (name, [AInt t; AStr kind]) =
  Some (30 * Z.to_nat t + n)%nat.
Proof.
  intros Ht Hl Hn. unfold Projection.rank. apply rank_at_time; [exact Ht|].
  now rewrite Hl.
Qed.

Lemma arg_eqb_int_false z : arg_eqb (AInt z) (AInt 0) = false -> z <> 0.
Proof.
  unfold arg_eqb. intros H ->. now rewrite bool_decide_eq_true_2 in H.
Qed.

Ltac lower :=
  eexists; split;
  [ first [ apply rank1; [lia|reflexivity]
          | eapply rank2; [lia|reflexivity|reflexivity]
          | reflexivity ]
  | lia ].

Ltac decide_timing :=
  repeat match goal with
         | |- context [arg_eqb (AStr ?a) (AStr ?b)] =>
             let v := eval vm_compute in (arg_eqb (AStr a) (AStr b)) in
             change (arg_eqb (AStr a) (AStr b)) with v; cbv iota
         | |- context [arg_eqb ANone (AStr ?b)] =>
             change (arg_eqb ANone (AStr b)) with false; cbv iota
         | |- context [arg_eqb ANone ANone] =>
             change (arg_eqb ANone ANone) with true; cbv iota
         end.

Ltac step_requests :=
  first
    [ exact I
    | match goal with
      | |- context [bind (lift (arg_pred (AInt ?z))) ?f] =>
          change (bind (lift (arg_pred (AInt z))) f) with (f (AInt (z - 1)));
          cbv beta
      end
    | apply requests_lift
    | apply requests_cell; lower
    | apply requests_bind; [|intros ?]
    | match goal with
      | |- requests _ (if arg_eqb (AInt ?z) (AInt 0) then _ else _) =>
          let E := fresh "E" in
          destruct (arg_eqb (AInt z) (AInt 0)) eqn:E;
          [apply bool_decide_eq_true_1 in E; injection E as ->
          |apply arg_eqb_int_false in E]
      | |- requests _ (match ?v with _ => _ end) => destruct v
      end ].

Ltac unfold_formula :=
  cbv beta iota delta
    [Projection.accum_prem_init_pp Projection.accum_prem_pp Projection.age
     Projection.age_at_entry Projection.av_at Projection.av_pp_at
     Projection.av_pp_init Projection.claim_pp Projection.claims
     Projection.claims_from_av Projection.coi Projection.coi_av
     Projection.coi_pp Projection.duration Projection.duration_mth
     Projection.has_surr_charge Projection.inv_income_pp
     Projection.inv_return_mth Projection.inv_return_table Projection.is_wl
     Projection.lapse_rate Projection.load_prem_rate Projection.maint_fee_av
     Projection.maint_fee_pp Projection.model_point
     Projection.model_point_table_ext Projection.mort_rate
     Projection.mort_rate_mth Projection.mort_table_last_age
     Projection.mort_table_reindexed Projection.net_amt_at_risk
     Projection.policy_term Projection.pols_death Projection.pols_if
     Projection.pols_if_at Projection.pols_if_init Projection.pols_lapse
     Projection.pols_maturity Projection.pols_new_biz
     Projection.prem_to_av_pp Projection.premium_pp Projection.premium_type
     Projection.sum_assured Projection.surr_charge Projection.surr_charge_av
     Projection.surr_charge_id Projection.surr_charge_max_idx
     Projection.surr_charge_table_stacked].

Section Termination.
Variables (fpow : Q -> Q -> Q) (fexp : Q -> Q).
Variable R : Projection.references.

(** Every request made by a formula of the space goes to a key of
    strictly smaller measure. *)
Lemma requests_decrease k r :
  Projection.rank k = Some r ->
  requests (fun k' => exists r', Projection.rank k' = Some r' /\ (r' < r)%nat)
           (body (Projection.cells fpow fexp R) k).
Proof.
  intros H. destruct k as [name args].
  destruct args as [|[t| |] [|[|kind|] [|? ?]]];
    unfold Projection.rank in H; cbv beta iota in H;
    try (exfalso; inversion H; fail).
  - case_name H; injection H as <-; unfold Projection.cells;
      find_formula; unfold_formula; repeat step_requests.
  - apply at_time_inv in H as (Ht & n & H & ->).
    case_name H; injection H as <-; unfold Projection.cells;
      find_formula; unfold_formula; repeat step_requests.
  - apply at_time_inv in H as (Ht & n & H & ->).
    case_name H; injection H as <-; unfold Projection.cells;
      find_formula; unfold_formula; decide_timing; repeat step_requests.
  - apply at_time_inv in H as (Ht & n & H & ->).
    case_name H; injection H as <-; unfold Projection.cells;
      find_formula; unfold_formula; decide_timing; repeat step_requests.
Qed.

(** Every key with a measure returns, within as many nested calls as its
    measure (plus one). *)
Lemma ranked_key_returns k r :
  Projection.rank k = Some r ->
  exists res, run (Projection.cells fpow fexp R) (S r) k = Some res.
Proof.
  apply (run_of_rank _ Projection.rank). exact requests_decrease.
Qed.
End Termination.

(** C1.  For every [t >= 0] and every recognized timing, evaluating
    [pols_if_at(t, timing)] terminates: the plain call returns within
    [30 t + 13] nested calls, and so does the caching evaluator from any
    state of a run, with the same result.  The bound comes from the
    measure [Projection.rank], which every request strictly decreases:
    "BEF_MAT" at [t] asks for [pols_if_init()] when [t = 0] and for keys at
    [t - 1] otherwise; "BEF_NB" and "BEF_DECR" ask for "BEF_MAT" at the
    same [t]. *)
Theorem pols_if_at_terminates (fpow : Q -> Q -> Q) (fexp : Q -> Q)
    (R : Projection.references) (t : Z) (timing : string) :
  0 <= t ->
  In timing ["BEF_MAT"; "BEF_NB"; "BEF_DECR"] ->
  exists res,
    run (Projection.cells fpow fexp R) (30 * Z.to_nat t + 13)
        ("pols_if_at", [AInt t; AStr timing]) = Some res /\
    forall st, reachable (Projection.cells fpow fexp R) st ->
      exists st',
        evaluate (Projection.cells fpow fexp R) (30 * Z.to_nat t + 13)
                 "pols_if_at" [AInt t; AStr timing] st = Some (res, st').
Proof.
  intros Ht Hin.
  assert (exists n,
            Projection.rank ("pols_if_at", [AInt t; AStr timing])
            = Some (30 * Z.to_nat t + n)%nat /\ (n <= 12)%nat)
    as (n & Hn & Hle).
  { simpl in Hin. destruct Hin as [<-|[<-|[<-|[]]]]; eexists; split;
      try (eapply rank2; [exact Ht|reflexivity|reflexivity]); lia. }
  destruct (ranked_key_returns fpow fexp R _ _ Hn) as [res Hres].
  assert (Hrun : run (Projection.cells fpow fexp R) (30 * Z.to_nat t + 13)
                   ("pols_if_at", [AInt t; AStr timing]) = Some res).
  { eapply run_mono; [exact Hres|lia]. }
  exists res. split; [exact Hrun|].
  intros st Hst. now apply evaluate_complete.
Qed.

Lemma pols_if_at_terminates_witness :
  exists res,
    run Sample.cells (30 * Z.to_nat 2 + 13)
        ("pols_if_at", [AInt 2; AStr "BEF_DECR"]) = Some res /\
    forall st, reachable Sample.cells st ->
      exists st',
        evaluate Sample.cells (30 * Z.to_nat 2 + 13)
                 "pols_if_at" [AInt 2; AStr "BEF_DECR"] st = Some (res, st').
Proof.
  apply (pols_if_at_terminates Sample.pow1 Sample.exp1 Sample.refs 2 "BEF_DECR").
  - lia.
  - simpl. auto.
Defined.

(** On the sample portfolio the result is a value: the second model
    point enters at [t = 2] with its 50 policies. *)
Example pols_if_at_sample :
  exists x y,
    run Sample.cells 73 ("pols_if_at", [AInt 2; AStr "BEF_DECR"])
    = Some (Ok (VArr [x; y])) /\ (y == 50)%Q.
Proof. do 2 eexists. split; [vm_compute; reflexivity|reflexivity]. Qed.

(** ** Reasoning about what a formula returns *)

Lemma evaluates_returns reg k r :
  evaluates reg k r <-> returns reg (body reg k) r.
Proof. apply evaluates_body. Qed.

Lemma returns_ret {A} reg (a : A) : returns reg (Ret a) (Ok a).
Proof. now exists O. Qed.

Lemma returns_raise {A} reg e : returns reg (Raise e : comp A) (Err e).
Proof. now exists O. Qed.

Lemma returns_lift {A} reg (r : result A) : returns reg (lift r) r.
Proof. exists O. apply exec_lift. Qed.

Lemma returns_cell reg name args r :
  evaluates reg (name, args) r -> returns reg (cell name args) r.
Proof. intros [n H]. exists n. now rewrite exec_cell. Qed.

Lemma returns_bind {A B} reg (c : comp A) (f : A -> comp B) a r :
  returns reg c (Ok a) -> returns reg (f a) r -> returns reg (bind c f) r.
Proof.
  intros [n Hn] [m Hm]. exists (n + m)%nat. rewrite exec_bind.
  erewrite (exec_mono (run reg n)); [|intros; eapply run_mono; [eassumption|lia]|exact Hn].
  eapply exec_mono; [|exact Hm]. intros; eapply run_mono; [eassumption|lia].
Qed.

Lemma returns_bind_err {A B} reg (c : comp A) (f : A -> comp B) e :
  returns reg c (Err e) -> returns reg (bind c f) (Err e).
Proof. intros [n Hn]. exists n. rewrite exec_bind. now rewrite Hn. Qed.

Lemma returns_det {A} reg (c : comp A) r1 r2 :
  returns reg c r1 -> returns reg c r2 -> r1 = r2.
Proof.
  intros [n Hn] [m Hm].
  assert (E1 : exec (run reg (n + m)) c = Some r1).
  { eapply exec_mono; [|exact Hn]. intros; eapply run_mono; [eassumption|lia]. }
  assert (E2 : exec (run reg (n + m)) c = Some r2).
  { eapply exec_mono; [|exact Hm]. intros; eapply run_mono; [eassumption|lia]. }
  congruence.
Qed.

Lemma returns_bind_inv {A B} reg (c : comp A) (f : A -> comp B) r :
  returns reg (bind c f) r ->
  (exists a, returns reg c (Ok a) /\ returns reg (f a) r) \/
  (exists e, returns reg c (Err e) /\ r = Err e).
Proof.
  intros [n H]. rewrite exec_bind in H.
  destruct (exec (run reg n) c) as [[a|e]|] eqn:E; try discriminate.
  - left. exists a. split; now exists n.
  - right. exists e. injection H as <-. split; [now exists n|reflexivity].
Qed.

Lemma returns_bind_ok_inv {A B} reg (c : comp A) (f : A -> comp B) b :
  returns reg (bind c f) (Ok b) ->
  exists a, returns reg c (Ok a) /\ returns reg (f a) (Ok b).
Proof.
  intros H. apply returns_bind_inv in H as [H|(e & _ & H)];
    [exact H|discriminate].
Qed.

Lemma returns_cell_inv reg name args r :
  returns reg (cell name args) r -> evaluates reg (name, args) r.
Proof. intros [n H]. exists n. now rewrite exec_cell in H. Qed.

Lemma returns_lift_inv {A} reg (x r : result A) :
  returns reg (lift x) r -> r = x.
Proof. intros [n H]. rewrite exec_lift in H. congruence. Qed.

Lemma returns_ret_inv {A} reg (a : A) r :
  returns reg (Ret a) r -> r = Ok a.
Proof. intros [n H]. simpl in H. congruence. Qed.

(** A cached key of a run is never one whose plain call fails. *)
Lemma reachable_not_cached reg st k e :
  reachable reg st -> evaluates reg k (Err e) -> cache st !! k = None.
Proof.
  intros Hst Hk. destruct (cache st !! k) as [v|] eqn:E; [|reflexivity].
  apply reachable_coherent in Hst.
  discriminate (evaluates_det _ _ _ _ (Hst _ _ E) Hk).
Qed.

(** ** Rejection of unrecognized timings and kinds *)

Lemma arg_eqb_str_ne s x : s <> x -> arg_eqb (AStr s) (AStr x) = false.
Proof. intros H. apply bool_decide_eq_false_2. congruence. Qed.

Lemma arg_eqb_str_none s : arg_eqb (AStr s) ANone = false.
Proof. now apply bool_decide_eq_false_2. Qed.

Lemma evaluate_in_eq reg n chain k st :
  evaluate_in reg (S n) chain k st =
  match cache st !! k with
  | Some v => Some (Ok v, st)
  | None =>
      if decide (k ∈ chain)
      then Some (Err (CircularEvaluationError (k :: chain)), st)
      else
        match resolve reg (fst k) with
        | Err e => Some (Err e, st)
        | Ok c =>
            if Nat.eqb (length (snd k)) (arity c) then
              match interp (evaluate_in reg n (k :: chain))
                           (formula c (snd k)) (log_call k st) with
              | None => None
              | Some (Ok v, st') => Some (Ok v, store k v st')
              | Some (Err e, st') => Some (Err e, st')
              end
            else Some (Err (ArgumentArityError (fst k)), st)
        end
  end.
Proof. reflexivity. Qed.

Lemma evaluate_raise reg n name args st e c :
  reachable reg st ->
  resolve reg name = Ok c ->
  Nat.eqb (length args) (arity c) = true ->
  formula c args = Raise e ->
  evaluate reg (S n) name args st = Some (Err e, log_call (name, args) st).
Proof.
  intros Hst Hr Ha Hf.
  assert (Hk : evaluates reg (name, args) (Err e)).
  { exists 1%nat. simpl. rewrite (body_formula reg (name, args) c Hr Ha).
    simpl. now rewrite Hf. }
  unfold evaluate. rewrite evaluate_in_eq.
  rewrite (reachable_not_cached _ _ _ _ Hst Hk).
  destruct (decide ((name, args) ∈ [])) as [Hin|_];
    [now apply elem_of_nil in Hin|].
  simpl fst; simpl snd. rewrite Hr, Ha, Hf. reflexivity.
Qed.

Ltac resolve_cell :=
  unfold Projection.cells, PV.cells; rewrite resolve_registry_of;
  match goal with
  | |- context [find_cell ?n ?l] =>
      let x := eval cbv [find_cell Projection.cell_list PV.cell_list
                         String.eqb Ascii.eqb Bool.eqb andb fst snd] in
                 (find_cell n l) in
      change (find_cell n l) with x
  end;
  reflexivity.

Section Rejection.
Variables (fpow : Q -> Q -> Q) (fexp : Q -> Q).
Variable R : Projection.references.

Lemma categorical_formula name vals msg (t : arg) (s : string) :
  In (name, (vals, msg)) Projection.categorical ->
  ~ In s vals ->
  exists f,
    resolve (Projection.cells fpow fexp R) name = Ok (CellDef 2 f) /\
    f [t; AStr s] = Raise (ValueError msg).
Proof.
  intros Hin Hs. unfold Projection.categorical in Hin. simpl in Hin.
  repeat (destruct Hin as [Hin|Hin];
          [injection Hin as <- <- <-;
           eexists; split; [resolve_cell|]|]); [..|destruct Hin].
  all: simpl in Hs.
  all: cbv beta iota delta [Projection.pols_if_at Projection.av_at
         Projection.av_pp_at Projection.claim_pp Projection.claims
         Projection.claims_from_av].
  all: rewrite ?arg_eqb_str_none.
  all: repeat match goal with
       | |- context [arg_eqb (AStr ?s0) (AStr ?x)] =>
           rewrite (arg_eqb_str_ne s0 x)
             by (let H := fresh in
                 intros H; apply Hs; rewrite H;
                 repeat first [left; reflexivity | right])
       end.
  all: reflexivity.
Qed.
End Rejection.

(** C4.  For every [t] and every string outside the values a cell
    recognizes, invoking [pols_if_at], [av_at], [av_pp_at], [claim_pp],
    [claims] or [claims_from_av] fails with the cell's "invalid timing" or
    "invalid kind" [ValueError]: the formula raises at once, the plain
    call returns that error, and so does the evaluator from any state of a
    run, leaving no cache entry. *)
Theorem invalid_timing_or_kind_rejected (fpow : Q -> Q -> Q) (fexp : Q -> Q)
    (R : Projection.references) (name : string) (vals : list string)
    (msg : string) (t : arg) (s : string) :
  In (name, (vals, msg)) Projection.categorical ->
  ~ In s vals ->
  body (Projection.cells fpow fexp R) (name, [t; AStr s])
    = Raise (ValueError msg) /\
  (forall n, run (Projection.cells fpow fexp R) (S n) (name, [t; AStr s])
             = Some (Err (ValueError msg))) /\
  (forall n st, reachable (Projection.cells fpow fexp R) st ->
     exists st',
       evaluate (Projection.cells fpow fexp R) (S n) name [t; AStr s] st
         = Some (Err (ValueError msg), st') /\
       cache st' = cache st).
Proof.
  intros Hin Hs.
  destruct (categorical_formula fpow fexp R name vals msg t s Hin Hs)
    as (f & Hr & Hf).
  assert (Hb : body (Projection.cells fpow fexp R) (name, [t; AStr s])
               = Raise (ValueError msg)).
  { rewrite (body_formula _ (name, [t; AStr s]) _ Hr eq_refl). exact Hf. }
  split; [exact Hb|]. split.
  - intros n.
    change (exec (run (Projection.cells fpow fexp R) n)
                 (body (Projection.cells fpow fexp R) (name, [t; AStr s]))
            = Some (Err (ValueError msg))).
    now rewrite Hb.
  - intros n st Hst. eexists. split.
    + eapply evaluate_raise; [exact Hst|exact Hr|reflexivity|exact Hf].
    + reflexivity.
Qed.

Lemma invalid_timing_or_kind_rejected_witness :
  body Sample.cells ("av_at", [AInt 3; AStr "BEF_DECR"])
    = Raise (ValueError "invalid timing") /\
  (forall n, run Sample.cells (S n) ("av_at", [AInt 3; AStr "BEF_DECR"])
             = Some (Err (ValueError "invalid timing"))) /\
  (forall n st, reachable Sample.cells st ->
     exists st',
       evaluate Sample.cells (S n) "av_at" [AInt 3; AStr "BEF_DECR"] st
         = Some (Err (ValueError "invalid timing"), st') /\
       cache st' = cache st).
Proof.
  apply (invalid_timing_or_kind_rejected Sample.pow1 Sample.exp1 Sample.refs
           "av_at" ["BEF_MAT"; "BEF_NB"; "BEF_FEE"] "invalid timing"
           (AInt 3) "BEF_DECR").
  - right. left. reflexivity.
  - intros [H|[H|[H|[]]]]; discriminate H.
Defined.

(** ** Present values beyond the last projection step *)

Lemma evaluate_ret reg n name args st v c :
  reachable reg st ->
  resolve reg name = Ok c ->
  Nat.eqb (length args) (arity c) = true ->
  formula c args = Ret v ->
  exists st',
    evaluate reg (S n) name args st = Some (Ok v, st') /\
    (calls st' = calls st \/ calls st' = (name, args) :: calls st).
Proof.
  intros Hst Hr Ha Hf.
  assert (Hk : evaluates reg (name, args) (Ok v)).
  { exists 1%nat. simpl. rewrite (body_formula reg (name, args) c Hr Ha).
    simpl. now rewrite Hf. }
  unfold evaluate. rewrite evaluate_in_eq.
  destruct (cache st !! (name, args)) as [v'|] eqn:E.
  - apply reachable_coherent in Hst.
    assert (Ok v' = Ok v) as [= ->]
      by exact (evaluates_det _ _ _ _ (Hst _ _ E) Hk).
    exists st. split; [reflexivity|now left].
  - destruct (decide ((name, args) ∈ [])) as [Hin|_];
      [now apply elem_of_nil in Hin|].
    simpl fst; simpl snd. rewrite Hr, Ha, Hf. simpl.
    eexists. split; [reflexivity|now right].
Qed.

Lemma guarded_formula (R : PV.references) name t :
  In name PV.guarded -> PV.last_t R < t ->
  exists f,
    resolve (PV.cells R) name = Ok (CellDef 1 f) /\
    f [AInt t] = Ret (num 0).
Proof.
  intros Hin Ht. apply Z.ltb_lt in Ht. unfold PV.guarded in Hin.
  repeat (destruct Hin as [Hin|Hin];
          [subst name; eexists; split; [resolve_cell|]|]); [..|destruct Hin].
  all: cbv beta iota delta [PV.InterestNetCF PV.PV_BenefitDeath
         PV.PV_BenefitMat PV.PV_BenefitSurr PV.PV_BenefitTotal PV.PV_ExpsAcq
         PV.PV_ExpsCommTotal PV.PV_ExpsMaint PV.PV_ExpsTotal
         PV.PV_NetCashflowForCheck PV.PV_PremIncome PV.PV_SumInsurIF].
  all: now rewrite Ht.
Qed.

Lemma guarded_cell_returns_zero (R : PV.references) name t :
  In name PV.guarded -> PV.last_t R < t ->
  run (PV.cells R) 1 (name, [AInt t]) = Some (Ok (num 0)).
Proof.
  intros Hin Ht. destruct (guarded_formula R name t Hin Ht) as (f & Hr & Hf).
  change (exec (run (PV.cells R) 0) (body (PV.cells R) (name, [AInt t]))
          = Some (Ok (num 0))).
  rewrite (body_formula _ (name, [AInt t]) _ Hr eq_refl). simpl formula.
  simpl snd. rewrite Hf. reflexivity.
Qed.

(** C6.  The evaluator imposes no bound on [t]; past the end of the
    projection each present-value cell answers from its own guard: for
    every [t > last_t()], the formula of every guarded PV cell is the
    bare return of 0.  It requests no key, whatever answers it would get;
    the plain call returns 0 without any nested call; and the evaluator
    returns 0 from any state of a run, invoking at most this one cell
    function. *)
Theorem PV_zero_beyond_last_t (R : PV.references) (name : string) (t : Z) :
  In name PV.guarded ->
  PV.last_t R < t ->
  body (PV.cells R) (name, [AInt t]) = Ret (num 0) /\
  (forall oracle, trace oracle (body (PV.cells R) (name, [AInt t])) = []) /\
  run (PV.cells R) 1 (name, [AInt t]) = Some (Ok (num 0)) /\
  (forall n st, reachable (PV.cells R) st ->
     exists st',
       evaluate (PV.cells R) (S n) name [AInt t] st = Some (Ok (num 0), st') /\
       (calls st' = calls st \/ calls st' = (name, [AInt t]) :: calls st)).
Proof.
  intros Hin Ht. destruct (guarded_formula R name t Hin Ht) as (f & Hr & Hf).
  assert (Hb : body (PV.cells R) (name, [AInt t]) = Ret (num 0)).
  { rewrite (body_formula _ (name, [AInt t]) _ Hr eq_refl). exact Hf. }
  split; [exact Hb|]. split; [|split].
  - intros oracle. now rewrite Hb.
  - change (exec (run (PV.cells R) 0) (body (PV.cells R) (name, [AInt t]))
            = Some (Ok (num 0))).
    now rewrite Hb.
  - intros n st Hst. eapply evaluate_ret; [exact Hst|exact Hr|reflexivity|exact Hf].
Qed.

Lemma PV_zero_beyond_last_t_witness :
  body Sample.pv_cells ("PV_PremIncome", [AInt 3]) = Ret (num 0) /\
  (forall oracle,
     trace oracle (body Sample.pv_cells ("PV_PremIncome", [AInt 3])) = []) /\
  run Sample.pv_cells 1 ("PV_PremIncome", [AInt 3]) = Some (Ok (num 0)) /\
  (forall n st, reachable Sample.pv_cells st ->
     exists st',
       evaluate Sample.pv_cells (S n) "PV_PremIncome" [AInt 3] st
         = Some (Ok (num 0), st') /\
       (calls st' = calls st \/
        calls st' = ("PV_PremIncome", [AInt 3]) :: calls st)).
Proof.
  apply (PV_zero_beyond_last_t Sample.pv_refs "PV_PremIncome" 3).
  - unfold PV.guarded. do 10 right. left. reflexivity.
  - reflexivity.
Defined.

(** ** Cycle detection *)

Lemma resolve_counting :
  resolve Scenario.counting "count_if" = Ok (CellDef 2 Scenario.count_if).
Proof. unfold Scenario.counting. rewrite resolve_registry_of. reflexivity. Qed.

Lemma resolve_cyclic :
  resolve Scenario.cyclic "f" = Ok (CellDef 1 Scenario.self_ref).
Proof. unfold Scenario.cyclic. rewrite resolve_registry_of. reflexivity. Qed.

Lemma count_position_inv k m :
  count_position k = Some m ->
  exists t, (k = ("count_if", [AInt t; AStr "A"]) /\ m = 2 * t) \/
            (k = ("count_if", [AInt t; AStr "B"]) /\ m = 2 * t + 1).
Proof.
  destruct k as [name [|[t| |] [|[|kind|] [|? ?]]]]; simpl;
    try (intros H; inversion H; fail).
  destruct (String.eqb_spec name "count_if"); [subst|intros H; inversion H].
  destruct (String.eqb_spec kind "A"); [subst|].
  - intros [= <-]. exists t. now left.
  - destruct (String.eqb_spec kind "B"); [subst|intros H; inversion H].
    intros [= <-]. exists t. now right.
Qed.

(** The regress of [count_if]: every request goes to a key one position
    further down, so no key on the chain is ever met again and the
    evaluation never resolves. *)
Lemma count_if_regress n :
  forall k m chain st,
    count_position k = Some m ->
    cache st = ∅ ->
    (forall c, c ∈ chain -> exists m', count_position c = Some m' /\ m < m') ->
    evaluate_in Scenario.counting n chain k st = None.
Proof.
  induction n as [|n IH]; intros k m chain st Hk Hst Hchain; [reflexivity|].
  rewrite evaluate_in_eq, Hst, lookup_empty.
  destruct (decide (k ∈ chain)) as [Hin|_].
  { destruct (Hchain _ Hin) as (m' & Hm' & Hlt). rewrite Hk in Hm'.
    injection Hm' as <-. lia. }
  assert (Hnext : forall k' m', count_position k' = Some m' -> m' < m ->
            evaluate_in Scenario.counting n (k :: chain) k' (log_call k st)
            = None).
  { intros k' m' Hk' Hlt. apply (IH k' m'); [exact Hk'|exact Hst|].
    intros c Hc. apply elem_of_cons in Hc as [->|Hc].
    - exists m. split; [exact Hk|exact Hlt].
    - destruct (Hchain _ Hc) as (mc & Hmc & Hlt'). exists mc.
      split; [exact Hmc|lia]. }
  destruct (count_position_inv _ _ Hk) as [t [[-> ->]|[-> ->]]];
    simpl fst; simpl snd; rewrite resolve_counting; simpl.
  - unfold cell. simpl.
    rewrite (Hnext ("count_if", [AInt (t - 1); AStr "B"]) (2 * (t - 1) + 1));
      [reflexivity|reflexivity|lia].
  - unfold cell. simpl.
    rewrite (Hnext ("count_if", [AInt t; AStr "A"]) (2 * t));
      [reflexivity|reflexivity|lia].
Qed.

Lemma count_if_never_resolves n t :
  evaluate Scenario.counting n "count_if" [AInt t; AStr "A"] empty_state = None.
Proof.
  apply (count_if_regress n _ (2 * t)); [reflexivity|reflexivity|].
  intros c Hc. now apply elem_of_nil in Hc.
Qed.

(** Evaluating [count_if(0, "A")] never raises
    [CircularEvaluationError], with any amount of fuel. *)
Lemma count_if_no_circular_error :
  ~ exists n chain st,
      evaluate Scenario.counting n "count_if" [AInt 0; AStr "A"] empty_state
      = Some (Err (CircularEvaluationError chain), st).
Proof.
  intros (n & chain & st & H). rewrite count_if_never_resolves in H.
  discriminate H.
Qed.

Lemma self_ref_circular n t :
  evaluate Scenario.cyclic (S (S n)) "f" [AInt t] empty_state =
  Some (Err (CircularEvaluationError [("f", [AInt t]); ("f", [AInt t])]),
        log_call ("f", [AInt t]) empty_state).
Proof.
  unfold evaluate. rewrite evaluate_in_eq. simpl cache. rewrite lookup_empty.
  destruct (decide (("f", [AInt t]) ∈ [])) as [Hin|_];
    [now apply elem_of_nil in Hin|].
  simpl fst; simpl snd. rewrite resolve_cyclic. simpl arity. simpl formula.
  change (Nat.eqb (length [AInt t]) 1) with true. cbv iota.
  unfold Scenario.self_ref, cell. cbn [bind interp].
  rewrite evaluate_in_eq. simpl cache. rewrite lookup_empty.
  destruct (decide (("f", [AInt t]) ∈ [("f", [AInt t])])) as [_|Hout];
    [reflexivity|].
  exfalso. apply Hout. apply elem_of_cons. now left.
Qed.

Lemma evaluate_after reg n name args st r :
  option_map fst (evaluate reg n name args st) = Some r ->
  evaluate reg n name args st = Some (r, after reg n name args st).
Proof.
  unfold after. destruct (evaluate reg n name args st) as [[r' st']|];
    simpl; [|discriminate]. now intros [= ->].
Qed.

Lemma balance_3_is_130 :
  exists st,
    evaluate Scenario.savings 5 "balance" [AInt 3] empty_state
    = Some (Ok (num 130), st).
Proof. eexists. apply evaluate_after. vm_compute. reflexivity. Qed.

(** C2 (amended).  A key that is requested while it is in progress on the
    active chain, and not yet cached, fails with
    [CircularEvaluationError] naming the chain; a key that is not on the
    chain is not rejected but computed, also when the chain holds the same
    cell at another argument tuple.  So the self-referential [f(t) = f(t)
    + 1] raises [CircularEvaluationError], and [balance(3)], which calls
    [balance(2)], returns 130.  The two mutually recursive [count_if]
    cells, however, never request a key twice: from [count_if(t, "A")] the
    chain runs through [(t-1, "B")], [(t-1, "A")], [(t-2, "B")], ..., all
    different keys, so no error is raised and the evaluation never
    resolves, whatever the fuel. *)
Theorem cycle_detection (reg : registry) (n : nat) (chain : list key)
    (k : key) (st : state) :
  cache st !! k = None ->
  (k ∈ chain ->
     evaluate_in reg (S n) chain k st
     = Some (Err (CircularEvaluationError (k :: chain)), st)) /\
  (k ∉ chain ->
     evaluate_in reg (S n) chain k st
     = match resolve reg (fst k) with
       | Err e => Some (Err e, st)
       | Ok c =>
           if Nat.eqb (length (snd k)) (arity c) then
             match interp (evaluate_in reg n (k :: chain))
                          (formula c (snd k)) (log_call k st) with
             | None => None
             | Some (Ok v, st') => Some (Ok v, store k v st')
             | Some (Err e, st') => Some (Err e, st')
             end
           else Some (Err (ArgumentArityError (fst k)), st)
       end) /\
  (forall m t,
     evaluate Scenario.cyclic (S (S m)) "f" [AInt t] empty_state
     = Some (Err (CircularEvaluationError [("f", [AInt t]); ("f", [AInt t])]),
             log_call ("f", [AInt t]) empty_state)) /\
  (exists st',
     evaluate Scenario.savings 5 "balance" [AInt 3] empty_state
     = Some (Ok (num 130), st')) /\
  (forall m t,
     evaluate Scenario.counting m "count_if" [AInt t; AStr "A"] empty_state
     = None).
Proof.
  intros Hk. split; [|split; [|split; [|split]]].
  - intros Hin. rewrite evaluate_in_eq, Hk.
    destruct (decide (k ∈ chain)); [reflexivity|contradiction].
  - intros Hout. rewrite evaluate_in_eq, Hk.
    destruct (decide (k ∈ chain)); [contradiction|reflexivity].
  - exact self_ref_circular.
  - exact balance_3_is_130.
  - exact count_if_never_resolves.
Qed.

Lemma cycle_detection_witness :
  (("f", [AInt 0]) ∈ [("f", [AInt 0])] ->
     evaluate_in Scenario.cyclic 1 [("f", [AInt 0])] ("f", [AInt 0])
                 empty_state
     = Some (Err (CircularEvaluationError
                    [("f", [AInt 0]); ("f", [AInt 0])]), empty_state)) /\
  (("f", [AInt 0]) ∉ [("f", [AInt 0])] ->
     evaluate_in Scenario.cyclic 1 [("f", [AInt 0])] ("f", [AInt 0])
                 empty_state
     = match resolve Scenario.cyclic "f" with
       | Err e => Some (Err e, empty_state)
       | Ok c =>
           if Nat.eqb 1 (arity c) then
             match interp (evaluate_in Scenario.cyclic 0
                             [("f", [AInt 0]); ("f", [AInt 0])])
                          (formula c [AInt 0])
                          (log_call ("f", [AInt 0]) empty_state) with
             | None => None
             | Some (Ok v, st') => Some (Ok v, store ("f", [AInt 0]) v st')
             | Some (Err e, st') => Some (Err e, st')
             end
           else Some (Err (ArgumentArityError "f"), empty_state)
       end) /\
  (forall m t,
     evaluate Scenario.cyclic (S (S m)) "f" [AInt t] empty_state
     = Some (Err (CircularEvaluationError [("f", [AInt t]); ("f", [AInt t])]),
             log_call ("f", [AInt t]) empty_state)) /\
  (exists st',
     evaluate Scenario.savings 5 "balance" [AInt 3] empty_state
     = Some (Ok (num 130), st')) /\
  (forall m t,
     evaluate Scenario.counting m "count_if" [AInt t; AStr "A"] empty_state
     = None).
Proof.
  apply (cycle_detection Scenario.cyclic 0 [("f", [AInt 0])] ("f", [AInt 0])
           empty_state).
  apply lookup_empty.
Defined.

(** ** Memoization *)

Lemma evaluate_in_cached reg n chain k st v st' :
  evaluate_in reg n chain k st = Some (Ok v, st') -> cache st' !! k = Some v.
Proof.
  destruct n as [|n]; [discriminate|]. rewrite evaluate_in_eq.
  destruct (cache st !! k) as [v0|] eqn:Ek.
  { intros [= <- <-]. exact Ek. }
  destruct (decide (k ∈ chain)); [discriminate|].
  destruct (resolve reg (fst k)) as [c|e]; [|discriminate].
  destruct (Nat.eqb (length (snd k)) (arity c)); [|discriminate].
  destruct (interp _ _ _) as [[[v1|e] st1]|]; try discriminate.
  intros [= <- <-]. simpl. apply lookup_insert_eq.
Qed.

Lemma call_count_absent k l :
  k ∉ l -> length (filter (fun k' : key => k' = k) l) = 0%nat.
Proof.
  induction l as [|x l IH]; intros Hk; [reflexivity|].
  rewrite filter_cons. apply not_elem_of_cons in Hk as [Hne Hk].
  destruct (decide (x = k)); [congruence|now apply IH].
Qed.

(** At most one invocation per key does not hold for a key whose
    evaluation fails: the failure leaves no cache entry, so asking again
    invokes the cell function again.  Here [av_at(0, "BEF_DECR")], which
    raises "invalid timing", is invoked twice by two requests. *)
Lemma memoization_fails_on_failed_key :
  exists st1 st2,
    evaluate Sample.cells 1 "av_at" [AInt 0; AStr "BEF_DECR"] empty_state
      = Some (Err (ValueError "invalid timing"), st1) /\
    evaluate Sample.cells 1 "av_at" [AInt 0; AStr "BEF_DECR"] st1
      = Some (Err (ValueError "invalid timing"), st2) /\
    call_count ("av_at", [AInt 0; AStr "BEF_DECR"]) st2 = 2%nat.
Proof.
  do 2 eexists. split; [|split].
  - vm_compute. reflexivity.
  - vm_compute. reflexivity.
  - vm_compute. reflexivity.
Qed.

Lemma balance_scenario :
  exists st,
    evaluate Scenario.savings 5 "balance" [AInt 3] empty_state
      = Some (Ok (num 130), st) /\
    call_count ("initial", []) st = 1%nat /\
    evaluate Scenario.savings 5 "balance" [AInt 0] st
      = Some (Ok (num 100), st).
Proof.
  exists (after Scenario.savings 5 "balance" [AInt 3] empty_state).
  split; [|split].
  - apply evaluate_after. vm_compute. reflexivity.
  - vm_compute. reflexivity.
  - unfold evaluate. rewrite evaluate_in_eq.
    assert (cache (after Scenario.savings 5 "balance" [AInt 3] empty_state)
              !! ("balance", [AInt 0]) = Some (num 100)) as ->
      by (vm_compute; reflexivity).
    reflexivity.
Qed.

Lemma logged_since_refl chain st : logged_since st chain st.
Proof.
  split; [reflexivity|]. exists []. split; [reflexivity|].
  split; [apply NoDup_nil_2|]. intros k Hk. now apply elem_of_nil in Hk.
Qed.

Lemma logged_since_store st0 chain k v st :
  cache st0 !! k = None ->
  logged_since st0 (k :: chain) st -> logged_since st0 chain (store k v st).
Proof.
  intros Hk [Hsub (new & Hc & Hnd & Hnew)]. split.
  - simpl. now apply insert_subseteq_r.
  - exists new. split; [exact Hc|]. split; [exact Hnd|].
    intros k' Hk'. destruct (Hnew k' Hk') as [H0 H1]. split; [exact H0|].
    simpl. destruct (decide (k = k')) as [<-|Hne].
    + left. rewrite lookup_insert_eq. eauto.
    + rewrite lookup_insert_ne by exact Hne.
      destruct H1 as [Hcached|Hin]; [now left|].
      apply elem_of_cons in Hin as [->|Hin]; [contradiction|now right].
Qed.

Lemma logged_since_log st0 chain k st :
  logged_since st0 chain st -> cache st !! k = None -> k ∉ chain ->
  logged_since st0 (k :: chain) (log_call k st).
Proof.
  intros [Hsub (new & Hc & Hnd & Hnew)] Hk Hout. split; [exact Hsub|].
  exists (k :: new). split; [simpl; now rewrite Hc|]. split.
  - apply NoDup_cons. split; [|exact Hnd].
    intros Hin. destruct (Hnew k Hin) as [_ [[v Hv]|Hin']];
      [simpl in Hv; congruence|contradiction].
  - intros k' Hk'. apply elem_of_cons in Hk' as [->|Hk'].
    + split; [exact (lookup_weaken_None _ _ _ Hk Hsub)|].
      right. apply elem_of_cons. now left.
    + destruct (Hnew k' Hk') as [H0 H1]. split; [exact H0|].
      destruct H1 as [Hcached|Hin]; [now left|].
      right. apply elem_of_cons. now right.
Qed.

Lemma interp_logged_since {A} ev st0 chain (c : comp A) :
  (forall k st v st', logged_since st0 chain st ->
     ev k st = Some (Ok v, st') -> logged_since st0 chain st') ->
  forall st a st', logged_since st0 chain st ->
    interp ev c st = Some (Ok a, st') -> logged_since st0 chain st'.
Proof.
  intros Hev. induction c as [a|e|k cont IH]; simpl; intros st a' st' Hst H.
  - now injection H as <- <-.
  - discriminate H.
  - destruct (ev k st) as [[[v|e] st1]|] eqn:E; try discriminate H.
    eapply IH; [|exact H]. eapply Hev; [exact Hst|exact E].
Qed.

(** From any state, a successful evaluation invokes pairwise different
    cell functions, none of them cached before, and leaves them cached. *)
Lemma evaluate_in_logged_since reg st0 n :
  forall chain k st v st',
    logged_since st0 chain st ->
    evaluate_in reg n chain k st = Some (Ok v, st') ->
    logged_since st0 chain st'.
Proof.
  induction n as [|n IH]; intros chain k st v st' Hst H; [discriminate H|].
  rewrite evaluate_in_eq in H.
  destruct (cache st !! k) as [v0|] eqn:Ek; [now injection H as <- <-|].
  destruct (decide (k ∈ chain)) as [Hin|Hout]; [discriminate H|].
  destruct (resolve reg (fst k)) as [c|e]; [|discriminate H].
  destruct (Nat.eqb (length (snd k)) (arity c)); [|discriminate H].
  destruct (interp _ _ _) as [[[v1|e] st1]|] eqn:Ei; try discriminate H.
  injection H as <- <-. apply logged_since_store.
  { exact (lookup_weaken_None _ _ _ Ek (proj1 Hst)). }
  refine (interp_logged_since _ st0 (k :: chain) _ _ (log_call k st) _ _ _ Ei).
  - intros k' s v' s' Hs E. eapply IH; [exact Hs|exact E].
  - apply logged_since_log; assumption.
Qed.

Lemma count_NoDup (k : key) (l : list key) :
  NoDup l -> (length (filter (fun k' : key => k' = k) l) <= 1)%nat.
Proof.
  induction 1 as [|x l Hx Hnd IH]; [simpl; lia|].
  rewrite filter_cons. destruct (decide (x = k)) as [->|Hne]; [|exact IH].
  simpl. rewrite (call_count_absent k l Hx). lia.
Qed.

Lemma exec_call_ok {A} reg m k (cont : value -> comp A) a :
  exec (run reg m) (Call k cont) = Some (Ok a) ->
  exists v, run reg m k = Some (Ok v) /\ exec (run reg m) (cont v) = Some (Ok a).
Proof.
  simpl. destruct (run reg m k) as [[v|e]|]; try discriminate.
  intros H. now exists v.
Qed.

Lemma awaited_request {A} reg chain k (cont : value -> comp A) :
  awaited reg chain (Call k cont) -> awaited reg chain (Call k Ret).
Proof.
  intros Hw c0 Hc0 m v Hm.
  destruct (Hw c0 Hc0 m v Hm) as (m' & a & Hlt & Ha).
  apply exec_call_ok in Ha as (v' & Hv' & _).
  exists m', v'. split; [exact Hlt|]. simpl. now rewrite Hv'.
Qed.

Lemma awaited_answer {A} reg chain k (cont : value -> comp A) v :
  awaited reg chain (Call k cont) -> evaluates reg k (Ok v) ->
  awaited reg chain (cont v).
Proof.
  intros Hw Hv c0 Hc0 m w Hm.
  destruct (Hw c0 Hc0 m w Hm) as (m' & a & Hlt & Ha).
  apply exec_call_ok in Ha as (v' & Hv' & Ha).
  assert (Ok v' = Ok v) as [= ->]
    by exact (evaluates_det _ _ _ _ (ex_intro _ m' Hv') Hv).
  now exists m', a.
Qed.

(** A key that waits for itself never returns a value. *)
Lemma awaited_self reg chain k :
  awaited reg chain (Call k Ret) -> k ∈ chain -> ~ succeeds reg k.
Proof.
  intros Hw Hin [v [m Hm]]. revert v Hm.
  induction m as [m IH] using lt_wf_ind. intros v Hm.
  destruct (Hw k Hin m v Hm) as (m' & a & Hlt & Ha).
  apply exec_call_ok in Ha as (v' & Hv' & _).
  exact (IH m' Hlt v' Hv').
Qed.

Lemma awaited_formula reg chain k c :
  resolve reg (fst k) = Ok c ->
  Nat.eqb (length (snd k)) (arity c) = true ->
  awaited reg chain (Call k Ret) ->
  awaited reg (k :: chain) (formula c (snd k)).
Proof.
  intros Er Ea Hw c0 Hc0 m v Hm.
  assert (Hk : forall m1 a, run reg m1 k = Some (Ok a) ->
            exists m0, (m0 < m1)%nat /\
                       exec (run reg m0) (formula c (snd k)) = Some (Ok a)).
  { intros [|m0] a H; [discriminate|]. exists m0. split; [lia|].
    change (exec (run reg m0) (body reg k) = Some (Ok a)) in H.
    now rewrite (body_formula _ _ _ Er Ea) in H. }
  apply elem_of_cons in Hc0 as [->|Hc0].
  - destruct (Hk m v Hm) as (m0 & Hlt & H0). now exists m0, v.
  - destruct (Hw c0 Hc0 m v Hm) as (m1 & a & Hlt & Ha).
    apply exec_call_ok in Ha as (v' & Hv' & _).
    destruct (Hk m1 v' Hv') as (m0 & Hlt0 & H0).
    exists m0, v'. split; [lia|exact H0].
Qed.

Lemma call_count_log k k0 st :
  call_count k0 (log_call k st)
  = ((if decide (k = k0) then 1 else 0) + call_count k0 st)%nat.
Proof.
  unfold call_count, log_call. simpl. rewrite filter_cons.
  now destruct (decide (k = k0)).
Qed.

Lemma invoked_once_log reg chain k st :
  invoked_once reg chain st -> cache st !! k = None -> k ∉ chain ->
  invoked_once reg (k :: chain) (log_call k st).
Proof.
  intros Hst Hk Hout k0 Hs. destruct (Hst k0 Hs) as [Hcount Hlog].
  rewrite call_count_log. split.
  - destruct (decide (k = k0)) as [<-|Hne]; [|exact Hcount].
    assert (Habs : k ∉ calls st).
    { intros Hin. destruct (Hlog Hin) as [[v Hv]|Hc]; [congruence|contradiction]. }
    unfold call_count. rewrite (call_count_absent k _ Habs). lia.
  - intros Hin. simpl in Hin. apply elem_of_cons in Hin as [->|Hin].
    + right. apply elem_of_cons. now left.
    + destruct (Hlog Hin) as [Hc|Hc]; [now left|].
      right. apply elem_of_cons. now right.
Qed.

Lemma invoked_once_store reg chain k v st :
  invoked_once reg (k :: chain) st -> invoked_once reg chain (store k v st).
Proof.
  intros Hst k0 Hs. destruct (Hst k0 Hs) as [Hcount Hlog].
  split; [exact Hcount|]. intros Hin. simpl.
  destruct (decide (k = k0)) as [<-|Hne].
  - left. rewrite lookup_insert_eq. eauto.
  - rewrite lookup_insert_ne by exact Hne.
    destruct (Hlog Hin) as [Hc|Hc]; [now left|].
    apply elem_of_cons in Hc as [->|Hc]; [contradiction|now right].
Qed.

Lemma invoked_once_failed reg chain k st :
  invoked_once reg (k :: chain) st -> ~ succeeds reg k ->
  invoked_once reg chain st.
Proof.
  intros Hst Hk k0 Hs. destruct (Hst k0 Hs) as [Hcount Hlog].
  split; [exact Hcount|]. intros Hin.
  destruct (Hlog Hin) as [Hc|Hc]; [now left|].
  apply elem_of_cons in Hc as [->|Hc]; [contradiction|now right].
Qed.

(** Over one request tree, given it for the requests: the invariant is
    kept whatever the result, and a failure means that the tree returns
    no value under the plain calls either. *)
Lemma interp_once {A} reg ev chain (c : comp A) :
  (forall k st r st',
     coherent reg (cache st) -> awaited reg chain (Call k Ret) ->
     invoked_once reg chain st -> ev k st = Some (r, st') ->
     coherent reg (cache st') /\ invoked_once reg chain st' /\
     (forall v, r = Ok v -> evaluates reg k (Ok v)) /\
     (forall e, r = Err e -> ~ succeeds reg k)) ->
  forall st r st',
    coherent reg (cache st) -> awaited reg chain c ->
    invoked_once reg chain st -> interp ev c st = Some (r, st') ->
    coherent reg (cache st') /\ invoked_once reg chain st' /\
    (forall e, r = Err e -> forall m a, exec (run reg m) c <> Some (Ok a)).
Proof.
  intros Hev. induction c as [a|e|k cont IH]; simpl; intros st r st' Hc Hw Hst H.
  - injection H as <- <-. split; [exact Hc|]. split; [exact Hst|]. discriminate.
  - injection H as <- <-. split; [exact Hc|]. split; [exact Hst|].
    intros e' _ m a. discriminate.
  - destruct (ev k st) as [[[v|e] st1]|] eqn:E; try discriminate.
    + destruct (Hev _ _ _ _ Hc (awaited_request _ _ _ _ Hw) Hst E)
        as (Hc1 & Hst1 & Hv & _).
      specialize (Hv v eq_refl).
      destruct (IH v _ _ _ Hc1 (awaited_answer _ _ _ _ _ Hw Hv) Hst1 H)
        as (Hc' & Hst' & Herr).
      split; [exact Hc'|]. split; [exact Hst'|].
      intros e He m a Ha.
      destruct (run reg m k) as [[v'|e']|] eqn:Ek; try discriminate.
      assert (Ok v' = Ok v) as [= ->]
        by exact (evaluates_det _ _ _ _ (ex_intro _ m Ek) Hv).
      exact (Herr e He m a Ha).
    + injection H as <- <-.
      destruct (Hev _ _ _ _ Hc (awaited_request _ _ _ _ Hw) Hst E)
        as (Hc1 & Hst1 & _ & Hf).
      split; [exact Hc1|]. split; [exact Hst1|].
      intros e' _ m a Ha.
      destruct (run reg m k) as [[v'|e'']|] eqn:Ek; try discriminate.
      apply (Hf e eq_refl). exists v'. now exists m.
Qed.

(** A request, successful or not, invokes no succeeding key a second
    time; and a request fails only for a key that does not succeed. *)
Lemma evaluate_in_once reg n :
  forall chain k st r st',
    coherent reg (cache st) -> awaited reg chain (Call k Ret) ->
    invoked_once reg chain st ->
    evaluate_in reg n chain k st = Some (r, st') ->
    coherent reg (cache st') /\ invoked_once reg chain st' /\
    (forall v, r = Ok v -> evaluates reg k (Ok v)) /\
    (forall e, r = Err e -> ~ succeeds reg k).
Proof.
  induction n as [|n IH]; intros chain k st r st' Hc Hw Hst H; [discriminate|].
  destruct (evaluate_in_sound _ _ _ _ _ _ _ Hc H) as [Hc' Hv].
  split; [exact Hc'|]. cut (invoked_once reg chain st' /\
                            forall e, r = Err e -> ~ succeeds reg k).
  { intros [H1 H2]. split; [exact H1|]. split; [exact Hv|exact H2]. }
  clear Hc' Hv. rewrite evaluate_in_eq in H.
  destruct (cache st !! k) as [v0|] eqn:Ek.
  { injection H as <- <-. split; [exact Hst|discriminate]. }
  destruct (decide (k ∈ chain)) as [Hin|Hout].
  { injection H as <- <-. split; [exact Hst|]. intros e _.
    exact (awaited_self _ _ _ Hw Hin). }
  destruct (resolve reg (fst k)) as [c|e0] eqn:Er.
  2:{ injection H as <- <-. split; [exact Hst|]. intros e _ [v Hk].
      apply evaluates_body in Hk as [m Hm].
      rewrite (body_unknown _ _ _ Er) in Hm. discriminate Hm. }
  destruct (Nat.eqb (length (snd k)) (arity c)) eqn:Ea.
  2:{ injection H as <- <-. split; [exact Hst|]. intros e _ [v Hk].
      apply evaluates_body in Hk as [m Hm].
      rewrite (body_arity _ _ _ Er Ea) in Hm. discriminate Hm. }
  destruct (interp _ _ _) as [[r1 st1]|] eqn:Ei; [|discriminate H].
  destruct (interp_once reg (evaluate_in reg n (k :: chain)) (k :: chain)
              (formula c (snd k)) (IH (k :: chain)) (log_call k st) r1 st1)
    as (_ & Hst1 & Herr).
  { exact Hc. }
  { now apply awaited_formula. }
  { now apply invoked_once_log. }
  { exact Ei. }
  destruct r1 as [v|e].
  - injection H as <- <-. split; [now apply invoked_once_store|discriminate].
  - injection H as <- <-.
    assert (Hf : ~ succeeds reg k).
    { intros [v Hk]. apply evaluates_body in Hk as [m Hm].
      rewrite (body_formula _ _ _ Er Ea) in Hm.
      exact (Herr e eq_refl m v Hm). }
    split; [|intros e' _; exact Hf].
    now apply (invoked_once_failed reg chain k).
Qed.

Lemma awaited_nil {A} reg (c : comp A) : awaited reg [] c.
Proof. intros c0 Hc0. now apply elem_of_nil in Hc0. Qed.

(** In every run, whatever requests failed, a key that succeeds was
    invoked at most once. *)
Lemma reachable_invoked_once reg st :
  reachable reg st -> invoked_once reg [] st.
Proof.
  induction 1 as [|st fuel name args r st' Hst IH H].
  - intros k _. split; [unfold call_count; simpl; lia|].
    intros Hk. now apply elem_of_nil in Hk.
  - unfold evaluate in H.
    destruct (evaluate_in_once reg fuel [] (name, args) st r st'
                (reachable_coherent _ _ Hst) (awaited_nil _ _) IH H)
      as (_ & Hst' & _). exact Hst'.
Qed.

Lemma reachable_after reg fuel name args st :
  reachable reg st -> reachable reg (after reg fuel name args st).
Proof.
  intros Hst. unfold after.
  destruct (evaluate reg fuel name args st) as [[r st']|] eqn:E; [|exact Hst].
  eapply reach_step; [exact Hst|exact E].
Qed.

(** C3 (amended).  With [balance(t) = balance(t-1) + deposit(t)],
    [balance(0) = initial()], [deposit(t) = 10] and [initial() = 100],
    [evaluate("balance", 3)] returns 130, and [evaluate("balance", 0)]
    afterwards returns the cached 100 and leaves the state, hence the call
    count 1 of [initial()], as it was.  More generally, for any cell and
    argument tuple whose evaluation succeeds, calling [evaluate] twice
    invokes each cell function at most once per key, from any state,
    whatever requests came before and whether they failed or not: the
    first call invokes pairwise different keys, none of them cached
    before and all of them cached afterwards, so that no call count
    grows by more than one, and the second call returns the same value
    from the cache and invokes nothing.  Over a whole run, failed
    requests included, the cell function of a key whose evaluation
    succeeds is invoked at most once. *)
Theorem memoization_on_success (reg : registry) (st : state) (n : nat)
    (name : string) (args : list arg) (v : value) (st1 : state) :
  evaluate reg n name args st = Some (Ok v, st1) ->
  (exists new,
     calls st1 = new ++ calls st /\ NoDup new /\
     forall k, k ∈ new -> cache st !! k = None /\ is_Some (cache st1 !! k)) /\
  (forall k, (call_count k st1 <= call_count k st + 1)%nat) /\
  (forall m, evaluate reg (S m) name args st1 = Some (Ok v, st1)) /\
  (reachable reg st ->
   forall k, succeeds reg k -> (call_count k st1 <= 1)%nat) /\
  (exists s,
     evaluate Scenario.savings 5 "balance" [AInt 3] empty_state
       = Some (Ok (num 130), s) /\
     call_count ("initial", []) s = 1%nat /\
     evaluate Scenario.savings 5 "balance" [AInt 0] s
       = Some (Ok (num 100), s)).
Proof.
  intros H.
  destruct (evaluate_in_logged_since reg st n [] (name, args) st v st1
              (logged_since_refl [] st) H) as [_ (new & Hc & Hnd & Hnew)].
  split; [|split; [|split; [|split]]].
  - exists new. split; [exact Hc|]. split; [exact Hnd|].
    intros k Hk. destruct (Hnew k Hk) as [H0 [H1|H1]].
    + now split.
    + now apply elem_of_nil in H1.
  - intros k. unfold call_count. rewrite Hc, filter_app, length_app.
    pose proof (count_NoDup k new Hnd). lia.
  - intros m. unfold evaluate in *. rewrite evaluate_in_eq.
    now rewrite (evaluate_in_cached _ _ _ _ _ _ _ H).
  - intros Hst k Hk.
    assert (Hst1 : reachable reg st1) by (eapply reach_step; [exact Hst|exact H]).
    exact (proj1 (reachable_invoked_once reg st1 Hst1 k Hk)).
  - exact balance_scenario.
Qed.

(** The witness starts from the state a failed request left behind. *)
Lemma memoization_on_success_witness :
  let st := after Sample.cells 1 "av_at" [AInt 0; AStr "BEF_DECR"] empty_state in
  let st1 := after Sample.cells 60 "pols_if_at" [AInt 0; AStr "BEF_MAT"] st in
  (exists new,
     calls st1 = new ++ calls st /\ NoDup new /\
     forall k, k ∈ new -> cache st !! k = None /\ is_Some (cache st1 !! k)) /\
  (forall k, (call_count k st1 <= call_count k st + 1)%nat) /\
  (forall m,
     exists v,
       evaluate Sample.cells (S m) "pols_if_at" [AInt 0; AStr "BEF_MAT"] st1
       = Some (Ok v, st1)) /\
  (forall k, succeeds Sample.cells k -> (call_count k st1 <= 1)%nat).
Proof.
  intros st st1.
  assert (Hv : exists v,
    evaluate Sample.cells 60 "pols_if_at" [AInt 0; AStr "BEF_MAT"] st
    = Some (Ok v, st1)).
  { eexists. apply evaluate_after. vm_compute. reflexivity. }
  destruct Hv as [v Hv].
  destruct (memoization_on_success Sample.cells st 60 "pols_if_at"
              [AInt 0; AStr "BEF_MAT"] v st1 Hv)
    as (Hnew & Hcount & Hrep & Hrun & _).
  split; [exact Hnew|]. split; [exact Hcount|]. split.
  - intros m. exists v. apply Hrep.
  - apply Hrun. apply reachable_after, reach_empty.
Defined.

(** ** Fill-on-miss table lookup *)

Lemma nth_error_zip_labels la lb i a b :
  nth_error la i = Some a -> nth_error lb i = Some b ->
  nth_error (zip_labels la lb) i = Some (a, b).
Proof.
  revert lb i. induction la as [|x la IH]; intros [|y lb] [|i]; simpl;
    try discriminate.
  - now intros [= ->] [= ->].
  - apply IH.
Qed.

Lemma length_zip_labels la lb :
  length la = length lb -> length (zip_labels la lb) = length la.
Proof.
  revert lb. induction la as [|x la IH]; intros [|y lb]; simpl;
    try discriminate; auto.
Qed.

Lemma reindex_spec t mi fill :
  unique_index t = true ->
  exists l,
    reindex (VTab t) mi fill = Ok (VArr l) /\
    length l = length mi /\
    forall i k, nth_error mi i = Some k ->
      nth_error l i = Some (match lookup2 k t with
                            | Some x => x
                            | None => fill
                            end).
Proof.
  intros Hu. eexists. split; [|split].
  - unfold reindex. rewrite Hu. reflexivity.
  - apply List.length_map.
  - intros i k Hk. rewrite List.nth_error_map, Hk. reflexivity.
Qed.

Lemma body_of reg name args a f :
  resolve reg name = Ok (CellDef a f) ->
  length args = a ->
  body reg (name, args) = f args.
Proof.
  intros Hr Ha. rewrite (body_formula reg (name, args) _ Hr).
  - reflexivity.
  - simpl. rewrite Ha. apply Nat.eqb_refl.
Qed.

Ltac enter_cell :=
  apply evaluates_returns;
  erewrite body_of; [|resolve_cell|reflexivity].

Ltac ask H :=
  eapply returns_bind; [apply returns_cell; exact H|]; cbv beta.

(** C5.  A two-level table lookup returns the fill value 0, not an
    error, for a key pair the table does not have, and the stored value
    for a pair it has (so a table holding 0.01 under (30, 2) gives 0 for
    (99, 99) and 0.01 for (30, 2)).  Accordingly [mort_rate(t)], given the
    ages and durations of the model points at [t] and the reindexed
    mortality table, returns one rate per model point: 0 where
    [(age(t), min(duration(t), 5))] is missing from the table, the table's
    rate where it is present. *)
Theorem mort_rate_fill_on_miss (fpow : Q -> Q -> Q) (fexp : Q -> Q)
    (R : Projection.references) (t : arg) (ages durs : list Q)
    (tab : table) (f : frame) :
  evaluates (Projection.cells fpow fexp R) ("age", [t]) (Ok (VArr ages)) ->
  evaluates (Projection.cells fpow fexp R) ("duration", [t]) (Ok (VArr durs)) ->
  evaluates (Projection.cells fpow fexp R) ("mort_table_reindexed", [])
            (Ok (VTab tab)) ->
  evaluates (Projection.cells fpow fexp R) ("model_point", [])
            (Ok (VFrame f)) ->
  length durs = length ages ->
  length (index f) = length ages ->
  unique_index tab = true ->
  (exists rates,
     evaluates (Projection.cells fpow fexp R) ("mort_rate", [t])
               (Ok (VArr rates)) /\
     length rates = length ages /\
     forall i a d,
       nth_error ages i = Some a -> nth_error durs i = Some d ->
       (lookup2 (LNum a, LNum (Qmin d 5)) tab = None ->
        nth_error rates i = Some 0%Q) /\
       (forall x, lookup2 (LNum a, LNum (Qmin d 5)) tab = Some x ->
        nth_error rates i = Some x)) /\
  reindex (VTab [((LNum 30, LNum 2), (1 # 100)%Q)])
          [(LNum 99, LNum 99); (LNum 30, LNum 2)] 0
  = Ok (VArr [0%Q; (1 # 100)%Q]).
Proof.
  intros Hage Hdur Htab Hmp Hld Hlf Hu. split; [|reflexivity].
  set (mi := zip_labels (List.map LNum ages)
                        (List.map LNum (List.map (fun x => Qmin x (inject_Z 5)) durs))).
  assert (Hlen : length mi = length ages).
  { unfold mi. rewrite length_zip_labels; rewrite !List.length_map; auto. }
  destruct (reindex_spec tab mi 0 Hu) as (rates & Hre & Hlr & Hnth).
  exists rates. split; [|split].
  - enter_cell. unfold Projection.mort_rate.
    ask Hage. ask Hdur.
    change (minimum (VArr durs) (num 5))
      with (Ok (VArr (List.map (fun x => Qmin x (inject_Z 5)) durs))).
    cbn [lift bind].
    assert (Hmi : multiindex_from_arrays (VArr ages)
                    (VArr (List.map (fun x => Qmin x (inject_Z 5)) durs))
                  = Ok mi).
    { unfold multiindex_from_arrays. cbn [labels_of rbind].
      rewrite !List.length_map, Hld, Nat.eqb_refl. reflexivity. }
    rewrite Hmi. cbn [lift bind].
    ask Htab. rewrite Hre. cbn [lift bind].
    ask Hmp. unfold set_axis.
    rewrite Hlr, Hlen, Hlf, Nat.eqb_refl. apply returns_lift.
  - congruence.
  - intros i a d Ha Hd.
    assert (Hk : nth_error mi i = Some (LNum a, LNum (Qmin d 5))).
    { unfold mi. apply nth_error_zip_labels.
      - rewrite List.nth_error_map, Ha. reflexivity.
      - rewrite !List.nth_error_map, Hd. reflexivity. }
    rewrite (Hnth i _ Hk). split.
    + now intros ->.
    + now intros x ->.
Qed.

Lemma mort_rate_fill_on_miss_witness :
  (exists rates,
     evaluates Sample.cells ("mort_rate", [AInt 0]) (Ok (VArr rates)) /\
     length rates = length [47; 28]%Q /\
     forall i a d,
       nth_error [47; 28]%Q i = Some a ->
       nth_error [0; -1 # 1]%Q i = Some d ->
       (lookup2 (LNum a, LNum (Qmin d 5))
          [ ((LNum 29, LNum 0), 1 # 100); ((LNum 47, LNum 0), 3 # 100);
            ((LNum 48, LNum 0), 1); ((LNum 29, LNum 1), 2 # 100);
            ((LNum 47, LNum 1), 4 # 100); ((LNum 48, LNum 1), 1) ]%Q = None ->
        nth_error rates i = Some 0%Q) /\
       (forall x,
          lookup2 (LNum a, LNum (Qmin d 5))
            [ ((LNum 29, LNum 0), 1 # 100); ((LNum 47, LNum 0), 3 # 100);
              ((LNum 48, LNum 0), 1); ((LNum 29, LNum 1), 2 # 100);
              ((LNum 47, LNum 1), 4 # 100); ((LNum 48, LNum 1), 1) ]%Q
          = Some x ->
          nth_error rates i = Some x)) /\
  reindex (VTab [((LNum 30, LNum 2), (1 # 100)%Q)])
          [(LNum 99, LNum 99); (LNum 30, LNum 2)] 0
  = Ok (VArr [0%Q; (1 # 100)%Q]).
Proof.
  eapply (mort_rate_fill_on_miss Sample.pow1 Sample.exp1 Sample.refs (AInt 0)).
  - exists 30%nat. vm_compute. reflexivity.
  - exists 30%nat. vm_compute. reflexivity.
  - exists 30%nat. vm_compute. reflexivity.
  - exists 30%nat. vm_compute. reflexivity.
  - reflexivity.
  - reflexivity.
  - reflexivity.
Defined.

(** On the sample portfolio: the first model point, aged 47 in its first
    policy year, gets the table's 0.03; the second, not yet issued, has no
    table entry and gets 0. *)
Example mort_rate_sample :
  run Sample.cells 30 ("mort_rate", [AInt 0])
  = Some (Ok (VArr [(3 # 100)%Q; 0%Q])).
Proof. vm_compute. reflexivity. Qed.

(** ** In-force at time 0 and new business *)

Lemma arg_eqb_int_ne z : z <> 0 -> arg_eqb (AInt z) (AInt 0) = false.
Proof. intros H. apply bool_decide_eq_false_2. congruence. Qed.

Lemma nth_error_zip_with_q f l1 l2 i a b :
  nth_error l1 i = Some a -> nth_error l2 i = Some b ->
  nth_error (zip_with_q f l1 l2) i = Some (f a b).
Proof.
  revert l2 i. induction l1 as [|x l1 IH]; intros [|y l2] [|i]; simpl;
    try discriminate.
  - now intros [= ->] [= ->].
  - apply IH.
Qed.

Lemma length_zip_with_q f l1 l2 :
  length l1 = length l2 -> length (zip_with_q f l1 l2) = length l1.
Proof.
  revert l2. induction l1 as [|x l1 IH]; intros [|y l2]; simpl;
    try discriminate; auto.
Qed.

Lemma length_months_later n d0 : length (months_later n d0) = length d0.
Proof.
  induction n as [|n IH]; simpl; [reflexivity|].
  now rewrite List.length_map.
Qed.

Lemma nth_error_months_later n d0 i d :
  nth_error d0 i = Some d ->
  exists d', nth_error (months_later n d0) i = Some d' /\
             (d' == d + inject_Z (Z.of_nat n))%Q.
Proof.
  intros Hd. induction n as [|n (d' & Hd' & E)].
  - exists d. split; [exact Hd|]. simpl. ring.
  - exists (d' + inject_Z 1)%Q. split.
    + simpl. rewrite List.nth_error_map, Hd'. reflexivity.
    + rewrite E, Nat2Z.inj_succ. unfold Z.succ. rewrite inject_Z_plus. ring.
Qed.

Section NewBusiness.
Variables (fpow : Q -> Q -> Q) (fexp : Q -> Q).
Variable R : Projection.references.
Variable f : frame.
Variables pc d0 : list Q.
Hypothesis Hmp :
  evaluates (Projection.cells fpow fexp R) ("model_point", []) (Ok (VFrame f)).
Hypothesis Hpc : assoc "policy_count" (columns f) = Some (NumCol pc).
Hypothesis Hd0 : assoc "duration_mth" (columns f) = Some (NumCol d0).

(** [duration_mth(t)] is the [duration_mth] column incremented [t]
    times. *)
Lemma duration_mth_value n :
  evaluates (Projection.cells fpow fexp R)
            ("duration_mth", [AInt (Z.of_nat n)])
            (Ok (VArr (months_later n d0))).
Proof.
  induction n as [|n IH]; enter_cell; unfold Projection.duration_mth.
  - change (arg_eqb (AInt (Z.of_nat 0)) (AInt 0)) with true. cbv iota.
    ask Hmp. unfold getitem. rewrite Hd0. apply returns_lift.
  - rewrite arg_eqb_int_ne by lia. cbn [arg_pred lift bind].
    replace (Z.of_nat (S n) - 1) with (Z.of_nat n) by lia.
    ask IH. apply returns_lift.
Qed.
End NewBusiness.

(** C9.  Model points that are future new business are not in force at
    time 0: [pols_if_init()] holds the [policy_count] of a model point
    whose [duration_mth(0)] is positive and 0 for every model point whose
    [duration_mth(0)] is zero or negative.  Such a point enters through
    [pols_new_biz(t)], which holds its [policy_count] exactly at the [t]
    where [duration_mth(t) = duration_mth(0) + t] is 0, and 0 at every
    other [t]. *)
Theorem new_business_enters_later (fpow : Q -> Q -> Q) (fexp : Q -> Q)
    (R : Projection.references) (f : frame) (pc d0 : list Q) :
  evaluates (Projection.cells fpow fexp R) ("model_point", [])
            (Ok (VFrame f)) ->
  assoc "policy_count" (columns f) = Some (NumCol pc) ->
  assoc "duration_mth" (columns f) = Some (NumCol d0) ->
  length d0 = length pc ->
  (exists l,
     evaluates (Projection.cells fpow fexp R) ("pols_if_init", [])
               (Ok (VArr l)) /\
     length l = length pc /\
     forall i c d,
       nth_error pc i = Some c -> nth_error d0 i = Some d ->
       ((0 < d)%Q -> nth_error l i = Some c) /\
       ((d <= 0)%Q -> nth_error l i = Some 0%Q)) /\
  (forall t, 0 <= t ->
     exists l,
       evaluates (Projection.cells fpow fexp R) ("pols_new_biz", [AInt t])
                 (Ok (VArr l)) /\
       length l = length pc /\
       forall i c d,
         nth_error pc i = Some c -> nth_error d0 i = Some d ->
         ((d + inject_Z t == 0)%Q -> nth_error l i = Some c) /\
         (~ (d + inject_Z t == 0)%Q -> nth_error l i = Some 0%Q)).
Proof.
  intros Hmp Hpc Hd0 Hlen.
  pose proof (duration_mth_value fpow fexp R f d0 Hmp Hd0) as Hdur.
  split.
  - set (l := zip_with_q (fun x b => if Qeq_bool b 0 then 0%Q else x) pc
                (List.map (fun x => qgt x (inject_Z 0)) d0)).
    exists l. split; [|split].
    + enter_cell. unfold Projection.pols_if_init.
      ask Hmp. unfold getitem at 1. rewrite Hpc. cbn [lift bind].
      ask (Hdur O).
      change (gt (VArr (months_later 0 d0)) (num 0))
        with (Ok (VArr (List.map (fun x => qgt x (inject_Z 0)) d0))).
      cbn [lift bind]. unfold where_.
      rewrite List.length_map, Hlen, Nat.eqb_refl. apply returns_lift.
    + unfold l. rewrite length_zip_with_q; [reflexivity|].
      now rewrite List.length_map.
    + intros i c d Hc Hd. unfold l.
      rewrite (nth_error_zip_with_q _ _ _ i c (qgt d (inject_Z 0)) Hc)
        by (rewrite List.nth_error_map, Hd; reflexivity).
      unfold qgt. destruct (Qle_bool d (inject_Z 0)) eqn:E.
      * apply Qle_bool_iff in E. split; [|reflexivity].
        intros Hlt. exfalso. apply (Qlt_not_le _ _ Hlt). exact E.
      * split; [reflexivity|]. intros Hle.
        apply Qle_bool_iff in Hle. unfold inject_Z in E. congruence.
  - intros t Ht.
    set (dt := months_later (Z.to_nat t) d0).
    set (l := zip_with_q (fun x b => if Qeq_bool b 0 then 0%Q else x) pc
                (List.map (fun x => qeq x (inject_Z 0)) dt)).
    assert (Hldt : length dt = length pc).
    { unfold dt. now rewrite length_months_later. }
    exists l. split; [|split].
    + enter_cell. unfold Projection.pols_new_biz.
      ask Hmp. unfold getitem at 1. rewrite Hpc. cbn [lift bind].
      pose proof (Hdur (Z.to_nat t)) as Hdt. rewrite Z2Nat.id in Hdt by exact Ht.
      ask Hdt.
      change (eq_num (VArr (months_later (Z.to_nat t) d0)) (num 0))
        with (Ok (VArr (List.map (fun x => qeq x (inject_Z 0)) dt))).
      cbn [lift bind]. unfold where_.
      rewrite List.length_map, Hldt, Nat.eqb_refl. apply returns_lift.
    + unfold l. rewrite length_zip_with_q; [reflexivity|].
      now rewrite List.length_map.
    + intros i c d Hc Hd.
      destruct (nth_error_months_later (Z.to_nat t) d0 i d Hd)
        as (d' & Hd' & E).
      rewrite Z2Nat.id in E by exact Ht. unfold l.
      rewrite (nth_error_zip_with_q _ _ _ i c (qeq d' (inject_Z 0)) Hc)
        by (fold dt in Hd'; rewrite List.nth_error_map, Hd'; reflexivity).
      unfold qeq. destruct (Qeq_bool d' (inject_Z 0)) eqn:E0.
      * apply Qeq_bool_iff in E0. split; [reflexivity|].
        intros Hne. exfalso. apply Hne. rewrite <- E. exact E0.
      * split; [|reflexivity]. intros Hz. exfalso.
        apply Qeq_bool_neq in E0. apply E0. rewrite E. exact Hz.
Qed.

Lemma new_business_enters_later_witness :
  (exists l,
     evaluates Sample.cells ("pols_if_init", []) (Ok (VArr l)) /\
     length l = length [100; 50]%Q /\
     forall i c d,
       nth_error [100; 50]%Q i = Some c ->
       nth_error [1; -2 # 1]%Q i = Some d ->
       ((0 < d)%Q -> nth_error l i = Some c) /\
       ((d <= 0)%Q -> nth_error l i = Some 0%Q)) /\
  (forall t, 0 <= t ->
     exists l,
       evaluates Sample.cells ("pols_new_biz", [AInt t]) (Ok (VArr l)) /\
       length l = length [100; 50]%Q /\
       forall i c d,
         nth_error [100; 50]%Q i = Some c ->
         nth_error [1; -2 # 1]%Q i = Some d ->
         ((d + inject_Z t == 0)%Q -> nth_error l i = Some c) /\
         (~ (d + inject_Z t == 0)%Q -> nth_error l i = Some 0%Q)).
Proof.
  eapply (new_business_enters_later Sample.pow1 Sample.exp1 Sample.refs).
  - exists 5%nat. vm_compute. reflexivity.
  - reflexivity.
  - reflexivity.
  - reflexivity.
Defined.

(** On the sample portfolio: the second model point, issued at [t = 2],
    is absent from [pols_if_init()] and enters at [t = 2]. *)
Example new_business_sample :
  run Sample.cells 10 ("pols_if_init", []) = Some (Ok (VArr [100; 0]%Q)) /\
  run Sample.cells 50 ("pols_new_biz", [AInt 1]) = Some (Ok (VArr [0; 0]%Q)) /\
  run Sample.cells 60 ("pols_new_biz", [AInt 2]) = Some (Ok (VArr [0; 50]%Q)).
Proof. repeat split; vm_compute; reflexivity. Qed.

(** ** Net amount at risk and the cost of insurance *)

Lemma Forall_zip_with_q (P : Q -> Prop) f l1 l2 :
  (forall x y, P x -> P y -> P (f x y)) ->
  Forall P l1 -> Forall P l2 -> Forall P (zip_with_q f l1 l2).
Proof.
  intros Hf H1. revert l2. induction H1 as [|x l1 Hx H1 IH]; intros l2 H2.
  - constructor.
  - destruct H2 as [|y l2 Hy H2]; simpl; constructor; auto.
Qed.

Lemma Forall_map_q (P P' : Q -> Prop) (f : Q -> Q) l :
  (forall x, P x -> P' (f x)) -> Forall P l -> Forall P' (List.map f l).
Proof.
  intros Hf H. induction H as [|x l Hx H IH]; simpl; constructor; auto.
Qed.

Lemma Forall_trivial_q (l : list Q) : Forall (fun _ => True) l.
Proof. induction l; constructor; auto. Qed.

Lemma maximum_zero_nonneg x v :
  maximum x (num 0) = Ok v -> nonneg v.
Proof.
  destruct x as [q|l| | | |]; simpl; try discriminate; intros [= <-]; simpl.
  - apply Q.le_max_r.
  - apply (Forall_map_q (fun _ => True)); [|apply Forall_trivial_q].
    intros y _. apply Q.le_max_r.
Qed.

Lemma mul_nonneg a b v :
  nonneg a -> nonneg b -> mul a b = Ok v -> nonneg v.
Proof.
  destruct a as [x|l1| | | |], b as [y|l2| | | |]; simpl; try contradiction;
    intros Ha Hb.
  - intros [= <-]. simpl. now apply Qmult_le_0_compat.
  - intros [= <-]. simpl. apply (Forall_map_q (fun z => (0 <= z)%Q)); [|exact Hb].
    intros z Hz. now apply Qmult_le_0_compat.
  - intros [= <-]. simpl. apply (Forall_map_q (fun z => (0 <= z)%Q)); [|exact Ha].
    intros z Hz. now apply Qmult_le_0_compat.
  - unfold broadcast. destruct (Nat.eqb (length l1) (length l2));
      [|discriminate].
    intros [= <-]. simpl. apply Forall_zip_with_q; auto.
    intros p q Hp Hq. now apply Qmult_le_0_compat.
Qed.

Ltac leave_cell H :=
  apply evaluates_returns in H;
  erewrite body_of in H; [|resolve_cell|reflexivity].

Ltac answer H v Hv :=
  apply returns_bind_ok_inv in H as (v & Hv & H);
  apply returns_cell_inv in Hv.

Ltac computed H v Hv :=
  apply returns_bind_ok_inv in H as (v & Hv & H);
  apply returns_lift_inv in Hv; symmetry in Hv.

Section MonthlyRate.
Variables (fpow : Q -> Q -> Q) (fexp : Q -> Q).
Variable R : Projection.references.
Hypothesis fpow_unit :
  forall x, (0 <= x <= 1)%Q -> (fpow x (1 / 12) <= 1)%Q.

Lemma monthly_rate_nonneg x :
  (0 <= x <= 1)%Q -> (0 <= inject_Z 1 - fpow (inject_Z 1 - x) (1 / 12))%Q.
Proof.
  intros Hx. change (inject_Z 1) with 1%Q.
  assert (H : (fpow (1 - x) (1 / 12) <= 1)%Q) by (apply fpow_unit; lra).
  revert H. generalize (fpow (1 - x)%Q (1 / 12)%Q). intros y H. lra.
Qed.

(** The monthly rate [1 - (1 - q) ** (1/12)] of an annual rate [q]
    between 0 and 1 is non-negative. *)
Lemma mort_rate_mth_nonneg t q m :
  evaluates (Projection.cells fpow fexp R) ("mort_rate", [t]) (Ok q) ->
  in_unit q ->
  evaluates (Projection.cells fpow fexp R) ("mort_rate_mth", [t]) (Ok m) ->
  nonneg m.
Proof.
  intros Hq Hu H. leave_cell H. unfold Projection.mort_rate_mth in H.
  answer H q' Hq'.
  assert (Ok q' = Ok q) as [= ->] by exact (evaluates_det _ _ _ _ Hq' Hq).
  computed H x Hx. computed H y Hy.
  apply returns_lift_inv in H. symmetry in H.
  destruct q as [a|l| | | |]; simpl in Hu; try contradiction.
  - simpl in Hx. injection Hx as <-. simpl in Hy. injection Hy as <-.
    simpl in H. injection H as <-. simpl. now apply monthly_rate_nonneg.
  - simpl in Hx. injection Hx as <-. simpl in Hy. injection Hy as <-.
    simpl in H. injection H as <-. simpl.
    rewrite !List.map_map.
    apply (Forall_map_q (fun x => (0 <= x <= 1)%Q)); [|exact Hu].
    intros z Hz. now apply monthly_rate_nonneg.
Qed.
End MonthlyRate.

(** Over exact numbers, which hold no NaN: for every [t >= 0],
    [net_amt_at_risk(t)] and [coi_pp(t)] return, and what they return
    is non-negative entry by entry, the latter when the mortality rate
    is. *)
Lemma net_amt_at_risk_exact (fpow : Q -> Q -> Q) (fexp : Q -> Q)
    (R : Projection.references) (t : Z) :
  0 <= t ->
  (exists r,
     evaluates (Projection.cells fpow fexp R) ("net_amt_at_risk", [AInt t]) r) /\
  (forall v,
     evaluates (Projection.cells fpow fexp R) ("net_amt_at_risk", [AInt t])
               (Ok v) ->
     nonneg v) /\
  (exists r,
     evaluates (Projection.cells fpow fexp R) ("coi_pp", [AInt t]) r) /\
  (forall m v,
     evaluates (Projection.cells fpow fexp R) ("mort_rate_mth", [AInt t])
               (Ok m) ->
     nonneg m ->
     evaluates (Projection.cells fpow fexp R) ("coi_pp", [AInt t]) (Ok v) ->
     nonneg v) /\
  ((forall x, (0 <= x <= 1)%Q -> (fpow x (1 / 12) <= 1)%Q) ->
   forall q v,
     evaluates (Projection.cells fpow fexp R) ("mort_rate", [AInt t]) (Ok q) ->
     in_unit q ->
     evaluates (Projection.cells fpow fexp R) ("coi_pp", [AInt t]) (Ok v) ->
     nonneg v).
Proof.
  intros Ht.
  assert (Hnar : forall v,
    evaluates (Projection.cells fpow fexp R) ("net_amt_at_risk", [AInt t])
              (Ok v) ->
    nonneg v).
  { intros v H. leave_cell H. unfold Projection.net_amt_at_risk in H.
    answer H s Hs. answer H a Ha. computed H x Hx.
    apply returns_lift_inv in H. symmetry in H.
    now apply maximum_zero_nonneg in H. }
  assert (Hcoi : forall m v,
    evaluates (Projection.cells fpow fexp R) ("mort_rate_mth", [AInt t])
              (Ok m) ->
    nonneg m ->
    evaluates (Projection.cells fpow fexp R) ("coi_pp", [AInt t]) (Ok v) ->
    nonneg v).
  { intros m v Hm Hpos H. leave_cell H. unfold Projection.coi_pp in H.
    answer H c Hc. answer H n Hn.
    apply returns_lift_inv in H. symmetry in H.
    leave_cell Hc. unfold Projection.coi_av in Hc.
    answer Hc m' Hm'. apply returns_lift_inv in Hc. symmetry in Hc.
    assert (Ok m' = Ok m) as [= ->] by exact (evaluates_det _ _ _ _ Hm' Hm).
    apply (mul_nonneg c n v); [|now apply Hnar|exact H].
    apply (mul_nonneg (VNum (11 # 10)) m c); [|exact Hpos|exact Hc].
    simpl. discriminate. }
  split; [|split; [exact Hnar|split; [|split; [exact Hcoi|]]]].
  - destruct (ranked_key_returns fpow fexp R ("net_amt_at_risk", [AInt t])
                (30 * Z.to_nat t + 17)) as [r Hr].
    { apply rank1; [exact Ht|reflexivity]. }
    exists r. eexists. exact Hr.
  - destruct (ranked_key_returns fpow fexp R ("coi_pp", [AInt t])
                (30 * Z.to_nat t + 18)) as [r Hr].
    { apply rank1; [exact Ht|reflexivity]. }
    exists r. eexists. exact Hr.
  - intros Hpow q v Hq Hu H.
    assert (Hm : exists m,
      evaluates (Projection.cells fpow fexp R) ("mort_rate_mth", [AInt t])
                (Ok m)).
    { pose proof H as H'. leave_cell H'. unfold Projection.coi_pp in H'.
      answer H' c Hc. leave_cell Hc. unfold Projection.coi_av in Hc.
      answer Hc m Hm. now exists m. }
    destruct Hm as [m Hm]. apply (Hcoi m v Hm); [|exact H].
    exact (mort_rate_mth_nonneg fpow fexp R Hpow (AInt t) q m Hq Hu Hm).
Qed.

(** [np.maximum(x, 0)] in binary64: NaN where [x] is, and otherwise not
    below 0. *)
Lemma np_maximum_zero (x : float) :
  PrimFloat.is_nan (Binary64.np_maximum x 0) = PrimFloat.is_nan x /\
  (PrimFloat.is_nan x = false -> (0 <=? Binary64.np_maximum x 0)%float = true).
Proof.
  unfold Binary64.np_maximum.
  destruct (PrimFloat.is_nan x) eqn:Hx.
  { split; [exact Hx|discriminate]. }
  change (PrimFloat.is_nan 0) with false. cbv iota.
  destruct (x <? 0)%float eqn:E.
  { split; [reflexivity|]. intros _. reflexivity. }
  split; [exact Hx|]. intros _.
  rewrite FloatAxioms.leb_spec. rewrite FloatAxioms.ltb_spec in E.
  unfold PrimFloat.is_nan in Hx. rewrite FloatAxioms.eqb_spec in Hx.
  change (Prim2SF 0) with (S754_zero false) in *.
  destruct (Prim2SF x) as [sg|sg| |sg m e]; try destruct sg;
    try discriminate E; try discriminate Hx; reflexivity.
Qed.

Lemma Forall_np_maximum_zero (l : list float) :
  Forall (fun x => PrimFloat.is_nan x = true \/ (0 <=? x)%float = true)
         (List.map (fun x => Binary64.np_maximum x 0%float) l).
Proof.
  induction l as [|x l IH]; simpl; constructor; [|exact IH].
  destruct (np_maximum_zero x) as [Hn Hp].
  destruct (PrimFloat.is_nan x) eqn:Hx.
  - left. exact Hn.
  - right. now apply Hp.
Qed.

Section Binary64Returns.
Variable R : Binary64.Projection.references.
Variables inv_income_pp maint_fee_pp coi_pp : Z -> list float.

Lemma duration_mth_binary64_returns n :
  forall t, 0 <= t -> (Z.to_nat t < n)%nat ->
    exists d, Binary64.Projection.duration_mth R n t = Some (Ok d).
Proof.
  induction n as [|n IH]; intros t Ht Hn; [lia|].
  cbn [Binary64.Projection.duration_mth].
  destruct (t =? 0) eqn:E; [eexists; reflexivity|].
  apply Z.eqb_neq in E.
  destruct (IH (t - 1)) as [d Hd]; [lia|lia|].
  rewrite Hd. eexists. reflexivity.
Qed.

Lemma premium_pp_binary64_returns n t :
  0 <= t -> (Z.to_nat t + 1 < n)%nat ->
  exists r, Binary64.Projection.premium_pp R n t = Some r.
Proof.
  intros Ht Hn. destruct n as [|n]; [lia|].
  cbn [Binary64.Projection.premium_pp].
  destruct (duration_mth_binary64_returns n t Ht) as [d Hd]; [lia|].
  rewrite Hd. cbn [Binary64.obind].
  destruct (Binary64.Projection.policy_term R); eexists; reflexivity.
Qed.

Lemma prem_to_av_pp_binary64_returns n t :
  0 <= t -> (Z.to_nat t + 2 < n)%nat ->
  exists r, Binary64.Projection.prem_to_av_pp R n t = Some r.
Proof.
  intros Ht Hn. destruct n as [|n]; [lia|].
  cbn [Binary64.Projection.prem_to_av_pp].
  destruct (premium_pp_binary64_returns n t Ht) as [[p|e] Hp]; [lia| |];
    rewrite Hp; eexists; reflexivity.
Qed.

Lemma av_pp_at_BEF_PREM n t :
  Binary64.Projection.av_pp_at R inv_income_pp maint_fee_pp coi_pp
    (S n) t "BEF_PREM"
  = if t =? 0 then Binary64.oret (Binary64.Projection.av_pp_init R)
    else Binary64.obind
           (Binary64.Projection.av_pp_at R inv_income_pp maint_fee_pp coi_pp
              n (t - 1) "BEF_INV")
           (fun a => Binary64.oret
                       (zip_with PrimFloat.add a (inv_income_pp (t - 1)))).
Proof. reflexivity. Qed.

Lemma av_pp_at_BEF_FEE n t :
  Binary64.Projection.av_pp_at R inv_income_pp maint_fee_pp coi_pp
    (S n) t "BEF_FEE"
  = Binary64.obind
      (Binary64.Projection.av_pp_at R inv_income_pp maint_fee_pp coi_pp
         n t "BEF_PREM")
      (fun a => Binary64.obind (Binary64.Projection.prem_to_av_pp R n t)
                  (fun p => Binary64.oret (zip_with PrimFloat.add a p))).
Proof. reflexivity. Qed.

Lemma av_pp_at_BEF_INV n t :
  Binary64.Projection.av_pp_at R inv_income_pp maint_fee_pp coi_pp
    (S n) t "BEF_INV"
  = Binary64.obind
      (Binary64.Projection.av_pp_at R inv_income_pp maint_fee_pp coi_pp
         n t "BEF_FEE")
      (fun a => Binary64.oret
                  (zip_with PrimFloat.sub
                     (zip_with PrimFloat.sub a (maint_fee_pp t)) (coi_pp t))).
Proof. reflexivity. Qed.

Lemma obind_returns {A B} (c : Binary64.outcome A)
    (k : A -> Binary64.outcome B) :
  (exists r, c = Some r) -> (forall a, exists r, k a = Some r) ->
  exists r, Binary64.obind c k = Some r.
Proof.
  intros [[a|e] ->] Hk; simpl; [apply Hk|eexists; reflexivity].
Qed.

(** The nesting of [av_pp_at] at the three timings that
    [net_amt_at_risk] reaches: three calls per month. *)
Lemma av_pp_at_binary64_returns m :
  (forall n, (3 * m + 3 <= n)%nat ->
     exists r, Binary64.Projection.av_pp_at R inv_income_pp maint_fee_pp
                 coi_pp n (Z.of_nat m) "BEF_PREM" = Some r) /\
  (forall n, (3 * m + 4 <= n)%nat ->
     exists r, Binary64.Projection.av_pp_at R inv_income_pp maint_fee_pp
                 coi_pp n (Z.of_nat m) "BEF_FEE" = Some r) /\
  (forall n, (3 * m + 5 <= n)%nat ->
     exists r, Binary64.Projection.av_pp_at R inv_income_pp maint_fee_pp
                 coi_pp n (Z.of_nat m) "BEF_INV" = Some r).
Proof.
  assert (Hstep : forall m,
    (forall n, (3 * m + 3 <= n)%nat ->
       exists r, Binary64.Projection.av_pp_at R inv_income_pp maint_fee_pp
                   coi_pp n (Z.of_nat m) "BEF_PREM" = Some r) ->
    (forall n, (3 * m + 4 <= n)%nat ->
       exists r, Binary64.Projection.av_pp_at R inv_income_pp maint_fee_pp
                   coi_pp n (Z.of_nat m) "BEF_FEE" = Some r) /\
    (forall n, (3 * m + 5 <= n)%nat ->
       exists r, Binary64.Projection.av_pp_at R inv_income_pp maint_fee_pp
                   coi_pp n (Z.of_nat m) "BEF_INV" = Some r)).
  { clear m. intros m Hprem.
    assert (Hfee : forall n, (3 * m + 4 <= n)%nat ->
      exists r, Binary64.Projection.av_pp_at R inv_income_pp maint_fee_pp
                  coi_pp n (Z.of_nat m) "BEF_FEE" = Some r).
    { intros n Hn. destruct n as [|n]; [lia|]. rewrite av_pp_at_BEF_FEE.
      apply obind_returns; [apply Hprem; lia|]. intros a.
      apply obind_returns; [|intros p; eexists; reflexivity].
      apply prem_to_av_pp_binary64_returns; lia. }
    split; [exact Hfee|].
    intros n Hn. destruct n as [|n]; [lia|]. rewrite av_pp_at_BEF_INV.
    apply obind_returns; [apply Hfee; lia|]. intros a. eexists. reflexivity. }
  induction m as [|m IH].
  - assert (Hprem : forall n, (3 * 0 + 3 <= n)%nat ->
      exists r, Binary64.Projection.av_pp_at R inv_income_pp maint_fee_pp
                  coi_pp n (Z.of_nat 0) "BEF_PREM" = Some r).
    { intros n Hn. destruct n as [|n]; [lia|]. rewrite av_pp_at_BEF_PREM.
      eexists. reflexivity. }
    split; [exact Hprem|]. now apply Hstep.
  - destruct IH as (_ & _ & Hinv).
    assert (Hprem : forall n, (3 * S m + 3 <= n)%nat ->
      exists r, Binary64.Projection.av_pp_at R inv_income_pp maint_fee_pp
                  coi_pp n (Z.of_nat (S m)) "BEF_PREM" = Some r).
    { intros n Hn. destruct n as [|n]; [lia|]. rewrite av_pp_at_BEF_PREM.
      replace (Z.of_nat (S m) =? 0) with false by (symmetry; apply Z.eqb_neq; lia).
      replace (Z.of_nat (S m) - 1) with (Z.of_nat m) by lia.
      apply obind_returns; [apply Hinv; lia|]. intros a. eexists. reflexivity. }
    split; [exact Hprem|]. now apply Hstep.
Qed.

Lemma net_amt_at_risk_binary64_returns t :
  0 <= t ->
  exists r, Binary64.Projection.net_amt_at_risk R inv_income_pp maint_fee_pp
              coi_pp (3 * Z.to_nat t + 5) t = Some r.
Proof.
  intros Ht. replace (3 * Z.to_nat t + 5)%nat with (S (3 * Z.to_nat t + 4)) by lia.
  cbn [Binary64.Projection.net_amt_at_risk].
  apply obind_returns; [|intros a; eexists; reflexivity].
  destruct (av_pp_at_binary64_returns (Z.to_nat t)) as (_ & Hfee & _).
  rewrite Z2Nat.id in Hfee by exact Ht. apply Hfee. lia.
Qed.

Lemma net_amt_at_risk_binary64_floor n t v :
  Binary64.Projection.net_amt_at_risk R inv_income_pp maint_fee_pp coi_pp n t
    = Some (Ok v) ->
  Forall (fun x => PrimFloat.is_nan x = true \/ (0 <=? x)%float = true) v.
Proof.
  destruct n as [|n]; [discriminate|].
  cbn [Binary64.Projection.net_amt_at_risk].
  destruct (Binary64.Projection.av_pp_at _ _ _ _ _ _ _) as [[a|e]|];
    simpl; try discriminate.
  intros [= <-]. apply Forall_np_maximum_zero.
Qed.
End Binary64Returns.

(** A model point whose [spec_id] has no row in the product
    specifications: the join fills its [load_prem_rate] with NaN, which
    goes through [prem_to_av_pp(0)] and [av_pp_at(0, "BEF_FEE")] into
    [net_amt_at_risk(0)], where the maximum with 0 returns it: the entry
    is NaN, and not non-negative. *)
Lemma net_amt_at_risk_nan_without_product_spec :
  Binary64.Projection.load_prem_rate Binary64.Projection.sample
    = [0%float; nan] /\
  Binary64.Projection.prem_to_av_pp Binary64.Projection.sample 4 0
    = Some (Ok [0%float; nan]) /\
  Binary64.Projection.av_pp_at Binary64.Projection.sample
    Binary64.Projection.no_charge Binary64.Projection.no_charge
    Binary64.Projection.no_charge 4 0 "BEF_FEE"
    = Some (Ok [1000%float; nan]) /\
  Binary64.Projection.net_amt_at_risk Binary64.Projection.sample
    Binary64.Projection.no_charge Binary64.Projection.no_charge
    Binary64.Projection.no_charge 5 0
    = Some (Ok [621000%float; nan]) /\
  PrimFloat.is_nan nan = true /\
  (0 <=? nan)%float = false.
Proof. repeat split; vm_compute; reflexivity. Qed.

(** C10 (amended).  For every [t >= 0], [net_amt_at_risk(t)] returns and
    every entry of it is non-negative or NaN, being the maximum of
    [sum_assured() - av_pp_at(t, "BEF_FEE")] and 0, which is NaN where
    that difference is.  Where no NaN arises, as over exact numbers, the
    entries are non-negative, and so are those of the cost-of-insurance
    charge [coi_pp(t) = 1.1 * mort_rate_mth(t) * net_amt_at_risk(t)] when
    the mortality rate is: the monthly rate [mort_rate_mth(t)] directly,
    or the annual rate [mort_rate(t)] lying between 0 and 1, given that
    the twelfth root of a number between 0 and 1 is at most 1. *)
Theorem net_amt_at_risk_nonneg (fpow : Q -> Q -> Q) (fexp : Q -> Q)
    (R : Projection.references) (R64 : Binary64.Projection.references)
    (inv_income_pp maint_fee_pp coi_pp : Z -> list float) (t : Z) :
  0 <= t ->
  ((exists r,
      Binary64.Projection.net_amt_at_risk R64 inv_income_pp maint_fee_pp coi_pp
        (3 * Z.to_nat t + 5) t = Some r) /\
   (forall n v,
      Binary64.Projection.net_amt_at_risk R64 inv_income_pp maint_fee_pp coi_pp
        n t = Some (Ok v) ->
      Forall (fun x => PrimFloat.is_nan x = true \/ (0 <=? x)%float = true) v)) /\
  (exists r,
     evaluates (Projection.cells fpow fexp R) ("net_amt_at_risk", [AInt t]) r) /\
  (forall v,
     evaluates (Projection.cells fpow fexp R) ("net_amt_at_risk", [AInt t])
               (Ok v) ->
     nonneg v) /\
  (exists r,
     evaluates (Projection.cells fpow fexp R) ("coi_pp", [AInt t]) r) /\
  (forall m v,
     evaluates (Projection.cells fpow fexp R) ("mort_rate_mth", [AInt t])
               (Ok m) ->
     nonneg m ->
     evaluates (Projection.cells fpow fexp R) ("coi_pp", [AInt t]) (Ok v) ->
     nonneg v) /\
  ((forall x, (0 <= x <= 1)%Q -> (fpow x (1 / 12) <= 1)%Q) ->
   forall q v,
     evaluates (Projection.cells fpow fexp R) ("mort_rate", [AInt t]) (Ok q) ->
     in_unit q ->
     evaluates (Projection.cells fpow fexp R) ("coi_pp", [AInt t]) (Ok v) ->
     nonneg v).
Proof.
  intros Ht. split; [split|].
  - now apply net_amt_at_risk_binary64_returns.
  - intros n v. apply net_amt_at_risk_binary64_floor.
  - now apply net_amt_at_risk_exact.
Qed.

Lemma net_amt_at_risk_nonneg_witness :
  (exists v,
     Binary64.Projection.net_amt_at_risk Binary64.Projection.sample
       Binary64.Projection.no_charge Binary64.Projection.no_charge
       Binary64.Projection.no_charge 8 1 = Some (Ok v) /\
     Forall (fun x => PrimFloat.is_nan x = true \/ (0 <=? x)%float = true) v) /\
  exists q m v w,
    evaluates Sample.cells ("mort_rate", [AInt 1]) (Ok q) /\ in_unit q /\
    evaluates Sample.cells ("mort_rate_mth", [AInt 1]) (Ok m) /\ nonneg m /\
    evaluates Sample.cells ("net_amt_at_risk", [AInt 1]) (Ok v) /\ nonneg v /\
    evaluates Sample.cells ("coi_pp", [AInt 1]) (Ok w) /\ nonneg w.
Proof.
  destruct (net_amt_at_risk_nonneg Sample.pow1 Sample.exp1 Sample.refs
              Binary64.Projection.sample Binary64.Projection.no_charge
              Binary64.Projection.no_charge Binary64.Projection.no_charge 1)
    as ((_ & Hfloor) & _ & Hnar & _ & Hcoi & Hannual); [lia|].
  split.
  { eexists. split; [vm_compute; reflexivity|].
    apply (Hfloor 8%nat). vm_compute. reflexivity. }
  assert (Hq : exists q,
    evaluates Sample.cells ("mort_rate", [AInt 1]) (Ok q) /\ in_unit q).
  { eexists. split; [exists 40%nat; vm_compute; reflexivity|].
    repeat constructor; apply Qle_bool_iff; vm_compute; reflexivity. }
  destruct Hq as (q & Hq & Hu).
  assert (Hm : exists m,
    evaluates Sample.cells ("mort_rate_mth", [AInt 1]) (Ok m) /\ nonneg m).
  { eexists. split; [exists 40%nat; vm_compute; reflexivity|].
    repeat constructor; apply Qle_bool_iff; vm_compute; reflexivity. }
  destruct Hm as (m & Hm & Hpos).
  assert (Hv : exists v,
    evaluates Sample.cells ("net_amt_at_risk", [AInt 1]) (Ok v)).
  { eexists. exists 40%nat. vm_compute. reflexivity. }
  destruct Hv as (v & Hv).
  assert (Hw : exists w, evaluates Sample.cells ("coi_pp", [AInt 1]) (Ok w)).
  { eexists. exists 40%nat. vm_compute. reflexivity. }
  destruct Hw as (w & Hw).
  exists q, m, v, w. repeat split; try assumption.
  - exact (Hnar v Hv).
  - apply (Hannual (fun x Hx => proj2 Hx) q w Hq Hu Hw).
Defined.

(** ** The present-value check *)

Section PVCheck.
Variable R : PV.references.



Lemma beyond_last_t name t :
  In name PV.guarded -> PV.last_t R < t ->
  evaluates (PV.cells R) (name, [AInt t]) (Ok (num 0)).
Proof.
  intros Hin Ht. exists 1%nat.
  now apply guarded_cell_returns_zero.
Qed.
End PVCheck.

Section PVSteps.
Variable R : PV.references.
Variable t : Z.
Hypothesis Ht : t <= PV.last_t R.
Hypothesis Hd : ~ (PV.DiscRate R t == -1)%Q.

Lemma guard_open : (PV.last_t R <? t) = false.
Proof. apply Z.ltb_ge. exact Ht. Qed.




End PVSteps.









(** On the sample references the two present values are computed along
    different paths and so differ as fractions, while being equal as
    numbers. *)
Example PV_check_sample :
  exists a b,
    run Sample.pv_cells 10 ("PV_NetCashflow", [AInt 0]) = Some (Ok (VNum a)) /\
    run Sample.pv_cells 10 ("PV_NetCashflowForCheck", [AInt 0])
      = Some (Ok (VNum b)) /\
    a <> b /\ (a == b)%Q.
Proof.
  eexists _, _. split; [vm_compute; reflexivity|].
  split; [vm_compute; reflexivity|]. split; [discriminate|reflexivity].
Qed.

(** ** Supplements *)

(** X8.  Termination needs [t >= 0]: below 0 the recursion of
    [pols_if_at] never meets its base case, and the call never returns,
    whatever the timing and however deep the nesting may go. *)
Lemma pols_if_at_negative_never_returns fpow fexp R n :
  forall t, t < 0 ->
    run (Projection.cells fpow fexp R) n ("pols_if_at", [AInt t; AStr "BEF_MAT"])
      = None /\
    run (Projection.cells fpow fexp R) n ("pols_if_at", [AInt t; AStr "BEF_NB"])
      = None /\
    run (Projection.cells fpow fexp R) n ("pols_if_at", [AInt t; AStr "BEF_DECR"])
      = None.
Proof.
  induction n as [|n IH]; intros t Ht; [now repeat split|].
  assert (Hb : forall timing,
            body (Projection.cells fpow fexp R)
                 ("pols_if_at", [AInt t; AStr timing])
            = Projection.pols_if_at [AInt t; AStr timing]).
  { intros timing. erewrite body_of; [reflexivity|resolve_cell|reflexivity]. }
  destruct (IH t Ht) as (Hmat & Hnb & _).
  destruct (IH (t - 1) ltac:(lia)) as (_ & _ & Hdecr).
  repeat split.
  - change (exec (run (Projection.cells fpow fexp R) n)
              (body (Projection.cells fpow fexp R)
                    ("pols_if_at", [AInt t; AStr "BEF_MAT"])) = None).
    rewrite Hb. unfold Projection.pols_if_at. decide_timing.
    rewrite arg_eqb_int_ne by lia. cbn [arg_pred lift bind cell exec].
    now rewrite Hdecr.
  - change (exec (run (Projection.cells fpow fexp R) n)
              (body (Projection.cells fpow fexp R)
                    ("pols_if_at", [AInt t; AStr "BEF_NB"])) = None).
    rewrite Hb. unfold Projection.pols_if_at. decide_timing.
    cbn [bind cell exec]. now rewrite Hmat.
  - change (exec (run (Projection.cells fpow fexp R) n)
              (body (Projection.cells fpow fexp R)
                    ("pols_if_at", [AInt t; AStr "BEF_DECR"])) = None).
    rewrite Hb. unfold Projection.pols_if_at. decide_timing.
    cbn [bind cell exec]. now rewrite Hnb.
Qed.

Lemma pols_if_at_negative_never_returns_witness :
  run Sample.cells 40 ("pols_if_at", [AInt (-1); AStr "BEF_MAT"]) = None /\
  run Sample.cells 40 ("pols_if_at", [AInt (-1); AStr "BEF_NB"]) = None /\
  run Sample.cells 40 ("pols_if_at", [AInt (-1); AStr "BEF_DECR"]) = None.
Proof.
  apply (pols_if_at_negative_never_returns Sample.pow1 Sample.exp1
           Sample.refs 40 (-1)).
  lia.
Defined.

(** The recursion of [accum_prem_pp] under the evaluator: evaluating
    [accum_prem_pp(3)] invokes the base case [accum_prem_init_pp()] once,
    and asking for [accum_prem_pp(1)] afterwards invokes nothing. *)
Example accum_prem_pp_memoized :
  call_count ("accum_prem_init_pp", [])
    (after Sample.cells 100 "accum_prem_pp" [AInt 3] empty_state) = 1%nat /\
  calls (after Sample.cells 100 "accum_prem_pp" [AInt 1]
           (after Sample.cells 100 "accum_prem_pp" [AInt 3] empty_state))
  = calls (after Sample.cells 100 "accum_prem_pp" [AInt 3] empty_state) /\
  is_Some (cache (after Sample.cells 100 "accum_prem_pp" [AInt 3] empty_state)
             !! ("accum_prem_pp", [AInt 1])).
Proof.
  split; [|split].
  - vm_compute. reflexivity.
  - vm_compute. reflexivity.
  - vm_compute. eexists. reflexivity.
Qed.

(** X9.  The other fill-on-miss lookup of the space:
    [surr_charge_av(t)] looks up (surrender charge id, duration capped at
    [surr_charge_max_idx()]) in the stacked surrender charge table and
    returns one rate per model point: the table's rate where the pair is
    present and 0 where it is missing.  A model point without surrender
    charge has the empty id, which the table does not have, and gets
    0. *)
Lemma surr_charge_av_fill_on_miss (fpow : Q -> Q -> Q) (fexp : Q -> Q)
    (R : Projection.references) (t : arg) (h : list Q)
    (ids keys : list string) (durs : list Q) (mx : Q) (tab : table)
    (f : frame) :
  evaluates (Projection.cells fpow fexp R) ("has_surr_charge", [])
            (Ok (VArr h)) ->
  evaluates (Projection.cells fpow fexp R) ("surr_charge_id", [])
            (Ok (VStr ids)) ->
  length h = length ids ->
  repeat_strings h ids = Ok keys ->
  evaluates (Projection.cells fpow fexp R) ("duration", [t]) (Ok (VArr durs)) ->
  evaluates (Projection.cells fpow fexp R) ("surr_charge_max_idx", [])
            (Ok (VNum mx)) ->
  evaluates (Projection.cells fpow fexp R) ("surr_charge_table_stacked", [])
            (Ok (VTab tab)) ->
  evaluates (Projection.cells fpow fexp R) ("model_point", [])
            (Ok (VFrame f)) ->
  length durs = length keys ->
  length (index f) = length keys ->
  unique_index tab = true ->
  exists rates,
    evaluates (Projection.cells fpow fexp R) ("surr_charge_av", [t])
              (Ok (VArr rates)) /\
    length rates = length keys /\
    forall i k d,
      nth_error keys i = Some k -> nth_error durs i = Some d ->
      nth_error rates i
      = Some (match lookup2 (LStr k, LNum (Qmin d mx)) tab with
              | Some x => x
              | None => 0%Q
              end).
Proof.
  intros Hh Hid Hlh Hrep Hdur Hmx Htab Hmp Hld Hlf Hu.
  set (mi := zip_labels (List.map LStr keys)
                        (List.map LNum (List.map (fun x => Qmin x mx) durs))).
  assert (Hlen : length mi = length keys).
  { unfold mi. rewrite length_zip_labels; rewrite !List.length_map; auto. }
  destruct (reindex_spec tab mi 0 Hu) as (rates & Hre & Hlr & Hnth).
  exists rates. split; [|split].
  - enter_cell. unfold Projection.surr_charge_av.
    ask Hh. ask Hid. unfold mul. rewrite Hlh, Nat.eqb_refl, Hrep.
    cbn [rbind lift bind]. ask Hdur. ask Hmx.
    change (minimum (VArr durs) (VNum mx))
      with (Ok (VArr (List.map (fun x => Qmin x mx) durs))).
    cbn [lift bind].
    assert (Hmi : multiindex_from_arrays (VStr keys)
                    (VArr (List.map (fun x => Qmin x mx) durs))
                  = Ok mi).
    { unfold multiindex_from_arrays. cbn [labels_of rbind].
      rewrite !List.length_map, Hld, Nat.eqb_refl. reflexivity. }
    rewrite Hmi. cbn [lift bind].
    ask Htab. rewrite Hre. cbn [lift bind].
    ask Hmp. unfold set_axis.
    rewrite Hlr, Hlen, Hlf, Nat.eqb_refl. apply returns_lift.
  - congruence.
  - intros i k d Hk Hd. apply Hnth. unfold mi. apply nth_error_zip_labels.
    + rewrite List.nth_error_map, Hk. reflexivity.
    + rewrite !List.nth_error_map, Hd. reflexivity.
Qed.

Lemma surr_charge_av_fill_on_miss_witness :
  exists rates,
    evaluates Sample.cells ("surr_charge_av", [AInt 2]) (Ok (VArr rates)) /\
    length rates = 2%nat.
Proof.
  destruct (surr_charge_av_fill_on_miss Sample.pow1 Sample.exp1 Sample.refs
              (AInt 2) [0; 1]%Q [""; "type_1"] [""; "type_1"]
              [0; 0]%Q 1%Q
              [ ((LStr "type_1", LNum 0), (1 # 10)%Q);
                ((LStr "type_1", LNum 1), (1 # 20)%Q);
                ((LStr "type_2", LNum 0), (2 # 10)%Q);
                ((LStr "type_2", LNum 1), (1 # 10)%Q) ]
              (Frame [LNum 1; LNum 2]
                 (columns Sample.model_point_table
                  ++ columns Sample.product_spec_table)))
    as (rates & H & Hl & _).
  - exists 5%nat. vm_compute. reflexivity.
  - exists 5%nat. vm_compute. reflexivity.
  - reflexivity.
  - reflexivity.
  - exists 70%nat. vm_compute. reflexivity.
  - exists 5%nat. vm_compute. reflexivity.
  - exists 5%nat. vm_compute. reflexivity.
  - exists 5%nat. vm_compute. reflexivity.
  - reflexivity.
  - reflexivity.
  - reflexivity.
  - exists rates. split; [exact H|exact Hl].
Defined.

(** On the sample portfolio: the first model point has no surrender
    charge, so its key is missing and it gets 0; the second has id
    "type_1" and, not yet issued, a negative duration, also
    missing. *)
Example surr_charge_av_sample :
  run Sample.cells 30 ("surr_charge_av", [AInt 0])
    = Some (Ok (VArr [0%Q; 0%Q])) /\
  run Sample.cells 70 ("surr_charge_av", [AInt 2])
    = Some (Ok (VArr [0%Q; (1 # 10)%Q])).
Proof. split; vm_compute; reflexivity. Qed.

(** * Further properties *)

(** ** The PV space: termination *)

Ltac pv_case_name H :=
  cbv [assoc PVSpec.offsets] in H;
  repeat match type of H with
         | context [if String.eqb ?a ?b then _ else _] =>
             destruct (String.eqb_spec a b); [subst|]; cbv beta iota in H
         end.

Ltac pv_lower :=
  eexists; split;
  [ unfold PVSpec.rank;
    cbv [assoc PVSpec.offsets String.eqb Ascii.eqb Bool.eqb andb];
    reflexivity
  | unfold PVSpec.steps_left; lia ].

Ltac pv_step_requests :=
  first
    [ exact I
    | apply requests_lift
    | apply requests_cell; pv_lower
    | apply requests_bind; [|intros ?]
    | match goal with
      | |- requests _ (if ?a <? ?b then _ else _) =>
          destruct (Z.ltb_spec a b)
      | |- requests _ (match ?v with _ => _ end) => destruct v
      end ].

Lemma assoc_None_not_In {B} name (l : list (string * B)) :
  assoc name l = None -> ~ In name (List.map fst l).
Proof.
  induction l as [|[n b] l IH]; simpl; [tauto|].
  destruct (String.eqb_spec n name); [discriminate|].
  intros H [E|Hin]; [contradiction|]. now apply IH.
Qed.

Lemma find_cell_not_In name l :
  ~ In name (List.map (fun c => fst (fst c)) l) -> find_cell name l = None.
Proof.
  induction l as [|c l IH]; simpl; [reflexivity|].
  intros H. destruct (String.eqb_spec (fst (fst c)) name) as [E|_].
  - exfalso. apply H. now left.
  - apply IH. intros Hin. apply H. now right.
Qed.

Lemma PV_unknown_name (R : PV.references) name :
  assoc name PVSpec.offsets = None ->
  resolve (PV.cells R) name = Err (UnknownCellError name).
Proof.
  intros H. apply assoc_None_not_In in H.
  unfold PV.cells. rewrite resolve_registry_of.
  rewrite find_cell_not_In; [reflexivity|].
  intros Hin. apply H. clear H.
  cbv [List.map PV.cell_list PVSpec.offsets fst snd In] in *.
  intuition.
Qed.

Lemma PV_arity (R : PV.references) name c :
  resolve (PV.cells R) name = Ok c -> arity c = 1%nat.
Proof.
  unfold PV.cells. rewrite resolve_registry_of.
  cbv [find_cell PV.cell_list fst snd].
  repeat match goal with
         | |- context [if String.eqb ?a ?b then _ else _] =>
             destruct (String.eqb a b);
             [intros H; injection H as <-; reflexivity|]
         end.
  intros H; inversion H.
Qed.

(** Every request made by a formula of the PV space goes to a key of
    strictly smaller measure. *)
Lemma PV_requests_decrease (R : PV.references) k r :
  PVSpec.rank R k = Some r ->
  requests (fun k' => exists r', PVSpec.rank R k' = Some r' /\ (r' < r)%nat)
           (body (PV.cells R) k).
Proof.
  intros H. destruct k as [name args].
  assert (Hshort : length args <> 1%nat ->
            requests (fun k' => exists r', PVSpec.rank R k' = Some r'
                                           /\ (r' < r)%nat)
                     (body (PV.cells R) (name, args))).
  { intros Hl. unfold body. cbn [fst snd].
    destruct (resolve (PV.cells R) name) as [c|e] eqn:E; [|exact I].
    rewrite (PV_arity R name c E).
    destruct (Nat.eqb_spec (length args) 1); [contradiction|exact I]. }
  destruct args as [|a [|b args]];
    [apply Hshort; discriminate| |apply Hshort; discriminate].
  clear Hshort. unfold PVSpec.rank in H.
  destruct (assoc name PVSpec.offsets) as [o|] eqn:Eo.
  - injection H as <-.
    pv_case_name Eo; try (exfalso; inversion Eo; fail);
      injection Eo as <-; unfold PV.cells; find_formula;
      cbv beta iota delta
        [PV.InterestNetCF PV.PV_BenefitDeath PV.PV_BenefitMat
         PV.PV_BenefitSurr PV.PV_BenefitTotal PV.PV_Check PV.PV_ExpsAcq
         PV.PV_ExpsCommTotal PV.PV_ExpsMaint PV.PV_ExpsTotal
         PV.PV_NetCashflow PV.PV_NetCashflowForCheck PV.PV_PremIncome
         PV.PV_SumInsurIF PV.discounted_beg PV.discounted_end];
      repeat pv_step_requests.
  - rewrite (body_unknown _ (name, [a]) _ (PV_unknown_name R name Eo)).
    exact I.
Qed.

(** X1.  Every request to the PV space returns for every integer [t],
    negative or beyond [last_t()] included: the recursions run forward in
    [t] and stop at the guard [t > last_t()].  Whatever the name of the
    cell, the plain call returns a result, a value or an error, within
    [3 * max(0, last_t() + 1 - t) + 4] nested calls, and the caching
    evaluator returns the same result from any state of a run. *)
Theorem PV_cells_terminate (R : PV.references) (name : string) (t : Z) :
  exists res,
    run (PV.cells R) (3 * Z.to_nat (PV.last_t R + 1 - t) + 4)
        (name, [AInt t]) = Some res /\
    forall st, reachable (PV.cells R) st ->
      exists st',
        evaluate (PV.cells R) (3 * Z.to_nat (PV.last_t R + 1 - t) + 4)
                 name [AInt t] st = Some (res, st').
Proof.
  assert (exists o, PVSpec.rank R (name, [AInt t])
                    = Some o /\ (o <= 3 * Z.to_nat (PV.last_t R + 1 - t) + 3)%nat)
    as (o & Ho & Hle).
  { unfold PVSpec.rank.
    destruct (assoc name PVSpec.offsets) as [o|] eqn:Eo.
    - eexists; split; [reflexivity|]. unfold PVSpec.steps_left.
      pv_case_name Eo; try (exfalso; inversion Eo; fail);
        injection Eo as <-; lia.
    - eexists; split; [reflexivity|lia]. }
  destruct (run_of_rank _ (PVSpec.rank R) (PV_requests_decrease R) o _ Ho)
    as [res Hres].
  assert (Hrun : run (PV.cells R) (3 * Z.to_nat (PV.last_t R + 1 - t) + 4)
                   (name, [AInt t]) = Some res).
  { eapply run_mono; [exact Hres|lia]. }
  exists res. split; [exact Hrun|].
  intros st Hst. now apply evaluate_complete.
Qed.

Lemma PV_cells_terminate_witness :
  exists res,
    run Sample.pv_cells
        (3 * Z.to_nat (PV.last_t Sample.pv_refs + 1 - 0) + 4)
        ("PV_Check", [AInt 0]) = Some res /\
    forall st, reachable Sample.pv_cells st ->
      exists st',
        evaluate Sample.pv_cells
                 (3 * Z.to_nat (PV.last_t Sample.pv_refs + 1 - 0) + 4)
                 "PV_Check" [AInt 0] st = Some (res, st').
Proof. exact (PV_cells_terminate Sample.pv_refs "PV_Check" 0). Defined.

(** ** The PV space: an unbound reference *)

(** X7.  [PV_BenefitMat] reads a name [BenefitMat] that the references of
    the space do not bind.  When it is unbound, the cell fails with
    [NameError] at every [t <= last_t()], under the plain call and under
    the evaluator from any state of a run, although it returns 0 beyond
    [last_t()]. *)
Theorem PV_BenefitMat_unbound (R : PV.references) (t : Z) :
  PV.BenefitMat R = None ->
  t <= PV.last_t R ->
  evaluates (PV.cells R) ("PV_BenefitMat", [AInt t])
            (Err (NameError "BenefitMat")) /\
  (forall n st, reachable (PV.cells R) st ->
     exists st',
       evaluate (PV.cells R) (S n) "PV_BenefitMat" [AInt t] st
       = Some (Err (NameError "BenefitMat"), st')) /\
  evaluates (PV.cells R) ("PV_BenefitMat", [AInt (PV.last_t R + 1)])
            (Ok (num 0)).
Proof.
  intros Hb Ht.
  assert (Hf : PV.PV_BenefitMat R [AInt t] = Raise (NameError "BenefitMat")).
  { unfold PV.PV_BenefitMat. now rewrite (guard_open R t Ht), Hb. }
  assert (Hrun : run (PV.cells R) 1 ("PV_BenefitMat", [AInt t])
                 = Some (Err (NameError "BenefitMat"))).
  { change (exec (run (PV.cells R) 0)
                 (body (PV.cells R) ("PV_BenefitMat", [AInt t]))
            = Some (Err (NameError "BenefitMat"))).
    erewrite body_of; [|resolve_cell|reflexivity]. now rewrite Hf. }
  split; [now exists 1%nat|]. split.
  - intros n st Hst. apply evaluate_complete; [|exact Hst].
    eapply run_mono; [exact Hrun|lia].
  - apply beyond_last_t; [unfold PV.guarded; simpl; tauto|lia].
Qed.

Lemma PV_BenefitMat_unbound_witness :
  evaluates Sample.pv_cells ("PV_BenefitMat", [AInt 0])
            (Err (NameError "BenefitMat")) /\
  (forall n st, reachable Sample.pv_cells st ->
     exists st',
       evaluate Sample.pv_cells (S n) "PV_BenefitMat" [AInt 0] st
       = Some (Err (NameError "BenefitMat"), st')) /\
  evaluates Sample.pv_cells
            ("PV_BenefitMat", [AInt (PV.last_t Sample.pv_refs + 1)])
            (Ok (num 0)).
Proof.
  apply (PV_BenefitMat_unbound Sample.pv_refs 0).
  - reflexivity.
  - simpl. lia.
Defined.

(** ** The Projection space: durations and lapse rates *)

Lemma nth_error_map_q (f : Q -> Q) l i x :
  nth_error l i = Some x -> nth_error (List.map f l) i = Some (f x).
Proof. intros H. now rewrite List.nth_error_map, H. Qed.

Lemma wrap64_in_range z : - 2 ^ 63 <= z < 2 ^ 63 -> Binary64.wrap64 z = z.
Proof.
  intros Hz. unfold Binary64.wrap64. rewrite Z.mod_small; lia.
Qed.

Lemma wrap64_succ z :
  Binary64.wrap64 (Binary64.wrap64 z + 1) = Binary64.wrap64 (z + 1).
Proof.
  unfold Binary64.wrap64. f_equal.
  replace ((z + 2 ^ 63) mod 2 ^ 64 - 2 ^ 63 + 1 + 2 ^ 63)
    with ((z + 2 ^ 63) mod 2 ^ 64 + 1) by lia.
  rewrite Zplus_mod_idemp_l. f_equal. lia.
Qed.

(** Over 64-bit integers the durations count the months modulo [2^64]. *)
Lemma duration_mth_binary64 (R : Binary64.Projection.references) n :
  (forall r, In r (Binary64.Projection.model_point_table R) ->
     - 2 ^ 63 <= Binary64.Projection.mp_duration_mth r < 2 ^ 63) ->
  forall t, 0 <= t -> (Z.to_nat t < n)%nat ->
    Binary64.Projection.duration_mth R n t
    = Some (Ok (List.map
                  (fun r => Binary64.wrap64
                              (Binary64.Projection.mp_duration_mth r + t))
                  (Binary64.Projection.model_point_table R))).
Proof.
  intros Hr. induction n as [|n IH]; intros t Ht Hn; [lia|].
  cbn [Binary64.Projection.duration_mth].
  destruct (t =? 0) eqn:E.
  - apply Z.eqb_eq in E. subst t. unfold Binary64.oret. do 2 f_equal.
    unfold Binary64.Projection.model_point,
      Binary64.Projection.model_point_table_ext.
    rewrite List.map_map. apply List.map_ext_in. intros r Hin. cbn [fst].
    rewrite Z.add_0_r. symmetry. apply wrap64_in_range. now apply Hr.
  - apply Z.eqb_neq in E. rewrite (IH (t - 1)) by lia.
    cbn [Binary64.obind]. unfold Binary64.oret. do 2 f_equal.
    rewrite List.map_map. apply List.map_ext. intros r.
    rewrite wrap64_succ. f_equal. lia.
Qed.

(** X10.  Durations count the months since time 0.  The [duration_mth]
    column holds 64-bit integers, and for every [t >= 0]
    [duration_mth(t)] is the column plus [t] modulo [2^64], entry by
    entry.  As long as every entry [d] of it satisfies [- 2^63 <= d] and
    [d + t < 2^63], so that no increment wraps around, [duration_mth(t)]
    is the column plus [t], and [duration(t)] is its floor division by
    12, so a model point issued in the future has a negative duration in
    years until its issue. *)
Theorem duration_counts_months (fpow : Q -> Q -> Q) (fexp : Q -> Q)
    (R : Projection.references) (R64 : Binary64.Projection.references)
    (f : frame) (d0 : list Q) (t : Z) :
  evaluates (Projection.cells fpow fexp R) ("model_point", [])
            (Ok (VFrame f)) ->
  assoc "duration_mth" (columns f) = Some (NumCol d0) ->
  (forall d, In d d0 ->
     exists z, (d == inject_Z z)%Q /\ - 2 ^ 63 <= z /\ z + t < 2 ^ 63) ->
  (forall r, In r (Binary64.Projection.model_point_table R64) ->
     - 2 ^ 63 <= Binary64.Projection.mp_duration_mth r < 2 ^ 63) ->
  0 <= t ->
  Binary64.Projection.duration_mth R64 (S (Z.to_nat t)) t
  = Some (Ok (List.map
                (fun r => Binary64.wrap64
                            (Binary64.Projection.mp_duration_mth r + t))
                (Binary64.Projection.model_point_table R64))) /\
  exists months years,
    evaluates (Projection.cells fpow fexp R) ("duration_mth", [AInt t])
              (Ok (VArr months)) /\
    evaluates (Projection.cells fpow fexp R) ("duration", [AInt t])
              (Ok (VArr years)) /\
    length months = length d0 /\
    length years = length d0 /\
    forall i d,
      nth_error d0 i = Some d ->
      (exists m, nth_error months i = Some m /\ (m == d + inject_Z t)%Q) /\
      nth_error years i
      = Some (inject_Z (Qfloor ((d + inject_Z t) / 12))).
Proof.
  intros Hmp Hd0 _ H64 Ht.
  split; [apply duration_mth_binary64; [exact H64|exact Ht|lia]|].
  pose proof (duration_mth_value fpow fexp R f d0 Hmp Hd0 (Z.to_nat t)) as Hm.
  rewrite Z2Nat.id in Hm by exact Ht.
  exists (months_later (Z.to_nat t) d0),
         (List.map (fun x => qfloordiv x (inject_Z 12))
                   (months_later (Z.to_nat t) d0)).
  split; [exact Hm|]. split; [|split; [|split]].
  - enter_cell. unfold Projection.duration. ask Hm. apply returns_lift.
  - apply length_months_later.
  - rewrite List.length_map. apply length_months_later.
  - intros i d Hd.
    destruct (nth_error_months_later (Z.to_nat t) d0 i d Hd) as (m & Hi & E).
    rewrite Z2Nat.id in E by exact Ht. split; [now exists m|].
    rewrite (nth_error_map_q _ _ _ _ Hi). unfold qfloordiv.
    do 2 f_equal. apply Qfloor_comp. now rewrite E.
Qed.

Lemma duration_counts_months_witness :
  Binary64.Projection.duration_mth Binary64.Projection.sample 15 14
  = Some (Ok [15; 12]) /\
  exists months years,
    evaluates Sample.cells ("duration_mth", [AInt 14]) (Ok (VArr months)) /\
    evaluates Sample.cells ("duration", [AInt 14]) (Ok (VArr years)) /\
    length months = length [1; - (2)]%Q /\
    length years = length [1; - (2)]%Q /\
    forall i d,
      nth_error [1; - (2)]%Q i = Some d ->
      (exists m, nth_error months i = Some m /\ (m == d + inject_Z 14)%Q) /\
      nth_error years i
      = Some (inject_Z (Qfloor ((d + inject_Z 14) / 12))).
Proof.
  eapply (duration_counts_months Sample.pow1 Sample.exp1 Sample.refs
            Binary64.Projection.sample).
  - exists 5%nat. vm_compute. reflexivity.
  - reflexivity.
  - intros d [<-|[<-|[]]].
    + exists 1. split; [reflexivity|]. split; [discriminate|reflexivity].
    + exists (- 2). split; [reflexivity|]. split; [discriminate|reflexivity].
  - intros r [<-|[<-|[]]]; simpl; lia.
  - lia.
Defined.

(** X11.  The lapse rate is floored at 2%: whatever the durations,
    every entry of [lapse_rate(t)] is at least 0.02; and it is at most
    10% for every model point whose duration is not negative.  (A model
    point not yet issued has a negative duration and a rate above
    10%.) *)
Theorem lapse_rate_bounds (fpow : Q -> Q -> Q) (fexp : Q -> Q)
    (R : Projection.references) (t : arg) (durs : list Q) :
  evaluates (Projection.cells fpow fexp R) ("duration", [t])
            (Ok (VArr durs)) ->
  exists rates,
    evaluates (Projection.cells fpow fexp R) ("lapse_rate", [t])
              (Ok (VArr rates)) /\
    length rates = length durs /\
    forall i d,
      nth_error durs i = Some d ->
      exists x,
        nth_error rates i = Some x /\
        (1 # 50 <= x)%Q /\
        ((0 <= d)%Q -> (x <= 1 # 10)%Q) /\
        ((d < 0)%Q -> (1 # 10 < x)%Q).
Proof.
  intros Hd.
  exists (List.map (fun y => Qmax y (1 # 50))
            (List.map (fun y => (1 # 10) - y)%Q
               (List.map (Qmult (1 # 50)) durs))).
  split; [|split].
  - enter_cell. unfold Projection.lapse_rate. ask Hd.
    cbn [mul sub maximum broadcast lift bind]. exact (returns_ret _ _).
  - now rewrite !List.length_map.
  - intros i d Hi. eexists. split.
    + apply nth_error_map_q, nth_error_map_q, nth_error_map_q. exact Hi.
    + split; [apply Q.le_max_r|]. split; intros Hs.
      * apply Q.max_lub; [|discriminate].
        assert (0 <= (1 # 50) * d)%Q by (apply Qmult_le_0_compat; [discriminate|exact Hs]).
        lra.
      * apply Qlt_le_trans with ((1 # 10) - (1 # 50) * d)%Q;
          [|apply Q.le_max_l].
        assert (0 < (1 # 50) * - d)%Q by (apply Qmult_lt_0_compat; lra).
        lra.
Qed.

Lemma lapse_rate_bounds_witness :
  exists rates,
    evaluates Sample.cells ("lapse_rate", [AInt 0]) (Ok (VArr rates)) /\
    length rates = length [0; - (1)]%Q /\
    forall i d,
      nth_error [0; - (1)]%Q i = Some d ->
      exists x,
        nth_error rates i = Some x /\
        (1 # 50 <= x)%Q /\
        ((0 <= d)%Q -> (x <= 1 # 10)%Q) /\
        ((d < 0)%Q -> (1 # 10 < x)%Q).
Proof.
  apply (lapse_rate_bounds Sample.pow1 Sample.exp1 Sample.refs (AInt 0)
           [0; - (1)]%Q).
  exists 10%nat. vm_compute. reflexivity.
Defined.

(** ** The Projection space: reading the tables *)

Lemma occurrences_cons a x ages :
  Projection.occurrences a (x :: ages)
  = ((if Qeq_bool a x then 1 else 0) + Projection.occurrences a ages)%nat.
Proof.
  unfold Projection.occurrences. simpl. now destruct (Qeq_bool a x).
Qed.

Lemma occurrences_absent a ages :
  (forall y, In y ages -> Qeq_bool a y = false) ->
  Projection.occurrences a ages = 0%nat.
Proof.
  induction ages as [|x ages IH]; intros H; [reflexivity|].
  rewrite occurrences_cons, (H x (or_introl eq_refl)), IH; [reflexivity|].
  intros y Hy. apply H. now right.
Qed.

(** An age that labels one row only occurs once. *)
Lemma occurrences_unique ages :
  (forall p q x y, nth_error ages p = Some x -> nth_error ages q = Some y ->
     (x == y)%Q -> p = q) ->
  forall a, (Projection.occurrences a ages <= 1)%nat.
Proof.
  induction ages as [|x ages IH]; intros Hu a; [unfold Projection.occurrences; simpl; lia|].
  rewrite occurrences_cons.
  assert (Hu' : forall p q x' y, nth_error ages p = Some x' ->
            nth_error ages q = Some y -> (x' == y)%Q -> p = q).
  { intros p q x' y Hp Hq E.
    assert (S p = S q) as [= ->] by exact (Hu (S p) (S q) x' y Hp Hq E).
    reflexivity. }
  destruct (Qeq_bool a x) eqn:E; [|exact (IH Hu' a)].
  rewrite occurrences_absent; [lia|].
  intros y Hy. destruct (Qeq_bool a y) eqn:E'; [|reflexivity].
  apply Qeq_bool_iff in E, E'.
  destruct (In_nth_error _ _ Hy) as [q Hq].
  assert (O = S q) as [=].
  apply (Hu O (S q) x y eq_refl Hq). now rewrite <- E, E'.
Qed.

Lemma last_age_loop_spec ages rows :
  (forall r, In r rows -> (Projection.occurrences (fst r) ages <= 1)%nat) ->
  rows <> [] ->
  forall acc,
  exists i row,
    nth_error rows i = Some row /\
    Projection.last_age_loop ages rows acc = Ok (VNum (fst row)) /\
    (forall j r, (j < i)%nat -> nth_error rows j = Some r ->
       forallb (fun x => Qeq_bool x 1) (snd r) = false) /\
    (forallb (fun x => Qeq_bool x 1) (snd row) = true
     \/ S i = length rows).
Proof.
  induction rows as [|[a m] rows IH]; [congruence|]. intros Hocc _ acc.
  assert (Ha : Nat.ltb 1 (Projection.occurrences a ages) = false).
  { apply Nat.ltb_ge. exact (Hocc (a, m) (or_introl eq_refl)). }
  assert (Hstep : Projection.last_age_loop ages ((a, m) :: rows) acc
                  = if forallb (fun x => Qeq_bool x 1) m then Ok (VNum a)
                    else Projection.last_age_loop ages rows (Some a)).
  { cbn [Projection.last_age_loop]. now rewrite Ha. }
  destruct (forallb (fun x => Qeq_bool x 1) m) eqn:E.
  - exists O, (a, m). rewrite Hstep. repeat split; auto.
    intros j r Hj. lia.
  - destruct rows as [|r' rows'].
    + exists O, (a, m). rewrite Hstep. repeat split; auto.
      intros j r Hj. lia.
    + destruct (IH ltac:(intros r Hr; apply Hocc; now right)
                   ltac:(discriminate) (Some a))
        as (i & row & Hi & Hl & Hbefore & Hlast).
      exists (S i), row. split; [exact Hi|]. split; [|split].
      * rewrite Hstep. exact Hl.
      * intros [|j] r Hj Hr.
        -- injection Hr as <-. exact E.
        -- apply (Hbefore j r); [lia|exact Hr].
      * destruct Hlast as [Hlast|Hlast]; [now left|right].
        simpl in *. lia.
Qed.

(** X12.  [mort_table_last_age()] reads the mortality table by age.
    When no age labels two rows, it returns the age of the first row
    whose rates are all 1, and, when the table has no such row, the age
    of its last row.  On a table without rows the loop variable is never
    bound and the cell fails with [NameError]; and when the age of the
    first row labels another row too, the rows selected by that age have
    no single truth value and the cell fails with [ValueError]. *)
Theorem mort_table_last_age_first_certain_death (fpow : Q -> Q -> Q)
    (fexp : Q -> Q) (R : Projection.references) :
  (Projection.mt_rows (Projection.mort_table R) = [] ->
   evaluates (Projection.cells fpow fexp R) ("mort_table_last_age", [])
             (Err (NameError "i"))) /\
  (Projection.mt_rows (Projection.mort_table R) <> [] ->
   (forall p q r r',
      nth_error (Projection.mt_rows (Projection.mort_table R)) p = Some r ->
      nth_error (Projection.mt_rows (Projection.mort_table R)) q = Some r' ->
      (fst r == fst r')%Q -> p = q) ->
   exists i row,
     nth_error (Projection.mt_rows (Projection.mort_table R)) i = Some row /\
     evaluates (Projection.cells fpow fexp R) ("mort_table_last_age", [])
               (Ok (VNum (fst row))) /\
     (forall j r, (j < i)%nat ->
        nth_error (Projection.mt_rows (Projection.mort_table R)) j = Some r ->
        forallb (fun x => Qeq_bool x 1) (snd r) = false) /\
     (forallb (fun x => Qeq_bool x 1) (snd row) = true
      \/ S i = length (Projection.mt_rows (Projection.mort_table R)))) /\
  (forall r rows r',
     Projection.mt_rows (Projection.mort_table R) = r :: rows ->
     In r' rows -> (fst r == fst r')%Q ->
     evaluates (Projection.cells fpow fexp R) ("mort_table_last_age", [])
       (Err (ValueError "The truth value of a Series is ambiguous"))).
Proof.
  split; [|split].
  - intros E. enter_cell. unfold Projection.mort_table_last_age.
    rewrite E. apply returns_lift.
  - intros Hne Hu.
    destruct (last_age_loop_spec
                (List.map fst (Projection.mt_rows (Projection.mort_table R)))
                (Projection.mt_rows (Projection.mort_table R)))
      with (acc := @None Q) as (i & row & Hi & Hl & Hbefore & Hlast);
      [|exact Hne|].
    { intros r _. apply occurrences_unique.
      intros p q x y Hp Hq E. rewrite List.nth_error_map in Hp, Hq.
      destruct (nth_error _ p) as [rp|] eqn:Ep; [|discriminate].
      destruct (nth_error _ q) as [rq|] eqn:Eq; [|discriminate].
      injection Hp as <-. injection Hq as <-.
      exact (Hu p q rp rq Ep Eq E). }
    exists i, row. split; [exact Hi|]. split; [|split; assumption].
    enter_cell. unfold Projection.mort_table_last_age.
    rewrite Hl. apply returns_lift.
  - intros [a m] rows r' E Hin Heq. cbn [fst] in Heq.
    enter_cell. unfold Projection.mort_table_last_age. rewrite E.
    cbn [List.map fst Projection.last_age_loop].
    rewrite occurrences_cons.
    replace (Qeq_bool a a) with true by (symmetry; apply Qeq_bool_iff; reflexivity).
    assert (Hocc : (1 <= Projection.occurrences a (List.map fst rows))%nat).
    { clear E. induction rows as [|x rows IH]; [contradiction|].
      cbn [List.map]. rewrite occurrences_cons. destruct Hin as [->|Hin].
      - replace (Qeq_bool a (fst r')) with true
          by (symmetry; now apply Qeq_bool_iff). lia.
      - specialize (IH Hin). lia. }
    replace (Nat.ltb 1 (1 + Projection.occurrences a (List.map fst rows)))
      with true by (symmetry; apply Nat.ltb_lt; lia).
    apply returns_lift.
Qed.

Lemma mort_table_last_age_first_certain_death_witness :
  exists i row,
    nth_error (Projection.mt_rows (Projection.mort_table Sample.refs)) i
    = Some row /\
    evaluates Sample.cells ("mort_table_last_age", [])
              (Ok (VNum (fst row))) /\
    (forall j r, (j < i)%nat ->
       nth_error (Projection.mt_rows (Projection.mort_table Sample.refs)) j
       = Some r ->
       forallb (fun x => Qeq_bool x 1) (snd r) = false) /\
    (forallb (fun x => Qeq_bool x 1) (snd row) = true
     \/ S i = length (Projection.mt_rows (Projection.mort_table Sample.refs))).
Proof.
  apply (mort_table_last_age_first_certain_death Sample.pow1 Sample.exp1
           Sample.refs).
  - simpl. discriminate.
  - intros p q r r' Hp Hq E.
    destruct p as [|[|[|p]]]; destruct q as [|[|[|q]]];
      simpl in Hp, Hq; try (destruct p; discriminate Hp);
      try (destruct q; discriminate Hq); try reflexivity;
      injection Hp as <-; injection Hq as <-; discriminate E.
Defined.

Lemma np_index_map {A B} (f : A -> B) (l : list A) i :
  np_index (List.map f l) i
  = match np_index l i with
    | Ok a => Ok (f a)
    | Err e => Err e
    end.
Proof.
  unfold np_index. rewrite List.length_map.
  destruct ((0 <=? _) && (_ <? _)); [|reflexivity].
  rewrite List.nth_error_map.
  now destruct (nth_error l _).
Qed.

Lemma np_index_in_range {A} (l : list A) i :
  - Z.of_nat (length l) <= i < Z.of_nat (length l) ->
  exists a,
    nth_error l (Z.to_nat (i mod Z.of_nat (length l))) = Some a /\
    np_index l i = Ok a.
Proof.
  intros Hi. unfold np_index.
  set (n := Z.of_nat (length l)) in *.
  assert (Hj : (if i <? 0 then i + n else i) = i mod n).
  { destruct (Z.ltb_spec i 0).
    - apply Z.mod_unique with (-1); lia.
    - symmetry. apply Z.mod_small. lia. }
  rewrite Hj.
  assert (Hr : 0 <= i mod n < n) by (apply Z.mod_pos_bound; lia).
  replace ((0 <=? i mod n) && (i mod n <? n)) with true
    by (symmetry; apply andb_true_intro; split;
        [apply Z.leb_le|apply Z.ltb_lt]; lia).
  destruct (nth_error l (Z.to_nat (i mod n))) as [a|] eqn:E.
  - now exists a.
  - apply nth_error_None in E. lia.
Qed.

Lemma np_index_out_of_range {A} (l : list A) i :
  i < - Z.of_nat (length l) \/ Z.of_nat (length l) <= i ->
  np_index l i = Err IndexError.
Proof.
  intros Hi. unfold np_index.
  set (n := Z.of_nat (length l)) in *.
  destruct (Z.ltb_spec i 0).
  - replace (0 <=? i + n) with false by (symmetry; apply Z.leb_gt; lia).
    reflexivity.
  - replace (i <? n) with false by (symmetry; apply Z.ltb_ge; lia).
    now rewrite andb_false_r.
Qed.

(** X13.  [inv_return_mth(t)] indexes the row of random numbers of the
    scenario by [t] as numpy does.  Within [-n <= t < n], for a row of
    [n] numbers, it returns the return computed from entry [t mod n]: a
    negative [t] silently reads from the end of the row.  Outside that
    range, in particular at every [t >= n], it fails with
    [IndexError]. *)
Theorem inv_return_mth_index (fpow : Q -> Q -> Q) (fexp : Q -> Q)
    (R : Projection.references) (row : list Q) (t : Z) :
  np_index (Projection.std_norm_rand R) (Projection.scen_id R) = Ok row ->
  (- Z.of_nat (length row) <= t < Z.of_nat (length row) ->
   exists z,
     nth_error row (Z.to_nat (t mod Z.of_nat (length row))) = Some z /\
     evaluates (Projection.cells fpow fexp R) ("inv_return_mth", [AInt t])
       (Ok (VNum (fexp ((1 # 50) * 1 / 12
                        + (3 # 100) * fpow (1 / 12) (1 # 2) * z) - 1)%Q))) /\
  (t < - Z.of_nat (length row) \/ Z.of_nat (length row) <= t ->
   evaluates (Projection.cells fpow fexp R) ("inv_return_mth", [AInt t])
             (Err IndexError)).
Proof.
  intros Hrow.
  assert (Htab : evaluates (Projection.cells fpow fexp R)
                   ("inv_return_table", [])
                   (Ok (VMat (List.map (List.map (fun z =>
                      fexp ((1 # 50) * 1 / 12
                            + (3 # 100) * fpow (1 / 12) (1 # 2) * z) - 1)%Q)
                      (Projection.std_norm_rand R))))).
  { enter_cell. unfold Projection.inv_return_table. apply returns_ret. }
  split; intros Ht.
  - destruct (np_index_in_range row t Ht) as (z & Hz & Hi).
    exists z. split; [exact Hz|].
    enter_cell. unfold Projection.inv_return_mth. ask Htab. cbv iota.
    rewrite np_index_map, Hrow. cbn [lift bind arg_int].
    rewrite np_index_map, Hi. cbn [lift bind]. apply returns_ret.
  - enter_cell. unfold Projection.inv_return_mth. ask Htab. cbv iota.
    rewrite np_index_map, Hrow. cbn [lift bind arg_int].
    rewrite np_index_map, (np_index_out_of_range row t Ht).
    cbn [lift bind]. apply returns_raise.
Qed.

Lemma inv_return_mth_index_witness :
  (- Z.of_nat (length [1 # 10; 0; 0; 0]%Q) <= 0
   < Z.of_nat (length [1 # 10; 0; 0; 0]%Q) ->
   exists z,
     nth_error [1 # 10; 0; 0; 0]%Q
               (Z.to_nat (0 mod Z.of_nat (length [1 # 10; 0; 0; 0]%Q)))
     = Some z /\
     evaluates Sample.cells ("inv_return_mth", [AInt 0])
       (Ok (VNum (Sample.exp1 ((1 # 50) * 1 / 12
                    + (3 # 100) * Sample.pow1 (1 / 12) (1 # 2) * z) - 1)%Q))) /\
  (0 < - Z.of_nat (length [1 # 10; 0; 0; 0]%Q)
   \/ Z.of_nat (length [1 # 10; 0; 0; 0]%Q) <= 0 ->
   evaluates Sample.cells ("inv_return_mth", [AInt 0]) (Err IndexError)).
Proof.
  apply (inv_return_mth_index Sample.pow1 Sample.exp1 Sample.refs
           [1 # 10; 0; 0; 0]%Q 0).
  reflexivity.
Defined.

Lemma max_of_spec l :
  l <> [] ->
  exists m, Projection.max_of l = Ok m /\ In m l /\
            forall x, In x l -> (x <= m)%Q.
Proof.
  induction l as [|x l IH]; [congruence|]. intros _.
  destruct l as [|y l'].
  - exists x. simpl. repeat split; auto.
    intros z [<-|[]]. apply Qle_refl.
  - destruct (IH ltac:(discriminate)) as (m & Hm & Hin & Hmax).
    change (Projection.max_of (x :: y :: l'))
      with (rbind (Projection.max_of (y :: l'))
                  (fun m => Ok (if Qle_bool m x then x else m))).
    rewrite Hm. cbn [rbind].
    destruct (Qle_bool m x) eqn:E.
    + apply Qle_bool_iff in E. exists x. split; [reflexivity|].
      split; [now left|]. intros z [<-|Hz]; [apply Qle_refl|].
      apply Qle_trans with m; [now apply Hmax|exact E].
    + exists m. split; [reflexivity|]. split; [now right|].
      intros z [<-|Hz]; [|now apply Hmax].
      apply Qlt_le_weak, Qnot_le_lt. intros Hle.
      apply Qle_bool_iff in Hle. congruence.
Qed.

(** X14.  [surr_charge_max_idx()] is the largest duration the surrender
    charge table lists: it returns a duration of the table that no other
    duration of the table exceeds, and fails with [ValueError] on a table
    without rows. *)
Theorem surr_charge_max_idx_is_greatest (fpow : Q -> Q -> Q) (fexp : Q -> Q)
    (R : Projection.references) :
  (Projection.sc_rows (Projection.surr_charge_table R) = [] ->
   evaluates (Projection.cells fpow fexp R) ("surr_charge_max_idx", [])
             (Err (ValueError "max() arg is an empty sequence"))) /\
  (Projection.sc_rows (Projection.surr_charge_table R) <> [] ->
   exists m,
     evaluates (Projection.cells fpow fexp R) ("surr_charge_max_idx", [])
               (Ok (VNum m)) /\
     In m (List.map fst (Projection.sc_rows (Projection.surr_charge_table R)))
     /\
     forall d,
       In d (List.map fst
               (Projection.sc_rows (Projection.surr_charge_table R))) ->
       (d <= m)%Q).
Proof.
  split.
  - intros E. enter_cell. unfold Projection.surr_charge_max_idx.
    rewrite E. apply returns_raise.
  - intros Hne.
    destruct (max_of_spec
                (List.map fst
                   (Projection.sc_rows (Projection.surr_charge_table R))))
      as (m & Hm & Hin & Hmax).
    { intros E. apply Hne. now destruct (Projection.sc_rows _). }
    exists m. split; [|split; assumption].
    enter_cell. unfold Projection.surr_charge_max_idx.
    rewrite Hm. apply returns_ret.
Qed.

Lemma surr_charge_max_idx_is_greatest_witness :
  exists m,
    evaluates Sample.cells ("surr_charge_max_idx", []) (Ok (VNum m)) /\
    In m (List.map fst
            (Projection.sc_rows (Projection.surr_charge_table Sample.refs)))
    /\
    forall d,
      In d (List.map fst
              (Projection.sc_rows (Projection.surr_charge_table Sample.refs)))
      -> (d <= m)%Q.
Proof.
  apply (surr_charge_max_idx_is_greatest Sample.pow1 Sample.exp1 Sample.refs).
  simpl. discriminate.
Defined.

(** ** The Projection space: the reindexed mortality table *)

Lemma lookup2_app k (t1 t2 : table) :
  lookup2 k (t1 ++ t2)
  = match lookup2 k t1 with
    | Some x => Some x
    | None => lookup2 k t2
    end.
Proof.
  induction t1 as [|[k' x] t1 IH]; simpl; [reflexivity|].
  now destruct (pair_eqb k' k).
Qed.

Lemma unique_index_app (t1 t2 : table) :
  unique_index t1 = true -> unique_index t2 = true ->
  (forall e, In e t1 -> lookup2 (fst e) t2 = None) ->
  unique_index (t1 ++ t2) = true.
Proof.
  induction t1 as [|[k x] t1 IH]; simpl; intros H1 H2 H; [exact H2|].
  rewrite lookup2_app.
  destruct (lookup2 k t1) eqn:E; [discriminate|].
  pose proof (H (k, x) (or_introl eq_refl)) as Hk. cbn [fst] in Hk.
  rewrite Hk. apply IH; auto.
Qed.

Section MortColumn.
Variable rows : list (Q * list Q).
Variables (j : nat) (col : Z).

Lemma lookup2_column_other_duration a d :
  ~ (inject_Z col == d)%Q ->
  lookup2 (LNum a, LNum d)
    (List.map (fun r => ((LNum (fst r), LNum (inject_Z col)),
                         nth j (snd r) 0%Q)) rows) = None.
Proof.
  intros Hne. induction rows as [|r l IH]; [reflexivity|].
  simpl. unfold pair_eqb. simpl.
  destruct (Qeq_bool (inject_Z col) d) eqn:E.
  - apply Qeq_bool_iff in E. contradiction.
  - rewrite andb_false_r. exact IH.
Qed.

Lemma lookup2_column_other_age a d :
  Forall (fun r => ~ (fst r == a)%Q) rows ->
  lookup2 (LNum a, LNum d)
    (List.map (fun r => ((LNum (fst r), LNum (inject_Z col)),
                         nth j (snd r) 0%Q)) rows) = None.
Proof.
  induction 1 as [|r l Hr _ IH]; [reflexivity|].
  simpl. unfold pair_eqb. simpl.
  destruct (Qeq_bool (fst r) a) eqn:E.
  - apply Qeq_bool_iff in E. contradiction.
  - exact IH.
Qed.

Lemma lookup2_column_hit :
  ForallOrdPairs (fun r r' => ~ (fst r == fst r')%Q) rows ->
  forall r, In r rows ->
    lookup2 (LNum (fst r), LNum (inject_Z col))
      (List.map (fun r => ((LNum (fst r), LNum (inject_Z col)),
                           nth j (snd r) 0%Q)) rows)
    = Some (nth j (snd r) 0%Q).
Proof.
  induction 1 as [|r0 l H0 _ IH]; intros r Hin; [destruct Hin|].
  simpl. unfold pair_eqb. simpl.
  destruct Hin as [->|Hin].
  - now rewrite !Qeq_bool_refl.
  - destruct (Qeq_bool (fst r0) (fst r)) eqn:E.
    + apply Qeq_bool_iff in E. exfalso.
      rewrite List.Forall_forall in H0. exact (H0 r Hin E).
    + simpl. now apply IH.
Qed.

Lemma unique_column :
  ForallOrdPairs (fun r r' => ~ (fst r == fst r')%Q) rows ->
  unique_index
    (List.map (fun r => ((LNum (fst r), LNum (inject_Z col)),
                         nth j (snd r) 0%Q)) rows) = true.
Proof.
  induction 1 as [|r0 l H0 _ IH]; [reflexivity|].
  simpl.
  assert (E : lookup2 (LNum (fst r0), LNum (inject_Z col))
                (List.map (fun r => ((LNum (fst r), LNum (inject_Z col)),
                                     nth j (snd r) 0%Q)) l) = None).
  { clear IH. induction H0 as [|r l Hr _ IH]; [reflexivity|].
    simpl. unfold pair_eqb. simpl.
    destruct (Qeq_bool (fst r) (fst r0)) eqn:E.
    - apply Qeq_bool_iff in E. exfalso. apply Hr. now symmetry.
    - exact IH. }
  rewrite E. exact IH.
Qed.

Lemma column_keys e :
  In e (List.map (fun r => ((LNum (fst r), LNum (inject_Z col)),
                            nth j (snd r) 0%Q)) rows) ->
  exists a, fst e = (LNum a, LNum (inject_Z col)).
Proof.
  intros Hin. apply List.in_map_iff in Hin as (r & <- & _).
  now exists (fst r).
Qed.
End MortColumn.

Lemma inject_Z_distinct c c' : c <> c' -> ~ (inject_Z c == inject_Z c')%Q.
Proof. intros Hne E. apply Hne. now apply inject_Z_injective. Qed.

Section MortColumns.
Variable R : Projection.references.

Lemma lookup2_columns_other_duration cols a d :
  forall j,
    Forall (fun c => ~ (inject_Z c == d)%Q) cols ->
    lookup2 (LNum a, LNum d)
            (List.concat (Projection.mort_columns_from R j cols)) = None.
Proof.
  induction cols as [|c cols IH]; intros j H; [reflexivity|].
  inversion H as [|? ? Hc Hcols]; subst. simpl.
  rewrite lookup2_app. unfold Projection.mort_column.
  rewrite (lookup2_column_other_duration _ j c a d Hc).
  now apply IH.
Qed.

Lemma lookup2_columns_other_age cols a d :
  forall j,
    Forall (fun r => ~ (fst r == a)%Q)
           (Projection.mt_rows (Projection.mort_table R)) ->
    lookup2 (LNum a, LNum d)
            (List.concat (Projection.mort_columns_from R j cols)) = None.
Proof.
  induction cols as [|c cols IH]; intros j H; [reflexivity|]. simpl.
  rewrite lookup2_app. unfold Projection.mort_column.
  rewrite (lookup2_column_other_age _ j c a d H).
  now apply IH.
Qed.

Lemma lookup2_columns_hit cols :
  NoDup cols ->
  ForallOrdPairs (fun r r' => ~ (fst r == fst r')%Q)
                 (Projection.mt_rows (Projection.mort_table R)) ->
  forall j i c r,
    nth_error cols i = Some c ->
    In r (Projection.mt_rows (Projection.mort_table R)) ->
    lookup2 (LNum (fst r), LNum (inject_Z c))
            (List.concat (Projection.mort_columns_from R j cols))
    = Some (nth (j + i) (snd r) 0%Q).
Proof.
  intros Hnd Hrows. induction Hnd as [|c0 cols Hc0 Hnd IH];
    intros j [|i] c r Hc Hr; try discriminate; simpl.
  - injection Hc as <-. rewrite lookup2_app, Nat.add_0_r.
    unfold Projection.mort_column.
    now rewrite (lookup2_column_hit _ j c0 Hrows r Hr).
  - rewrite lookup2_app. unfold Projection.mort_column.
    rewrite (lookup2_column_other_duration _ j c0).
    + rewrite (IH (S j) i c r Hc Hr). f_equal. f_equal. lia.
    + apply inject_Z_distinct. intros ->. apply Hc0.
      apply list_elem_of_In. eapply List.nth_error_In. exact Hc.
Qed.

Lemma unique_columns cols :
  NoDup cols ->
  ForallOrdPairs (fun r r' => ~ (fst r == fst r')%Q)
                 (Projection.mt_rows (Projection.mort_table R)) ->
  forall j,
    unique_index (List.concat (Projection.mort_columns_from R j cols)) = true.
Proof.
  intros Hnd Hrows. induction Hnd as [|c0 cols Hc0 Hnd IH]; intros j;
    [reflexivity|].
  simpl. apply unique_index_app.
  - unfold Projection.mort_column. now apply unique_column.
  - apply IH.
  - intros e He. unfold Projection.mort_column in He.
    destruct (column_keys _ j c0 e He) as [a ->].
    apply lookup2_columns_other_duration.
    apply List.Forall_forall. intros c Hc. apply inject_Z_distinct.
    intros ->. apply Hc0. now apply list_elem_of_In.
Qed.
End MortColumns.

(** X15.  Reshaping the mortality table keeps every rate where a lookup
    by (age, duration) finds it.  When the ages of the table are pairwise
    different numbers and its column labels pairwise different,
    [mort_table_reindexed()] returns a table with a duplicate-free index
    in which the rate in the row of age [a] and the [j]-th column,
    labelled [c], is stored under [(a, c)], and in which no entry is
    stored under an age or under a duration the table does not have.
    A mortality table without columns leaves nothing to concatenate and
    the cell fails with [ValueError]. *)
Theorem mort_table_reindexed_lookup (fpow : Q -> Q -> Q) (fexp : Q -> Q)
    (R : Projection.references) :
  (Projection.mt_columns (Projection.mort_table R) = [] ->
   evaluates (Projection.cells fpow fexp R) ("mort_table_reindexed", [])
             (Err (ValueError "No objects to concatenate"))) /\
  (Projection.mt_columns (Projection.mort_table R) <> [] ->
   NoDup (Projection.mt_columns (Projection.mort_table R)) ->
   ForallOrdPairs (fun r r' => ~ (fst r == fst r')%Q)
                  (Projection.mt_rows (Projection.mort_table R)) ->
   exists tab,
     evaluates (Projection.cells fpow fexp R) ("mort_table_reindexed", [])
               (Ok (VTab tab)) /\
     unique_index tab = true /\
     (forall r j c,
        In r (Projection.mt_rows (Projection.mort_table R)) ->
        nth_error (Projection.mt_columns (Projection.mort_table R)) j
        = Some c ->
        lookup2 (LNum (fst r), LNum (inject_Z c)) tab
        = Some (nth j (snd r) 0%Q)) /\
     (forall a d,
        Forall (fun r => ~ (fst r == a)%Q)
               (Projection.mt_rows (Projection.mort_table R))
        \/ Forall (fun c => ~ (inject_Z c == d)%Q)
                  (Projection.mt_columns (Projection.mort_table R)) ->
        lookup2 (LNum a, LNum d) tab = None)).
Proof.
  split.
  - intros E. enter_cell. unfold Projection.mort_table_reindexed.
    rewrite E. apply returns_raise.
  - intros Hne Hnd Hrows.
    exists (List.concat
              (Projection.mort_columns_from R 0
                 (Projection.mt_columns (Projection.mort_table R)))).
    split; [|split; [|split]].
    + enter_cell. unfold Projection.mort_table_reindexed.
      destruct (Projection.mt_columns (Projection.mort_table R))
        as [|c cols]; [congruence|].
      apply returns_ret.
    + now apply unique_columns.
    + intros r j c Hr Hc.
      exact (lookup2_columns_hit R _ Hnd Hrows 0%nat j c r Hc Hr).
    + intros a d [H|H].
      * now apply lookup2_columns_other_age.
      * now apply lookup2_columns_other_duration.
Qed.

Lemma mort_table_reindexed_lookup_witness :
  exists tab,
    evaluates Sample.cells ("mort_table_reindexed", []) (Ok (VTab tab)) /\
    unique_index tab = true /\
    (forall r j c,
       In r (Projection.mt_rows (Projection.mort_table Sample.refs)) ->
       nth_error (Projection.mt_columns (Projection.mort_table Sample.refs)) j
       = Some c ->
       lookup2 (LNum (fst r), LNum (inject_Z c)) tab
       = Some (nth j (snd r) 0%Q)) /\
    (forall a d,
       Forall (fun r => ~ (fst r == a)%Q)
              (Projection.mt_rows (Projection.mort_table Sample.refs))
       \/ Forall (fun c => ~ (inject_Z c == d)%Q)
                 (Projection.mt_columns (Projection.mort_table Sample.refs)) ->
       lookup2 (LNum a, LNum d) tab = None).
Proof.
  apply (mort_table_reindexed_lookup Sample.pow1 Sample.exp1 Sample.refs).
  - simpl. discriminate.
  - simpl. apply NoDup_ListNoDup.
    repeat constructor; simpl; intuition discriminate.
  - simpl. repeat constructor; intros H; discriminate H.
Defined.

(** ** The Projection space: the model points *)

Lemma assoc_app {B} name (l1 l2 : list (string * B)) :
  assoc name (l1 ++ l2)
  = match assoc name l1 with
    | Some b => Some b
    | None => assoc name l2
    end.
Proof.
  induction l1 as [|[n b] l1 IH]; simpl; [reflexivity|].
  now destruct (String.eqb n name).
Qed.

Lemma assoc_In {B} name (l : list (string * B)) b :
  assoc name l = Some b -> In (name, b) l.
Proof.
  induction l as [|[n b'] l IH]; simpl; [discriminate|].
  destruct (String.eqb_spec n name) as [->|_].
  - intros [= ->]. now left.
  - intros H. right. now apply IH.
Qed.

Lemma find_pos_lt x l p : find_pos x l = Some p -> (p < length l)%nat.
Proof.
  revert p. induction l as [|y l IH]; simpl; intros p; [discriminate|].
  destruct (label_eqb y x).
  - intros [= <-]. lia.
  - destruct (find_pos x l) as [q|]; simpl; [|discriminate].
    intros [= <-]. specialize (IH q eq_refl). lia.
Qed.

Lemma positions_spec ids idx :
  (forall i, In i ids -> find_pos i idx <> None) ->
  exists ps,
    positions ids idx = Ok ps /\
    length ps = length ids /\
    Forall (fun p => (p < length idx)%nat) ps /\
    forall k i, nth_error ids k = Some i ->
      exists p, find_pos i idx = Some p /\ nth_error ps k = Some p.
Proof.
  induction ids as [|i ids IH]; intros H.
  - exists []. repeat split; auto. intros [|k] i; discriminate.
  - destruct IH as (ps & Hps & Hl & Hlt & Hn).
    { intros i' Hi'. apply H. now right. }
    destruct (find_pos i idx) as [p|] eqn:E;
      [|exfalso; now apply (H i (or_introl eq_refl))].
    exists (p :: ps). simpl. rewrite E, Hps. simpl.
    split; [reflexivity|]. split; [now rewrite Hl|]. split.
    + constructor; [now apply (find_pos_lt i)|exact Hlt].
    + intros [|k] i'; simpl.
      * intros [= <-]. now exists p.
      * apply Hn.
Qed.

Lemma pick_spec {B} (l : list B) ps :
  Forall (fun p => (p < length l)%nat) ps ->
  exists bs,
    pick l ps = Ok bs /\
    length bs = length ps /\
    forall k p, nth_error ps k = Some p -> nth_error bs k = nth_error l p.
Proof.
  induction 1 as [|p ps Hp _ (bs & Hbs & Hl & Hn)].
  - exists []. repeat split; auto. intros [|k] p; discriminate.
  - destruct (nth_error l p) as [b|] eqn:E;
      [|apply nth_error_None in E; lia].
    exists (b :: bs). simpl. rewrite E, Hbs. simpl.
    split; [reflexivity|]. split; [now rewrite Hl|].
    intros [|k] q; simpl.
    + intros [= <-]. now rewrite E.
    + apply Hn.
Qed.

Lemma pick_column_spec c ps :
  Forall (fun p => (p < length (column_labels c))%nat) ps ->
  exists c',
    pick_column c ps = Ok c' /\
    length (column_labels c') = length ps /\
    (forall k p, nth_error ps k = Some p ->
       nth_error (column_labels c') k = nth_error (column_labels c) p) /\
    match c, c' with
    | NumCol _, NumCol _ | StrCol _, StrCol _ => True
    | _, _ => False
    end.
Proof.
  destruct c as [l|l]; simpl; rewrite List.length_map; intros H;
    destruct (pick_spec l ps H) as (bs & Hbs & Hl & Hn); rewrite Hbs; simpl.
  - exists (NumCol bs). simpl. rewrite List.length_map.
    repeat split; auto. intros k p Hk.
    now rewrite !List.nth_error_map, (Hn k p Hk).
  - exists (StrCol bs). simpl. rewrite List.length_map.
    repeat split; auto. intros k p Hk.
    now rewrite !List.nth_error_map, (Hn k p Hk).
Qed.

Lemma pick_columns_spec cs ps n :
  (forall nc, In nc cs -> length (column_labels (snd nc)) = n) ->
  Forall (fun p => (p < n)%nat) ps ->
  exists cs',
    pick_columns cs ps = Ok cs' /\
    forall name c, assoc name cs = Some c ->
      exists c',
        assoc name cs' = Some c' /\
        length (column_labels c') = length ps /\
        (forall k p, nth_error ps k = Some p ->
           nth_error (column_labels c') k = nth_error (column_labels c) p) /\
        match c, c' with
        | NumCol _, NumCol _ | StrCol _, StrCol _ => True
        | _, _ => False
        end.
Proof.
  intros Hlen Hps. induction cs as [|[nm c0] cs IH].
  - exists []. split; [reflexivity|]. intros name c; discriminate.
  - destruct IH as (cs' & Hcs' & Hn).
    { intros nc Hnc. apply Hlen. now right. }
    destruct (pick_column_spec c0 ps) as (c0' & Hc0' & Hl0 & Hn0 & Hk0).
    { pose proof (Hlen (nm, c0) (or_introl eq_refl)) as H0.
      cbn [snd] in H0. rewrite H0. exact Hps. }
    exists ((nm, c0') :: cs'). simpl. rewrite Hc0', Hcs'. simpl.
    split; [reflexivity|]. intros name c.
    destruct (String.eqb nm name).
    + intros [= <-]. now exists c0'.
    + apply Hn.
Qed.

(** X16.  The model points are the model point table joined with the
    product specifications on [spec_id].  When no column name occurs in
    both tables, the columns of the specification table are as long as
    its index, the labels of that index are pairwise different and every
    [spec_id] of a model point is one of them, [model_point()] returns a frame with the index and the columns
    of the model point table unchanged, followed by the columns of the
    specification table, where the entry of model point [k] is the entry
    of the specification row labelled with its [spec_id].  Without a
    [spec_id] column the join fails with [KeyError]; with a column name
    in both tables it fails with [ValueError]. *)
Theorem model_point_joins_product_spec (fpow : Q -> Q -> Q) (fexp : Q -> Q)
    (R : Projection.references) :
  (assoc "spec_id" (columns (Projection.model_point_table R)) = None ->
   evaluates (Projection.cells fpow fexp R) ("model_point", [])
             (Err (KeyError "spec_id"))) /\
  (forall ids name c,
     assoc "spec_id" (columns (Projection.model_point_table R)) = Some ids ->
     In (name, c) (columns (Projection.product_spec_table R)) ->
     assoc name (columns (Projection.model_point_table R)) <> None ->
     evaluates (Projection.cells fpow fexp R) ("model_point", [])
       (Err (ValueError "columns overlap but no suffix specified"))) /\
  (forall ids,
     assoc "spec_id" (columns (Projection.model_point_table R)) = Some ids ->
     (forall nc, In nc (columns (Projection.product_spec_table R)) ->
        assoc (fst nc) (columns (Projection.model_point_table R)) = None) ->
     (forall nc, In nc (columns (Projection.product_spec_table R)) ->
        length (column_labels (snd nc))
        = length (index (Projection.product_spec_table R))) ->
     (forall p q l l',
        nth_error (index (Projection.product_spec_table R)) p = Some l ->
        nth_error (index (Projection.product_spec_table R)) q = Some l' ->
        label_eqb l l' = true -> p = q) ->
     (forall s, In s (column_labels ids) ->
        find_pos s (index (Projection.product_spec_table R)) <> None) ->
     exists f,
       evaluates (Projection.cells fpow fexp R) ("model_point", [])
                 (Ok (VFrame f)) /\
       index f = index (Projection.model_point_table R) /\
       (forall name c,
          assoc name (columns (Projection.model_point_table R)) = Some c ->
          assoc name (columns f) = Some c) /\
       (forall name c,
          assoc name (columns (Projection.product_spec_table R)) = Some c ->
          exists c',
            assoc name (columns f) = Some c' /\
            length (column_labels c') = length (column_labels ids) /\
            (forall k s, nth_error (column_labels ids) k = Some s ->
               exists p,
                 find_pos s (index (Projection.product_spec_table R))
                 = Some p /\
                 nth_error (column_labels c') k
                 = nth_error (column_labels c) p) /\
            match c, c' with
            | NumCol _, NumCol _ | StrCol _, StrCol _ => True
            | _, _ => False
            end)).
Proof.
  assert (Hvia : forall r,
            join_on (Projection.model_point_table R)
                    (Projection.product_spec_table R) "spec_id" = r ->
            evaluates (Projection.cells fpow fexp R) ("model_point", []) r).
  { intros r Hr. enter_cell. unfold Projection.model_point.
    apply returns_cell. enter_cell.
    unfold Projection.model_point_table_ext. rewrite Hr. apply returns_lift. }
  split; [|split].
  - intros E. apply Hvia. unfold join_on. now rewrite E.
  - intros ids name c Hids Hin Hover. apply Hvia. unfold join_on.
    rewrite Hids.
    replace (existsb _ (columns (Projection.product_spec_table R)))
      with true; [reflexivity|].
    symmetry. apply existsb_exists. exists (name, c). split; [exact Hin|].
    simpl. destruct (assoc name _); [reflexivity|congruence].
  - intros ids Hids Hno Hlen _ Hfound.
    destruct (positions_spec (column_labels ids)
                (index (Projection.product_spec_table R)) Hfound)
      as (ps & Hps & Hlps & Hlt & Hpos).
    destruct (pick_columns_spec
                (columns (Projection.product_spec_table R)) ps _ Hlen Hlt)
      as (cs & Hcs & Hpick).
    exists (Frame (index (Projection.model_point_table R))
                  (columns (Projection.model_point_table R) ++ cs)).
    split; [|split; [reflexivity|split]].
    + apply Hvia. unfold join_on. rewrite Hids.
      replace (existsb _ (columns (Projection.product_spec_table R)))
        with false.
      * rewrite Hps. cbn [rbind]. rewrite Hcs. reflexivity.
      * symmetry. apply not_true_is_false. intros E.
        apply existsb_exists in E as (nc & Hnc & E).
        now rewrite (Hno nc Hnc) in E.
    + intros name c Hc. cbn [columns]. now rewrite assoc_app, Hc.
    + intros name c Hc. cbn [columns].
      destruct (Hpick name c Hc) as (c' & Hc' & Hl & Hn & Hk).
      exists c'. split; [|split; [|split]].
      * rewrite assoc_app.
        pose proof (Hno (name, c) (assoc_In _ _ _ Hc)) as H0.
        cbn [fst] in H0. now rewrite H0.
      * now rewrite Hl.
      * intros k s Hs. destruct (Hpos k s Hs) as (p & Hp & Hkp).
        exists p. split; [exact Hp|]. now apply Hn.
      * exact Hk.
Qed.

Lemma model_point_joins_product_spec_witness :
  exists f,
    evaluates Sample.cells ("model_point", []) (Ok (VFrame f)) /\
    index f = index (Projection.model_point_table Sample.refs) /\
    (forall name c,
       assoc name (columns (Projection.model_point_table Sample.refs))
       = Some c ->
       assoc name (columns f) = Some c) /\
    (forall name c,
       assoc name (columns (Projection.product_spec_table Sample.refs))
       = Some c ->
       exists c',
         assoc name (columns f) = Some c' /\
         length (column_labels c') = length (column_labels (StrCol ["A"; "B"]))
         /\
         (forall k s,
            nth_error (column_labels (StrCol ["A"; "B"])) k = Some s ->
            exists p,
              find_pos s (index (Projection.product_spec_table Sample.refs))
              = Some p /\
              nth_error (column_labels c') k
              = nth_error (column_labels c) p) /\
         match c, c' with
         | NumCol _, NumCol _ | StrCol _, StrCol _ => True
         | _, _ => False
         end).
Proof.
  apply (model_point_joins_product_spec Sample.pow1 Sample.exp1 Sample.refs).
  - reflexivity.
  - intros nc Hnc. simpl in Hnc.
    repeat (destruct Hnc as [<-|Hnc]; [reflexivity|]). destruct Hnc.
  - intros nc Hnc. simpl in Hnc.
    repeat (destruct Hnc as [<-|Hnc]; [reflexivity|]). destruct Hnc.
  - intros p q l l' Hp Hq He.
    destruct p as [|[|[|p]]], q as [|[|[|q]]]; simpl in Hp, Hq;
      try discriminate; try reflexivity;
      injection Hp as <-; injection Hq as <-; discriminate He.
  - intros s Hs. simpl in Hs.
    repeat (destruct Hs as [<-|Hs]; [discriminate|]). destruct Hs.
Defined.

(** ** The Projection space: the stacked surrender charge table *)

Lemma label_eqb_refl a : label_eqb a a = true.
Proof. destruct a; simpl; [apply Qeq_bool_refl|apply String.eqb_refl]. Qed.

Lemma label_eqb_sym a b : label_eqb a b = label_eqb b a.
Proof.
  destruct a as [x|x], b as [y|y]; simpl; try reflexivity.
  - destruct (Qeq_bool x y) eqn:E, (Qeq_bool y x) eqn:E'; try reflexivity.
    + apply Qeq_bool_iff in E. apply Qeq_bool_neq in E'. exfalso.
      apply E'. now symmetry.
    + apply Qeq_bool_iff in E'. apply Qeq_bool_neq in E. exfalso.
      apply E. now symmetry.
  - apply String.eqb_sym.
Qed.

Lemma label_eqb_trans a b c :
  label_eqb a b = true -> label_eqb b c = true -> label_eqb a c = true.
Proof.
  destruct a as [x|x], b as [y|y], c as [z|z]; simpl; try discriminate.
  - intros H1 H2. apply Qeq_bool_iff in H1, H2. apply Qeq_bool_iff.
    now rewrite H1.
  - intros H1 H2. apply String.eqb_eq in H1, H2. subst. apply String.eqb_refl.
Qed.

Lemma pair_eqb_refl k : pair_eqb k k = true.
Proof. unfold pair_eqb. now rewrite !label_eqb_refl. Qed.

Lemma pair_eqb_sym k k' : pair_eqb k k' = pair_eqb k' k.
Proof.
  unfold pair_eqb.
  now rewrite (label_eqb_sym (fst k)), (label_eqb_sym (snd k)).
Qed.

Lemma pair_eqb_trans k1 k2 k3 :
  pair_eqb k1 k2 = true -> pair_eqb k2 k3 = true -> pair_eqb k1 k3 = true.
Proof.
  unfold pair_eqb. intros H1 H2.
  apply andb_prop in H1 as [A1 B1]. apply andb_prop in H2 as [A2 B2].
  apply andb_true_intro. split; eapply label_eqb_trans; eassumption.
Qed.

Lemma lookup2_insert_sorted e t k :
  lookup2 (fst e) t = None ->
  lookup2 k (Projection.insert_sorted e t)
  = if pair_eqb (fst e) k then Some (snd e) else lookup2 k t.
Proof.
  destruct e as [ke x]. cbn [fst snd].
  induction t as [|[k' y] t IH]; intros Hnone; simpl; [reflexivity|].
  simpl in Hnone. destruct (pair_eqb k' ke) eqn:E; [discriminate|].
  destruct (Projection.pair_leb ke k'); simpl; [reflexivity|].
  rewrite (IH Hnone).
  destruct (pair_eqb k' k) eqn:E1; [|reflexivity].
  destruct (pair_eqb ke k) eqn:E2; [|reflexivity].
  exfalso. rewrite pair_eqb_sym in E2.
  rewrite (pair_eqb_trans _ _ _ E1 E2) in E. discriminate.
Qed.

Lemma unique_insert_sorted e t :
  unique_index t = true -> lookup2 (fst e) t = None ->
  unique_index (Projection.insert_sorted e t) = true.
Proof.
  destruct e as [ke x]. cbn [fst].
  induction t as [|[k' y] t IH]; intros Hu Hnone; simpl; [reflexivity|].
  simpl in Hu, Hnone.
  destruct (pair_eqb k' ke) eqn:E; [discriminate|].
  destruct (lookup2 k' t) eqn:Ek'; [discriminate|].
  destruct (Projection.pair_leb ke k'); simpl.
  - now rewrite E, Hnone, Ek'.
  - rewrite (lookup2_insert_sorted (ke, x) t k' Hnone). cbn [fst snd].
    rewrite pair_eqb_sym, E, Ek'. now apply IH.
Qed.

Lemma sort_index_keeps t :
  unique_index t = true ->
  unique_index (Projection.sort_index t) = true /\
  forall k, lookup2 k (Projection.sort_index t) = lookup2 k t.
Proof.
  induction t as [|[k0 x] t IH]; intros Hu; [now split|].
  simpl in Hu. destruct (lookup2 k0 t) eqn:E0; [discriminate|].
  destruct (IH Hu) as [Hu' Hl].
  assert (Hnone : lookup2 (fst (k0, x)) (Projection.sort_index t) = None)
    by (cbn [fst]; now rewrite Hl).
  split.
  - now apply (unique_insert_sorted (k0, x)).
  - intros k. unfold Projection.sort_index. cbn [fold_right].
    fold (Projection.sort_index t).
    rewrite (lookup2_insert_sorted (k0, x) _ k Hnone). cbn [fst snd].
    simpl. now rewrite Hl.
Qed.

Lemma label_leb_total a b :
  Projection.label_leb a b = false -> Projection.label_leb b a = true.
Proof.
  destruct a as [x|x], b as [y|y]; simpl; try discriminate; auto.
  - intros H. apply Qle_bool_iff. apply Qlt_le_weak, Qnot_le_lt.
    intros Hle. apply Qle_bool_iff in Hle. congruence.
  - intros H. destruct (String.leb_total x y) as [E|E]; congruence.
Qed.

Lemma pair_leb_total a b :
  Projection.pair_leb a b = false -> Projection.pair_leb b a = true.
Proof.
  unfold Projection.pair_leb. rewrite (label_eqb_sym (fst b)).
  destruct (label_eqb (fst a) (fst b)); apply label_leb_total.
Qed.

Lemma sorted_index_cons e e' t :
  sorted_index (e :: e' :: t)
  = Projection.pair_leb (fst e) (fst e') && sorted_index (e' :: t).
Proof. reflexivity. Qed.

Lemma sorted_insert_sorted e t :
  sorted_index t = true ->
  sorted_index (Projection.insert_sorted e t) = true.
Proof.
  induction t as [|e1 t IH]; intros Hs; [reflexivity|].
  cbn [Projection.insert_sorted].
  destruct (Projection.pair_leb (fst e) (fst e1)) eqn:E.
  - now rewrite sorted_index_cons, E, Hs.
  - apply pair_leb_total in E.
    destruct t as [|e2 t].
    + cbn [Projection.insert_sorted]. rewrite sorted_index_cons, E.
      reflexivity.
    + rewrite sorted_index_cons in Hs. apply andb_prop in Hs as [H12 Hs].
      specialize (IH Hs). cbn [Projection.insert_sorted] in IH |- *.
      destruct (Projection.pair_leb (fst e) (fst e2)) eqn:E2.
      * now rewrite sorted_index_cons, E, IH.
      * now rewrite sorted_index_cons, H12, IH.
Qed.

Lemma sorted_sort_index t : sorted_index (Projection.sort_index t) = true.
Proof.
  induction t as [|e t IH]; [reflexivity|].
  unfold Projection.sort_index. cbn [fold_right].
  now apply sorted_insert_sorted.
Qed.

Lemma lookup2_reorder a b t :
  lookup2 (a, b) (Projection.reorder_levels_1_0 t) = lookup2 (b, a) t.
Proof.
  induction t as [|[[k1 k2] x] t IH]; [reflexivity|].
  simpl. unfold pair_eqb. simpl. rewrite IH.
  now rewrite (andb_comm (label_eqb k2 a)).
Qed.

Lemma unique_reorder t :
  unique_index (Projection.reorder_levels_1_0 t) = unique_index t.
Proof.
  induction t as [|[[k1 k2] x] t IH]; [reflexivity|].
  simpl. rewrite lookup2_reorder, IH. reflexivity.
Qed.

Section StackRow.
Variable d : Q.

Lemma lookup2_stack_row_other_duration cols vals d' c :
  ~ (d == d')%Q ->
  lookup2 (LNum d', LStr c) (Projection.stack_row d cols vals) = None.
Proof.
  intros Hne. revert vals. induction cols as [|c0 cols IH]; intros [|v vals];
    try reflexivity.
  simpl. unfold pair_eqb. simpl.
  destruct (Qeq_bool d d') eqn:E.
  - apply Qeq_bool_iff in E. contradiction.
  - apply IH.
Qed.

Lemma lookup2_stack_row_other_column cols vals d' c :
  ~ In c cols ->
  lookup2 (LNum d', LStr c) (Projection.stack_row d cols vals) = None.
Proof.
  revert vals. induction cols as [|c0 cols IH]; intros [|v vals] Hc;
    try reflexivity.
  simpl. unfold pair_eqb. simpl.
  destruct (String.eqb_spec c0 c) as [->|_].
  - exfalso. apply Hc. now left.
  - rewrite andb_false_r. apply IH. intros H. apply Hc. now right.
Qed.

Lemma lookup2_stack_row_hit cols :
  NoDup cols ->
  forall vals j c v,
    nth_error cols j = Some c -> nth_error vals j = Some v ->
    lookup2 (LNum d, LStr c) (Projection.stack_row d cols vals) = Some v.
Proof.
  induction 1 as [|c0 cols Hc0 _ IH]; intros [|v0 vals] [|j] c v Hc Hv;
    try discriminate; simpl; unfold pair_eqb; simpl.
  - injection Hc as <-. injection Hv as <-.
    now rewrite Qeq_bool_refl, String.eqb_refl.
  - destruct (String.eqb_spec c0 c) as [->|_].
    + exfalso. apply Hc0. apply list_elem_of_In.
      eapply List.nth_error_In. exact Hc.
    + rewrite andb_false_r. now apply (IH vals j).
Qed.

Lemma stack_row_keys cols vals e :
  In e (Projection.stack_row d cols vals) ->
  exists c, fst e = (LNum d, LStr c) /\ In c cols.
Proof.
  revert vals. induction cols as [|c0 cols IH]; intros [|v vals] H;
    simpl in H; try contradiction.
  destruct H as [<-|H].
  - exists c0. split; [reflexivity|now left].
  - destruct (IH vals H) as (c & Hc & Hin). exists c. split; [exact Hc|].
    now right.
Qed.

Lemma unique_stack_row cols :
  NoDup cols ->
  forall vals, unique_index (Projection.stack_row d cols vals) = true.
Proof.
  induction 1 as [|c0 cols Hc0 _ IH]; intros [|v vals]; try reflexivity.
  simpl. rewrite lookup2_stack_row_other_column; [apply IH|].
  intros Hin. apply Hc0. now apply list_elem_of_In.
Qed.
End StackRow.

Section Stack.
Variable cols : list string.
Hypothesis Hcols : NoDup cols.

Lemma lookup2_stack_other_duration rows d c :
  Forall (fun r => ~ (fst r == d)%Q) rows ->
  lookup2 (LNum d, LStr c)
    (List.concat (List.map (fun r => Projection.stack_row (fst r) cols (snd r))
                           rows)) = None.
Proof.
  induction 1 as [|r rows Hr _ IH]; [reflexivity|]. simpl.
  now rewrite lookup2_app, (lookup2_stack_row_other_duration _ _ _ _ _ Hr).
Qed.

Lemma lookup2_stack_other_column rows d c :
  ~ In c cols ->
  lookup2 (LNum d, LStr c)
    (List.concat (List.map (fun r => Projection.stack_row (fst r) cols (snd r))
                           rows)) = None.
Proof.
  intros Hc. induction rows as [|r rows IH]; [reflexivity|]. simpl.
  now rewrite lookup2_app, (lookup2_stack_row_other_column _ _ _ _ _ Hc).
Qed.

Lemma lookup2_stack_hit rows :
  ForallOrdPairs (fun r r' => ~ (fst r == fst r')%Q) rows ->
  forall r j c v,
    In r rows -> nth_error cols j = Some c -> nth_error (snd r) j = Some v ->
    lookup2 (LNum (fst r), LStr c)
      (List.concat (List.map (fun r => Projection.stack_row (fst r) cols (snd r))
                             rows)) = Some v.
Proof.
  induction 1 as [|r0 rows H0 _ IH]; intros r j c v Hr Hc Hv;
    [destruct Hr|].
  simpl. rewrite lookup2_app. destruct Hr as [->|Hr].
  - now rewrite (lookup2_stack_row_hit _ _ Hcols _ j c v Hc Hv).
  - rewrite lookup2_stack_row_other_duration.
    + now apply (IH r j c v).
    + rewrite List.Forall_forall in H0. now apply H0.
Qed.

Lemma unique_stack rows :
  ForallOrdPairs (fun r r' => ~ (fst r == fst r')%Q) rows ->
  unique_index
    (List.concat (List.map (fun r => Projection.stack_row (fst r) cols (snd r))
                           rows)) = true.
Proof.
  induction 1 as [|r0 rows H0 _ IH]; [reflexivity|].
  simpl. apply unique_index_app.
  - now apply unique_stack_row.
  - exact IH.
  - intros e He. destruct (stack_row_keys _ _ _ _ He) as (c & -> & _).
    apply lookup2_stack_other_duration.
    apply List.Forall_forall. intros r Hr E.
    rewrite List.Forall_forall in H0. apply (H0 r Hr). now symmetry.
Qed.
End Stack.

(** X17.  Stacking, reordering and sorting the surrender charge table
    keeps every charge where a lookup by (id, duration) finds it.  When
    the durations of the table are pairwise different numbers and its
    column ids pairwise different, [surr_charge_table_stacked()] returns
    a table sorted by (id, duration), with a duplicate-free index, in
    which the charge in the row of duration [d] and the column of id [c]
    is stored under [(c, d)], and in which no entry is stored under an id
    or under a duration the table does not have. *)
Theorem surr_charge_table_stacked_lookup (fpow : Q -> Q -> Q) (fexp : Q -> Q)
    (R : Projection.references) :
  NoDup (Projection.sc_columns (Projection.surr_charge_table R)) ->
  ForallOrdPairs (fun r r' => ~ (fst r == fst r')%Q)
                 (Projection.sc_rows (Projection.surr_charge_table R)) ->
  exists tab,
    evaluates (Projection.cells fpow fexp R) ("surr_charge_table_stacked", [])
              (Ok (VTab tab)) /\
    sorted_index tab = true /\
    unique_index tab = true /\
    (forall r j c v,
       In r (Projection.sc_rows (Projection.surr_charge_table R)) ->
       nth_error (Projection.sc_columns (Projection.surr_charge_table R)) j
       = Some c ->
       nth_error (snd r) j = Some v ->
       lookup2 (LStr c, LNum (fst r)) tab = Some v) /\
    (forall c d,
       ~ In c (Projection.sc_columns (Projection.surr_charge_table R))
       \/ Forall (fun r => ~ (fst r == d)%Q)
                 (Projection.sc_rows (Projection.surr_charge_table R)) ->
       lookup2 (LStr c, LNum d) tab = None).
Proof.
  intros Hcols Hrows.
  pose proof (unique_stack _ Hcols _ Hrows) as Hu.
  fold (Projection.stack (Projection.surr_charge_table R)) in Hu.
  rewrite <- unique_reorder in Hu.
  destruct (sort_index_keeps _ Hu) as [Hus Hl].
  eexists. split; [|split; [|split; [|split]]].
  - enter_cell. unfold Projection.surr_charge_table_stacked.
    apply returns_ret.
  - apply sorted_sort_index.
  - exact Hus.
  - intros r j c v Hr Hc Hv. rewrite Hl, lookup2_reorder.
    exact (lookup2_stack_hit _ Hcols _ Hrows r j c v Hr Hc Hv).
  - intros c d H. rewrite Hl, lookup2_reorder. destruct H as [H|H].
    + now apply lookup2_stack_other_column.
    + now apply lookup2_stack_other_duration.
Qed.

Lemma surr_charge_table_stacked_lookup_witness :
  exists tab,
    evaluates Sample.cells ("surr_charge_table_stacked", [])
              (Ok (VTab tab)) /\
    sorted_index tab = true /\
    unique_index tab = true /\
    (forall r j c v,
       In r (Projection.sc_rows (Projection.surr_charge_table Sample.refs)) ->
       nth_error (Projection.sc_columns
                    (Projection.surr_charge_table Sample.refs)) j
       = Some c ->
       nth_error (snd r) j = Some v ->
       lookup2 (LStr c, LNum (fst r)) tab = Some v) /\
    (forall c d,
       ~ In c (Projection.sc_columns
                 (Projection.surr_charge_table Sample.refs))
       \/ Forall (fun r => ~ (fst r == d)%Q)
                 (Projection.sc_rows
                    (Projection.surr_charge_table Sample.refs)) ->
       lookup2 (LStr c, LNum d) tab = None).
Proof.
  apply (surr_charge_table_stacked_lookup Sample.pow1 Sample.exp1
           Sample.refs).
  - simpl. apply NoDup_ListNoDup.
    repeat constructor; simpl; intuition discriminate.
  - simpl. repeat constructor; intros H; discriminate H.
Defined.

(** ** The Projection space: premiums, terms and maturities *)

Lemma length_zip_with_q_min f l1 l2 :
  length (zip_with_q f l1 l2) = Nat.min (length l1) (length l2).
Proof.
  revert l2. induction l1 as [|x l1 IH]; intros [|y l2]; simpl; auto.
Qed.

Lemma broadcast_arrays f l1 l2 :
  length l1 = length l2 ->
  broadcast f (VArr l1) (VArr l2) = Ok (VArr (zip_with_q f l1 l2)).
Proof. intros H. simpl. now rewrite H, Nat.eqb_refl. Qed.

Ltac lengths :=
  repeat first [ rewrite length_zip_with_q_min | rewrite List.length_map ];
  repeat match goal with
         | H : length ?x = _ |- context [length ?x] => rewrite H
         end;
  rewrite ?Nat.min_id; lia.

Ltac same_length :=
  match goal with
  | |- context [Nat.eqb (length ?a) (length ?b)] =>
      replace (Nat.eqb (length a) (length b)) with true
        by (symmetry; apply Nat.eqb_eq; lengths)
  end.

Ltac arrays :=
  repeat (cbn [sub add mul lt gt eq_num eq_str num maximum minimum
               broadcast lift bind];
          try same_length).


Section ModelPointColumns.
Variables (fpow : Q -> Q -> Q) (fexp : Q -> Q).
Variable R : Projection.references.
Variable f : frame.
Hypothesis Hmp :
  evaluates (Projection.cells fpow fexp R) ("model_point", []) (Ok (VFrame f)).



End ModelPointColumns.







(** ** The whole Projection space: termination *)

Lemma find_cell_app name l1 l2 :
  find_cell name (l1 ++ l2)
  = match find_cell name l1 with
    | Some c => Some c
    | None => find_cell name l2
    end.
Proof.
  induction l1 as [|c l1 IH]; simpl; [reflexivity|].
  now destruct (String.eqb (fst (fst c)) name).
Qed.

Lemma requests_impl {A} (P P' : key -> Prop) (c : comp A) :
  (forall k, P k -> P' k) -> requests P c -> requests P' c.
Proof.
  intros HP. induction c as [a|e|k cont IH]; simpl; auto.
  intros [Hk Hc]. split; [now apply HP|]. intros v. now apply IH.
Qed.

Ltac full_resolve_cell :=
  unfold FullSample.cells, Cashflows.cells; rewrite resolve_registry_of;
  match goal with
  | |- context [find_cell ?n ?l] =>
      let x := eval cbv [find_cell Cashflows.cell_list Projection.cell_list
                         app String.eqb Ascii.eqb Bool.eqb andb fst snd] in
                 (find_cell n l) in
      change (find_cell n l) with x
  end;
  reflexivity.

Ltac full_enter_cell :=
  apply evaluates_returns;
  erewrite body_of; [|full_resolve_cell|reflexivity].

Section WholeSpace.
Variables (fpow : Q -> Q -> Q) (fexp : Q -> Q).
Variable R : Projection.references.

Lemma ranked_name_not_cashflow name args r :
  Projection.rank (name, args) = Some r ->
  find_cell name (Cashflows.cell_list fpow) = None.
Proof.
  intros H. apply find_cell_not_In. intros Hin.
  cbv [List.map Cashflows.cell_list fst In] in Hin.
  repeat (destruct Hin as [<-|Hin];
          [destruct args as [|[t| |] [|[|kind|] [|? ?]]];
           cbv [Projection.rank assoc Projection.offsets0
                Projection.offsets1 Projection.offsets2
                Projection.offsets_none String.eqb Ascii.eqb Bool.eqb
                andb] in H;
           try discriminate H;
           unfold Projection.at_time in H;
           destruct (0 <=? t); discriminate H|]).
  exact Hin.
Qed.

Lemma ranked_body name args r :
  Projection.rank (name, args) = Some r ->
  body (Cashflows.cells fpow fexp R) (name, args)
  = body (Projection.cells fpow fexp R) (name, args).
Proof.
  intros H. unfold body, Cashflows.cells, Projection.cells.
  rewrite !resolve_registry_of. cbn [fst snd].
  now rewrite find_cell_app, (ranked_name_not_cashflow name args r H).
Qed.

Lemma full_rank_base k r :
  Projection.rank k = Some r -> Cashflows.rank k = Some r.
Proof. intros H. unfold Cashflows.rank. now rewrite H. Qed.

Lemma full_rank0 name n :
  assoc name Projection.offsets0 = None ->
  assoc name Cashflows.offsets0 = Some n ->
  Cashflows.rank (name, []) = Some n.
Proof.
  intros H0 H. unfold Cashflows.rank, Projection.rank. now rewrite H0.
Qed.

Lemma full_rank1 name t n :
  0 <= t ->
  assoc name Projection.offsets1 = None ->
  assoc name Cashflows.offsets1 = Some n ->
  Cashflows.rank (name, [AInt t]) = Some (30 * Z.to_nat t + n)%nat.
Proof.
  intros Ht H0 H. unfold Cashflows.rank, Projection.rank. rewrite H0.
  unfold Projection.at_time at 1. destruct (0 <=? t); cbn [option_map].
  - now apply rank_at_time.
  - now apply rank_at_time.
Qed.

Lemma rank_no_kind t :
  0 <= t ->
  Projection.rank ("claims", [AInt t; ANone])
  = Some (30 * Z.to_nat t + 24)%nat.
Proof. intros Ht. now apply rank_at_time. Qed.

Ltac full_lower :=
  eexists; split;
  [ first [ apply full_rank_base;
            first [ apply rank1; [lia|reflexivity]
                  | eapply rank2; [lia|reflexivity|reflexivity]
                  | apply rank_no_kind; lia
                  | reflexivity ]
          | apply full_rank1; [lia|reflexivity|reflexivity]
          | apply full_rank0; reflexivity ]
  | lia ].

Ltac full_step_requests :=
  first
    [ exact I
    | apply requests_lift
    | apply requests_cell; full_lower
    | apply requests_bind; [|intros ?]
    | match goal with
      | |- requests _ (match ?v with _ => _ end) => destruct v
      end ].

Ltac full_case_name H :=
  cbv [assoc Cashflows.offsets0 Cashflows.offsets1] in H;
  repeat match type of H with
         | context [if String.eqb ?a ?b then _ else _] =>
             destruct (String.eqb_spec a b); [subst|]; cbv beta iota in H
         end;
  try (exfalso; inversion H; fail).

Ltac full_find_formula :=
  unfold body, Cashflows.cells; rewrite resolve_registry_of;
  match goal with
  | |- context [find_cell ?n ?l] =>
      let x := eval cbv [find_cell Cashflows.cell_list Projection.cell_list
                         app String.eqb Ascii.eqb Bool.eqb andb fst snd] in
                 (find_cell n l) in
      change (find_cell n l) with x
  end;
  cbv beta iota delta [fst snd arity formula length Nat.eqb].

(** Every request made by a formula of the whole space goes to a key of
    strictly smaller measure. *)
Lemma full_requests_decrease k r :
  Cashflows.rank k = Some r ->
  requests (fun k' => exists r', Cashflows.rank k' = Some r' /\ (r' < r)%nat)
           (body (Cashflows.cells fpow fexp R) k).
Proof.
  intros H. destruct k as [name args]. unfold Cashflows.rank in H.
  destruct (Projection.rank (name, args)) as [r0|] eqn:E0.
  - injection H as <-. rewrite (ranked_body name args r0 E0).
    eapply requests_impl; [|exact (requests_decrease fpow fexp R _ _ E0)].
    intros k' (r' & Hr' & Hlt). exists r'. split; [|exact Hlt].
    now apply full_rank_base.
  - destruct args as [|[t| |] [|? ?]]; try (exfalso; inversion H; fail).
    + full_case_name H; injection H as <-; full_find_formula;
        cbv beta iota delta
          [Cashflows.expense_acq Cashflows.expense_maint
           Cashflows.inflation_rate Cashflows.loading_prem Cashflows.sex
           Cashflows.proj_len Cashflows.max_proj_len];
        repeat full_step_requests.
    + apply at_time_inv in H as (Ht & n & H & ->).
      full_case_name H; injection H as <-; full_find_formula;
        cbv beta iota delta
          [Cashflows.av_change Cashflows.check_av_roll_fwd
           Cashflows.check_margin Cashflows.claims_over_av
           Cashflows.commissions Cashflows.expenses
           Cashflows.inflation_factor Cashflows.inv_income
           Cashflows.maint_fee Cashflows.margin_expense
           Cashflows.margin_mortality Cashflows.net_cf Cashflows.prem_to_av
           Cashflows.premiums];
        cbn [arg_succ arg_int lift bind];
        repeat full_step_requests.
Qed.

(** On the keys of the cells defined before the cashflow cells, the
    whole space returns what those cells return among themselves. *)
Lemma full_space_agrees r :
  forall k, Projection.rank k = Some r ->
    run (Cashflows.cells fpow fexp R) (S r) k
    = run (Projection.cells fpow fexp R) (S r) k.
Proof.
  induction r as [r IH] using lt_wf_ind. intros [name args] Hk.
  change (exec (run (Cashflows.cells fpow fexp R) r)
               (body (Cashflows.cells fpow fexp R) (name, args))
          = exec (run (Projection.cells fpow fexp R) r)
                 (body (Projection.cells fpow fexp R) (name, args))).
  rewrite (ranked_body name args r Hk).
  pose proof (requests_decrease fpow fexp R _ _ Hk) as Hreq.
  induction (body (Projection.cells fpow fexp R) (name, args))
    as [a|e|k' cont IHc]; simpl; try reflexivity.
  destruct Hreq as [(r' & Hr' & Hlt) Hcont].
  assert (E : run (Cashflows.cells fpow fexp R) r k'
              = run (Projection.cells fpow fexp R) r k').
  { destruct (ranked_key_returns fpow fexp R k' r' Hr') as [res Hres].
    rewrite (run_mono _ _ r _ _ Hres) by lia.
    apply (run_mono _ (S r')); [|lia].
    now rewrite (IH r' Hlt k' Hr'). }
  rewrite E. destruct (run (Projection.cells fpow fexp R) r k') as [[v|e]|];
    try reflexivity.
  apply IHc. apply Hcont.
Qed.
End WholeSpace.

(** X21.  With the cashflow, margin and check cells the space still
    terminates: every key of the whole space that has a measure returns,
    that is each of its cells at every [t >= 0], with every timing or kind
    it recognizes.  The plain call returns within the measure of the key
    (plus one) nested calls, and the caching evaluator returns the same
    result from any state of a run. *)
Theorem whole_space_terminates (fpow : Q -> Q -> Q) (fexp : Q -> Q)
    (R : Projection.references) (name : string) (args : list arg) (r : nat) :
  Cashflows.rank (name, args) = Some r ->
  exists res,
    run (Cashflows.cells fpow fexp R) (S r) (name, args) = Some res /\
    forall st, reachable (Cashflows.cells fpow fexp R) st ->
      exists st',
        evaluate (Cashflows.cells fpow fexp R) (S r) name args st
        = Some (res, st').
Proof.
  intros Hr.
  destruct (run_of_rank _ Cashflows.rank
              (full_requests_decrease fpow fexp R) r _ Hr) as [res Hres].
  exists res. split; [exact Hres|].
  intros st Hst. now apply evaluate_complete.
Qed.

Lemma whole_space_terminates_witness :
  exists res,
    run FullSample.cells 94 ("check_margin", [AInt 1]) = Some res /\
    forall st, reachable FullSample.cells st ->
      exists st',
        evaluate FullSample.cells 94 "check_margin" [AInt 1] st
        = Some (res, st').
Proof.
  apply (whole_space_terminates Sample.pow1 Sample.exp1 Sample.refs
           "check_margin" [AInt 1] 93).
  reflexivity.
Defined.

(** ** The whole Projection space: death claims and projection lengths *)





(** ** The whole Projection space: rolling forward one month *)

Ltac entries :=
  repeat first [ apply nth_error_zip_with_q
               | apply nth_error_map_q
               | eassumption ].

Section RollForward.
Variables (fpow : Q -> Q -> Q) (fexp : Q -> Q).
Variable R : Projection.references.
Variable t : Z.
Hypothesis Ht : 0 <= t.

(** Per policy: the account value before the premium, the loading, the
    premium, the maintenance fee, the cost of insurance and the
    investment income of the month. *)
Variables A ld pp mf c ii : list Q.
(** Policies: in force before maturity, maturing, new, dying, lapsing,
    and maturing next month. *)
Variables N mat nb d l mat' : list Q.

Hypothesis HA :
  evaluates (Cashflows.cells fpow fexp R)
            ("av_pp_at", [AInt t; AStr "BEF_PREM"]) (Ok (VArr A)).
Hypothesis Hld :
  evaluates (Cashflows.cells fpow fexp R) ("load_prem_rate", [])
            (Ok (VArr ld)).
Hypothesis Hpp :
  evaluates (Cashflows.cells fpow fexp R) ("premium_pp", [AInt t])
            (Ok (VArr pp)).
Hypothesis Hmf :
  evaluates (Cashflows.cells fpow fexp R) ("maint_fee_pp", [AInt t])
            (Ok (VArr mf)).
Hypothesis Hc :
  evaluates (Cashflows.cells fpow fexp R) ("coi_pp", [AInt t])
            (Ok (VArr c)).
Hypothesis Hii :
  evaluates (Cashflows.cells fpow fexp R) ("inv_income_pp", [AInt t])
            (Ok (VArr ii)).
Hypothesis HN :
  evaluates (Cashflows.cells fpow fexp R)
            ("pols_if_at", [AInt t; AStr "BEF_MAT"]) (Ok (VArr N)).
Hypothesis Hmat :
  evaluates (Cashflows.cells fpow fexp R) ("pols_maturity", [AInt t])
            (Ok (VArr mat)).
Hypothesis Hnb :
  evaluates (Cashflows.cells fpow fexp R) ("pols_new_biz", [AInt t])
            (Ok (VArr nb)).
Hypothesis Hd :
  evaluates (Cashflows.cells fpow fexp R) ("pols_death", [AInt t])
            (Ok (VArr d)).
Hypothesis Hl :
  evaluates (Cashflows.cells fpow fexp R) ("pols_lapse", [AInt t])
            (Ok (VArr l)).
Hypothesis Hmat' :
  evaluates (Cashflows.cells fpow fexp R) ("pols_maturity", [AInt (t + 1)])
            (Ok (VArr mat')).

Variable n : nat.
Hypothesis LA : length A = n.
Hypothesis Lld : length ld = n.
Hypothesis Lpp : length pp = n.
Hypothesis Lmf : length mf = n.
Hypothesis Lc : length c = n.
Hypothesis Lii : length ii = n.
Hypothesis LN : length N = n.
Hypothesis Lmat : length mat = n.
Hypothesis Lnb : length nb = n.
Hypothesis Ld : length d = n.
Hypothesis Ll : length l = n.
Hypothesis Lmat' : length mat' = n.

Lemma pols_before_new_business :
  evaluates (Cashflows.cells fpow fexp R)
            ("pols_if_at", [AInt t; AStr "BEF_NB"])
            (Ok (VArr (zip_with_q Qminus N mat))).
Proof.
  full_enter_cell. unfold Projection.pols_if_at. decide_timing.
  ask HN. ask Hmat. arrays. apply returns_ret.
Qed.

Lemma pols_before_decrement :
  evaluates (Cashflows.cells fpow fexp R)
            ("pols_if_at", [AInt t; AStr "BEF_DECR"])
            (Ok (VArr (zip_with_q Qplus (zip_with_q Qminus N mat) nb))).
Proof.
  full_enter_cell. unfold Projection.pols_if_at. decide_timing.
  ask pols_before_new_business. ask Hnb. arrays. apply returns_ret.
Qed.

Lemma pols_next_month :
  evaluates (Cashflows.cells fpow fexp R)
            ("pols_if_at", [AInt (t + 1); AStr "BEF_MAT"])
            (Ok (VArr (zip_with_q Qminus
                         (zip_with_q Qminus
                            (zip_with_q Qplus (zip_with_q Qminus N mat) nb)
                            l)
                         d))).
Proof.
  full_enter_cell. unfold Projection.pols_if_at. decide_timing.
  rewrite arg_eqb_int_ne by lia. cbn [arg_pred lift bind].
  replace (t + 1 - 1) with t by lia.
  ask pols_before_decrement. ask Hl. arrays. ask Hd. arrays.
  apply returns_ret.
Qed.

Lemma pols_next_month_before_new_business :
  evaluates (Cashflows.cells fpow fexp R)
            ("pols_if_at", [AInt (t + 1); AStr "BEF_NB"])
            (Ok (VArr (zip_with_q Qminus
                         (zip_with_q Qminus
                            (zip_with_q Qminus
                               (zip_with_q Qplus (zip_with_q Qminus N mat) nb)
                               l)
                            d)
                         mat'))).
Proof.
  full_enter_cell. unfold Projection.pols_if_at. decide_timing.
  ask pols_next_month. ask Hmat'. arrays. apply returns_ret.
Qed.

Lemma premium_to_account_per_policy :
  evaluates (Cashflows.cells fpow fexp R) ("prem_to_av_pp", [AInt t])
            (Ok (VArr (zip_with_q Qmult
                         (List.map (Qminus (inject_Z 1)) ld) pp))).
Proof.
  full_enter_cell. unfold Projection.prem_to_av_pp.
  ask Hld. arrays. ask Hpp. arrays. apply returns_ret.
Qed.

Lemma account_before_fee :
  evaluates (Cashflows.cells fpow fexp R)
            ("av_pp_at", [AInt t; AStr "BEF_FEE"])
            (Ok (VArr (zip_with_q Qplus A
                         (zip_with_q Qmult
                            (List.map (Qminus (inject_Z 1)) ld) pp)))).
Proof.
  full_enter_cell. unfold Projection.av_pp_at. decide_timing.
  ask HA. ask premium_to_account_per_policy. arrays. apply returns_ret.
Qed.

Lemma account_before_investment :
  evaluates (Cashflows.cells fpow fexp R)
            ("av_pp_at", [AInt t; AStr "BEF_INV"])
            (Ok (VArr (zip_with_q Qminus
                         (zip_with_q Qminus
                            (zip_with_q Qplus A
                               (zip_with_q Qmult
                                  (List.map (Qminus (inject_Z 1)) ld) pp))
                            mf)
                         c))).
Proof.
  full_enter_cell. unfold Projection.av_pp_at. decide_timing.
  ask account_before_fee. ask Hmf. arrays. ask Hc. arrays.
  apply returns_ret.
Qed.

Lemma account_mid_month :
  evaluates (Cashflows.cells fpow fexp R)
            ("av_pp_at", [AInt t; AStr "MID_MTH"])
            (Ok (VArr (zip_with_q Qplus
                         (zip_with_q Qminus
                            (zip_with_q Qminus
                               (zip_with_q Qplus A
                                  (zip_with_q Qmult
                                     (List.map (Qminus (inject_Z 1)) ld) pp))
                               mf)
                            c)
                         (List.map (Qmult (1 # 2)) ii)))).
Proof.
  full_enter_cell. unfold Projection.av_pp_at. decide_timing.
  ask account_before_investment. ask Hii. arrays. apply returns_ret.
Qed.

Lemma account_next_month :
  evaluates (Cashflows.cells fpow fexp R)
            ("av_pp_at", [AInt (t + 1); AStr "BEF_PREM"])
            (Ok (VArr (zip_with_q Qplus
                         (zip_with_q Qminus
                            (zip_with_q Qminus
                               (zip_with_q Qplus A
                                  (zip_with_q Qmult
                                     (List.map (Qminus (inject_Z 1)) ld) pp))
                               mf)
                            c)
                         ii))).
Proof.
  full_enter_cell. unfold Projection.av_pp_at. decide_timing.
  rewrite arg_eqb_int_ne by lia. cbn [arg_pred lift bind].
  replace (t + 1 - 1) with t by lia.
  ask account_before_investment. ask Hii. arrays. apply returns_ret.
Qed.

End RollForward.

(** X24.  The policies in force roll forward by the month's movements:
    entry by entry, [pols_if_at(t+1, "BEF_MAT")] is
    [pols_if_at(t, "BEF_MAT")] less the maturities, plus the new
    business, less the lapses and the deaths of month [t]. *)
Theorem policies_roll_forward (fpow : Q -> Q -> Q) (fexp : Q -> Q)
    (R : Projection.references) (t : Z) (N mat nb d l : list Q) :
  0 <= t ->
  evaluates (Cashflows.cells fpow fexp R)
            ("pols_if_at", [AInt t; AStr "BEF_MAT"]) (Ok (VArr N)) ->
  evaluates (Cashflows.cells fpow fexp R) ("pols_maturity", [AInt t])
            (Ok (VArr mat)) ->
  evaluates (Cashflows.cells fpow fexp R) ("pols_new_biz", [AInt t])
            (Ok (VArr nb)) ->
  evaluates (Cashflows.cells fpow fexp R) ("pols_death", [AInt t])
            (Ok (VArr d)) ->
  evaluates (Cashflows.cells fpow fexp R) ("pols_lapse", [AInt t])
            (Ok (VArr l)) ->
  length mat = length N -> length nb = length N ->
  length d = length N -> length l = length N ->
  exists N',
    evaluates (Cashflows.cells fpow fexp R)
              ("pols_if_at", [AInt (t + 1); AStr "BEF_MAT"])
              (Ok (VArr N')) /\
    length N' = length N /\
    forall i n m b x y,
      nth_error N i = Some n -> nth_error mat i = Some m ->
      nth_error nb i = Some b -> nth_error d i = Some x ->
      nth_error l i = Some y ->
      exists n',
        nth_error N' i = Some n' /\ (n' == n - m + b - y - x)%Q.
Proof.
  intros Ht HN Hmat Hnb Hd Hl Lmat Lnb Ld Ll.
  eexists. split; [|split].
  - eapply pols_next_month with (n := length N);
      first [eassumption|reflexivity].
  - lengths.
  - intros i n m b x y Hn Hm Hb Hx Hy. eexists. split; [entries|].
    reflexivity.
Qed.

Lemma policies_roll_forward_witness :
  exists N',
    evaluates FullSample.cells ("pols_if_at", [AInt (1 + 1); AStr "BEF_MAT"])
              (Ok (VArr N')) /\
    length N' = 2%nat.
Proof.
  edestruct (policies_roll_forward Sample.pow1 Sample.exp1 Sample.refs 1)
    as (N' & H & Hl & _).
  - lia.
  - exists 70%nat. vm_compute. reflexivity.
  - exists 70%nat. vm_compute. reflexivity.
  - exists 70%nat. vm_compute. reflexivity.
  - exists 70%nat. vm_compute. reflexivity.
  - exists 70%nat. vm_compute. reflexivity.
  - reflexivity.
  - reflexivity.
  - reflexivity.
  - reflexivity.
  - exists N'. split; [exact H|exact Hl].
Defined.

(** X25.  The account value per policy rolls forward by the month's
    movements: entry by entry, with [av] the account value before the
    premium at [t], [av_pp_at(t+1, "BEF_PREM")] is [av] plus the premium
    net of loading, less the maintenance fee and the cost of insurance,
    plus the investment income of month [t]; the mid-month value
    [av_pp_at(t, "MID_MTH")] is the same with half the investment
    income. *)
Theorem account_value_rolls_forward (fpow : Q -> Q -> Q) (fexp : Q -> Q)
    (R : Projection.references) (t : Z) (A ld pp mf c ii : list Q) :
  0 <= t ->
  evaluates (Cashflows.cells fpow fexp R)
            ("av_pp_at", [AInt t; AStr "BEF_PREM"]) (Ok (VArr A)) ->
  evaluates (Cashflows.cells fpow fexp R) ("load_prem_rate", [])
            (Ok (VArr ld)) ->
  evaluates (Cashflows.cells fpow fexp R) ("premium_pp", [AInt t])
            (Ok (VArr pp)) ->
  evaluates (Cashflows.cells fpow fexp R) ("maint_fee_pp", [AInt t])
            (Ok (VArr mf)) ->
  evaluates (Cashflows.cells fpow fexp R) ("coi_pp", [AInt t])
            (Ok (VArr c)) ->
  evaluates (Cashflows.cells fpow fexp R) ("inv_income_pp", [AInt t])
            (Ok (VArr ii)) ->
  length ld = length A -> length pp = length A -> length mf = length A ->
  length c = length A -> length ii = length A ->
  exists next mid,
    evaluates (Cashflows.cells fpow fexp R)
              ("av_pp_at", [AInt (t + 1); AStr "BEF_PREM"])
              (Ok (VArr next)) /\
    evaluates (Cashflows.cells fpow fexp R)
              ("av_pp_at", [AInt t; AStr "MID_MTH"]) (Ok (VArr mid)) /\
    length next = length A /\
    length mid = length A /\
    forall i a r p f k v,
      nth_error A i = Some a -> nth_error ld i = Some r ->
      nth_error pp i = Some p -> nth_error mf i = Some f ->
      nth_error c i = Some k -> nth_error ii i = Some v ->
      exists x y,
        nth_error next i = Some x /\
        nth_error mid i = Some y /\
        (x == a + (1 - r) * p - f - k + v)%Q /\
        (y == a + (1 - r) * p - f - k + v / 2)%Q.
Proof.
  intros Ht HA Hld Hpp Hmf Hc Hii Lld Lpp Lmf Lc Lii.
  eexists _, _. split; [|split; [|split; [|split]]].
  - eapply account_next_month with (n := length A);
      first [eassumption|reflexivity].
  - eapply account_mid_month with (n := length A);
      first [eassumption|reflexivity].
  - lengths.
  - lengths.
  - intros i a r p f k v Ha Hr Hp Hf Hk Hv. eexists _, _.
    split; [entries|]. split; [entries|].
    change (inject_Z 1) with 1%Q. split; [reflexivity|field].
Qed.

Lemma account_value_rolls_forward_witness :
  exists next mid,
    evaluates FullSample.cells ("av_pp_at", [AInt (1 + 1); AStr "BEF_PREM"])
              (Ok (VArr next)) /\
    evaluates FullSample.cells ("av_pp_at", [AInt 1; AStr "MID_MTH"])
              (Ok (VArr mid)) /\
    length next = 2%nat.
Proof.
  edestruct (account_value_rolls_forward Sample.pow1 Sample.exp1
               Sample.refs 1) as (next & mid & H1 & H2 & Hl & _).
  - lia.
  - exists 70%nat. vm_compute. reflexivity.
  - exists 70%nat. vm_compute. reflexivity.
  - exists 70%nat. vm_compute. reflexivity.
  - exists 70%nat. vm_compute. reflexivity.
  - exists 70%nat. vm_compute. reflexivity.
  - exists 70%nat. vm_compute. reflexivity.
  - reflexivity.
  - reflexivity.
  - reflexivity.
  - reflexivity.
  - reflexivity.
  - exists next, mid. repeat split; assumption.
Defined.

(** ** The whole Projection space: decrements *)

Lemma unit_share a u :
  (0 <= a)%Q -> (0 <= u <= 1)%Q -> (0 <= a * u <= a)%Q.
Proof.
  intros Ha [Hu0 Hu1]. split.
  - now apply Qmult_le_0_compat.
  - assert (H : (0 <= a * (1 - u))%Q)
      by (apply Qmult_le_0_compat; [exact Ha|lra]).
    lra.
Qed.

(** X27.  The decrements of a month never exceed the policies in force:
    entry by entry, for a non-negative number of policies before
    decrement, a monthly mortality rate between 0 and 1 and a lapse rate
    between 0 and 1, the deaths lie between 0 and the policies in force
    and the lapses between 0 and the survivors; the policies in force at
    [t+1] are those before decrement at [t] less the lapses and then less
    the deaths, and do not exceed them.  The twelfth root of a number
    between 0 and 1 is taken to lie between 0 and 1. *)
Theorem decrements_within_in_force (fpow : Q -> Q -> Q) (fexp : Q -> Q)
    (R : Projection.references) (t : Z) (ND qm lr : list Q) :
  (forall x, (0 <= x <= 1)%Q -> (0 <= fpow x (1 / 12) <= 1)%Q) ->
  0 <= t ->
  evaluates (Cashflows.cells fpow fexp R)
            ("pols_if_at", [AInt t; AStr "BEF_DECR"]) (Ok (VArr ND)) ->
  evaluates (Cashflows.cells fpow fexp R) ("mort_rate_mth", [AInt t])
            (Ok (VArr qm)) ->
  evaluates (Cashflows.cells fpow fexp R) ("lapse_rate", [AInt t])
            (Ok (VArr lr)) ->
  length qm = length ND ->
  length lr = length ND ->
  exists deaths lapses next,
    evaluates (Cashflows.cells fpow fexp R) ("pols_death", [AInt t])
              (Ok (VArr deaths)) /\
    evaluates (Cashflows.cells fpow fexp R) ("pols_lapse", [AInt t])
              (Ok (VArr lapses)) /\
    evaluates (Cashflows.cells fpow fexp R)
              ("pols_if_at", [AInt (t + 1); AStr "BEF_MAT"])
              (Ok (VArr next)) /\
    length next = length ND /\
    forall i n q r,
      nth_error ND i = Some n -> nth_error qm i = Some q ->
      nth_error lr i = Some r ->
      (0 <= n)%Q -> (0 <= q <= 1)%Q -> (0 <= r <= 1)%Q ->
      exists x y n',
        nth_error deaths i = Some x /\
        nth_error lapses i = Some y /\
        nth_error next i = Some n' /\
        (0 <= x <= n)%Q /\
        (0 <= y <= n - x)%Q /\
        n' = (n - y - x)%Q /\
        (n' <= n)%Q.
Proof.
  intros Hpow Ht HND Hqm Hlr Lqm Llr.
  assert (HD : evaluates (Cashflows.cells fpow fexp R)
                 ("pols_death", [AInt t])
                 (Ok (VArr (zip_with_q Qmult ND qm)))).
  { full_enter_cell. unfold Projection.pols_death.
    ask HND. ask Hqm. arrays. apply returns_ret. }
  assert (HL : evaluates (Cashflows.cells fpow fexp R)
                 ("pols_lapse", [AInt t])
                 (Ok (VArr (zip_with_q Qmult
                              (zip_with_q Qminus ND (zip_with_q Qmult ND qm))
                              (List.map (Qminus (inject_Z 1))
                                 (List.map (fun x => fpow x (1 / 12)%Q)
                                    (List.map (Qminus (inject_Z 1)) lr))))))).
  { full_enter_cell. unfold Projection.pols_lapse.
    ask HND. ask HD. arrays. ask Hlr. unfold Projection.pow. arrays.
    apply returns_ret. }
  eexists _, _, _. split; [exact HD|]. split; [exact HL|].
  split; [|split].
  - full_enter_cell. unfold Projection.pols_if_at. decide_timing.
    rewrite arg_eqb_int_ne by lia. cbn [arg_pred lift bind].
    replace (t + 1 - 1) with t by lia.
    ask HND. ask HL. arrays. ask HD. arrays. apply returns_ret.
  - lengths.
  - intros i n q r Hn Hq Hr Pn Pq Pr. eexists _, _, _.
    split; [entries|]. split; [entries|]. split; [entries|].
    change (inject_Z 1) with 1%Q.
    assert (Hf : (0 <= fpow (1 - r) (1 / 12) <= 1)%Q)
      by (apply Hpow; lra).
    revert Hf. generalize (fpow (1 - r)%Q (1 / 12)%Q). intros w Hw.
    destruct (unit_share n q Pn Pq) as [Hx0 Hx1].
    assert (Hs : (0 <= n - n * q)%Q) by lra.
    destruct (unit_share (n - n * q) (1 - w) Hs) as [Hy0 Hy1]; [lra|].
    split; [split; lra|]. split; [split; lra|]. split; [reflexivity|lra].
Qed.

Lemma decrements_within_in_force_witness :
  exists deaths lapses next,
    evaluates FullSample.cells ("pols_death", [AInt 1]) (Ok (VArr deaths)) /\
    evaluates FullSample.cells ("pols_lapse", [AInt 1]) (Ok (VArr lapses)) /\
    evaluates FullSample.cells ("pols_if_at", [AInt (1 + 1); AStr "BEF_MAT"])
              (Ok (VArr next)) /\
    length next = 2%nat.
Proof.
  edestruct (decrements_within_in_force Sample.pow1 Sample.exp1
               Sample.refs 1) as (deaths & lapses & next & H1 & H2 & H3 & Hl & _).
  - intros x Hx. exact Hx.
  - lia.
  - exists 70%nat. vm_compute. reflexivity.
  - exists 70%nat. vm_compute. reflexivity.
  - exists 70%nat. vm_compute. reflexivity.
  - reflexivity.
  - reflexivity.
  - exists deaths, lapses, next. repeat split; assumption.
Defined.

(** ** The whole Projection space: mortality rates and accumulated premiums *)

Lemma lookup2_In k (tab : table) x :
  lookup2 k tab = Some x -> exists k', In (k', x) tab.
Proof.
  induction tab as [|[k' y] tab IH]; simpl; [discriminate|].
  destruct (pair_eqb k' k).
  - intros [= ->]. exists k'. now left.
  - intros H. destruct (IH H) as [k0 H0]. exists k0. now right.
Qed.

(** X28.  Mortality rates stay between 0 and 1: when every rate stored
    in the reindexed mortality table lies between 0 and 1, so does every
    entry of [mort_rate(t)], which is a rate of the table or the fill
    value 0, and so does every entry of the monthly rate
    [mort_rate_mth(t)], the twelfth root of a number between 0 and 1 being
    taken to lie between 0 and 1. *)
Theorem mortality_rates_within_unit (fpow : Q -> Q -> Q) (fexp : Q -> Q)
    (R : Projection.references) (t : arg) (ages durs : list Q)
    (tab : table) (f : frame) :
  (forall x, (0 <= x <= 1)%Q -> (0 <= fpow x (1 / 12) <= 1)%Q) ->
  evaluates (Cashflows.cells fpow fexp R) ("age", [t]) (Ok (VArr ages)) ->
  evaluates (Cashflows.cells fpow fexp R) ("duration", [t])
            (Ok (VArr durs)) ->
  evaluates (Cashflows.cells fpow fexp R) ("mort_table_reindexed", [])
            (Ok (VTab tab)) ->
  evaluates (Cashflows.cells fpow fexp R) ("model_point", [])
            (Ok (VFrame f)) ->
  length durs = length ages ->
  length (index f) = length ages ->
  unique_index tab = true ->
  (forall k x, In (k, x) tab -> (0 <= x <= 1)%Q) ->
  exists rates monthly,
    evaluates (Cashflows.cells fpow fexp R) ("mort_rate", [t])
              (Ok (VArr rates)) /\
    evaluates (Cashflows.cells fpow fexp R) ("mort_rate_mth", [t])
              (Ok (VArr monthly)) /\
    length rates = length ages /\
    length monthly = length ages /\
    Forall (fun x => (0 <= x <= 1)%Q) rates /\
    Forall (fun x => (0 <= x <= 1)%Q) monthly.
Proof.
  intros Hpow Hage Hdur Htab Hmp Hld Hlf Hu Hunit.
  set (mi := zip_labels (List.map LNum ages)
               (List.map LNum (List.map (fun x => Qmin x (inject_Z 5)) durs))).
  assert (Hlen : length mi = length ages).
  { unfold mi. rewrite length_zip_labels; rewrite !List.length_map; auto. }
  destruct (reindex_spec tab mi 0 Hu) as (rates & Hre & Hlr & Hnth).
  assert (Hrates : evaluates (Cashflows.cells fpow fexp R) ("mort_rate", [t])
                     (Ok (VArr rates))).
  { full_enter_cell. unfold Projection.mort_rate.
    ask Hage. ask Hdur.
    change (minimum (VArr durs) (num 5))
      with (Ok (VArr (List.map (fun x => Qmin x (inject_Z 5)) durs))).
    cbn [lift bind].
    assert (Hmi : multiindex_from_arrays (VArr ages)
                    (VArr (List.map (fun x => Qmin x (inject_Z 5)) durs))
                  = Ok mi).
    { unfold multiindex_from_arrays. cbn [labels_of rbind].
      rewrite !List.length_map, Hld, Nat.eqb_refl. reflexivity. }
    rewrite Hmi. cbn [lift bind].
    ask Htab. rewrite Hre. cbn [lift bind].
    ask Hmp. unfold set_axis.
    rewrite Hlr, Hlen, Hlf, Nat.eqb_refl. apply returns_lift. }
  assert (Urates : Forall (fun x => (0 <= x <= 1)%Q) rates).
  { apply List.Forall_forall. intros x Hx.
    apply List.In_nth_error in Hx as [i Hi].
    destruct (nth_error mi i) as [k|] eqn:Ek.
    - rewrite (Hnth i k Ek) in Hi. injection Hi as <-.
      destruct (lookup2 k tab) as [y|] eqn:El.
      + destruct (lookup2_In k tab y El) as [k' Hk']. exact (Hunit k' y Hk').
      + split; discriminate.
    - apply nth_error_None in Ek.
      assert (i < length rates)%nat by (apply nth_error_Some; congruence).
      lia. }
  exists rates,
    (List.map (Qminus (inject_Z 1))
       (List.map (fun x => fpow x (1 / 12)%Q)
          (List.map (Qminus (inject_Z 1)) rates))).
  split; [exact Hrates|]. split; [|split; [|split; [|split]]].
  - full_enter_cell. unfold Projection.mort_rate_mth.
    ask Hrates. unfold Projection.pow. arrays. apply returns_ret.
  - congruence.
  - rewrite !List.length_map. congruence.
  - exact Urates.
  - rewrite !List.map_map.
    apply (Forall_map_q (fun x => (0 <= x <= 1)%Q)); [|exact Urates].
    intros z Hz. change (inject_Z 1) with 1%Q.
    assert (Hf : (0 <= fpow (1 - z) (1 / 12) <= 1)%Q) by (apply Hpow; lra).
    revert Hf. generalize (fpow (1 - z)%Q (1 / 12)%Q). intros w Hw. lra.
Qed.

Lemma mortality_rates_within_unit_witness :
  exists rates monthly,
    evaluates FullSample.cells ("mort_rate", [AInt 0]) (Ok (VArr rates)) /\
    evaluates FullSample.cells ("mort_rate_mth", [AInt 0])
              (Ok (VArr monthly)) /\
    length rates = 2%nat /\
    length monthly = 2%nat /\
    Forall (fun x => (0 <= x <= 1)%Q) rates /\
    Forall (fun x => (0 <= x <= 1)%Q) monthly.
Proof.
  edestruct (mortality_rates_within_unit Sample.pow1 Sample.exp1 Sample.refs
               (AInt 0))
    as (rates & monthly & H1 & H2 & L1 & L2 & U1 & U2).
  - intros x Hx. exact Hx.
  - exists 30%nat. vm_compute. reflexivity.
  - exists 30%nat. vm_compute. reflexivity.
  - exists 30%nat. vm_compute. reflexivity.
  - exists 30%nat. vm_compute. reflexivity.
  - reflexivity.
  - reflexivity.
  - reflexivity.
  - intros k x Hin. simpl in Hin.
    repeat (destruct Hin as [[= <- <-]|Hin];
            [split; apply Qle_bool_iff; reflexivity|]).
    destruct Hin.
  - exists rates, monthly. repeat split; assumption.
Defined.

Section AccumulatedPremiums.
Variables (fpow : Q -> Q -> Q) (fexp : Q -> Q).
Variable R : Projection.references.
Variable a0 : list Q.
Variable P : Z -> list Q.
Hypothesis Hinit :
  evaluates (Cashflows.cells fpow fexp R) ("accum_prem_init_pp", [])
            (Ok (VArr a0)).

Lemma accum_prem_pp_sum n :
  (forall s, 0 <= s <= Z.of_nat n ->
     evaluates (Cashflows.cells fpow fexp R) ("premium_pp", [AInt s])
               (Ok (VArr (P s))) /\
     length (P s) = length a0) ->
  exists acc,
    evaluates (Cashflows.cells fpow fexp R)
              ("accum_prem_pp", [AInt (Z.of_nat n)]) (Ok (VArr acc)) /\
    length acc = length a0 /\
    forall i a,
      nth_error a0 i = Some a ->
      nth_error acc i
      = Some (running_total a (fun s => nth i (P s) 0%Q) n).
Proof.
  induction n as [|n IH]; intros HP.
  - destruct (HP 0 ltac:(lia)) as [H0 L0].
    exists (zip_with_q Qplus a0 (P 0)). split; [|split].
    + full_enter_cell. unfold Projection.accum_prem_pp.
      change (arg_eqb (AInt (Z.of_nat 0)) (AInt 0)) with true. cbv iota.
      ask Hinit. ask H0. arrays. apply returns_ret.
    + lengths.
    + intros i a Ha.
      destruct (nth_error (P 0) i) as [p|] eqn:Ep.
      * cbn [running_total]. rewrite (nth_error_nth _ _ _ Ep).
        now apply nth_error_zip_with_q.
      * apply nth_error_None in Ep.
        assert (i < length a0)%nat by (apply nth_error_Some; congruence).
        lia.
  - destruct IH as (acc & Hacc & Lacc & Eacc).
    { intros s Hs. apply HP. lia. }
    destruct (HP (Z.of_nat (S n)) ltac:(lia)) as [Hn Ln].
    exists (zip_with_q Qplus acc (P (Z.of_nat (S n)))). split; [|split].
    + full_enter_cell. unfold Projection.accum_prem_pp.
      rewrite arg_eqb_int_ne by lia. cbn [arg_pred lift bind].
      replace (Z.of_nat (S n) - 1) with (Z.of_nat n) by lia.
      ask Hacc. ask Hn. arrays. apply returns_ret.
    + lengths.
    + intros i a Ha. pose proof (Eacc i a Ha) as Hx.
      destruct (nth_error (P (Z.of_nat (S n))) i) as [p|] eqn:Ep.
      * cbn [running_total]. rewrite (nth_error_nth _ _ _ Ep).
        now apply nth_error_zip_with_q.
      * apply nth_error_None in Ep.
        assert (i < length a0)%nat by (apply nth_error_Some; congruence).
        lia.
Qed.
End AccumulatedPremiums.

(** X29.  The accumulated premium per policy is a running total: entry
    by entry, [accum_prem_pp(t)] is [accum_prem_init_pp()] with the
    premiums [premium_pp(0)], ..., [premium_pp(t)] of all months up to
    and including [t] added to it one after the other, in this order. *)
Theorem accum_prem_pp_is_running_sum (fpow : Q -> Q -> Q) (fexp : Q -> Q)
    (R : Projection.references) (a0 : list Q) (P : Z -> list Q) (t : Z) :
  0 <= t ->
  evaluates (Cashflows.cells fpow fexp R) ("accum_prem_init_pp", [])
            (Ok (VArr a0)) ->
  (forall s, 0 <= s <= t ->
     evaluates (Cashflows.cells fpow fexp R) ("premium_pp", [AInt s])
               (Ok (VArr (P s))) /\
     length (P s) = length a0) ->
  exists acc,
    evaluates (Cashflows.cells fpow fexp R) ("accum_prem_pp", [AInt t])
              (Ok (VArr acc)) /\
    length acc = length a0 /\
    forall i a,
      nth_error a0 i = Some a ->
      nth_error acc i
      = Some (running_total a (fun s => nth i (P s) 0%Q) (Z.to_nat t)).
Proof.
  intros Ht Hinit HP.
  destruct (accum_prem_pp_sum fpow fexp R a0 P Hinit (Z.to_nat t))
    as (acc & Hacc & Lacc & Eacc).
  { intros s Hs. apply HP. lia. }
  rewrite Z2Nat.id in Hacc by exact Ht.
  now exists acc.
Qed.

Lemma accum_prem_pp_is_running_sum_witness :
  exists acc,
    evaluates FullSample.cells ("accum_prem_pp", [AInt 1]) (Ok (VArr acc)) /\
    length acc = length [0; 0]%Q /\
    forall i a,
      nth_error [0; 0]%Q i = Some a ->
      nth_error acc i
      = Some (running_total a
                (fun s => nth i (match run FullSample.cells 60
                                         ("premium_pp", [AInt s]) with
                                 | Some (Ok (VArr l)) => l
                                 | _ => []
                                 end) 0%Q)
                (Z.to_nat 1)).
Proof.
  apply (accum_prem_pp_is_running_sum Sample.pow1 Sample.exp1 Sample.refs
           [0; 0]%Q
           (fun s => match run FullSample.cells 60
                                ("premium_pp", [AInt s]) with
                     | Some (Ok (VArr l)) => l
                     | _ => []
                     end) 1).
  - lia.
  - exists 10%nat. vm_compute. reflexivity.
  - intros s Hs.
    assert (s = 0 \/ s = 1) as [->| ->] by lia.
    + split; [exists 60%nat; vm_compute; reflexivity|vm_compute; reflexivity].
    + split; [exists 60%nat; vm_compute; reflexivity|vm_compute; reflexivity].
Defined.

(** ** Policies in force are never negative *)

Lemma nth_error_zip_inv f l1 l2 i x :
  nth_error (zip_with_q f l1 l2) i = Some x ->
  exists a b,
    nth_error l1 i = Some a /\ nth_error l2 i = Some b /\ x = f a b.
Proof.
  revert l2 i. induction l1 as [|a l1 IH]; intros [|b l2] [|i]; simpl;
    try discriminate.
  - intros [= <-]. now exists a, b.
  - apply IH.
Qed.

Lemma nth_error_map_inv (f : Q -> Q) l i x :
  nth_error (List.map f l) i = Some x ->
  exists a, nth_error l i = Some a /\ x = f a.
Proof.
  rewrite List.nth_error_map. destruct (nth_error l i) as [a|];
    simpl; [|discriminate].
  intros [= <-]. now exists a.
Qed.

Lemma Forall_nth_error (P : Q -> Prop) l :
  Forall P l <-> forall i x, nth_error l i = Some x -> P x.
Proof.
  split.
  - intros H i x Hx. rewrite List.Forall_forall in H. apply H.
    eapply List.nth_error_In. exact Hx.
  - intros H. apply List.Forall_forall. intros x Hx.
    apply List.In_nth_error in Hx as [i Hi]. now apply (H i).
Qed.

Ltac unzip :=
  repeat match goal with
         | H : nth_error (zip_with_q _ _ _) _ = Some _ |- _ =>
             apply nth_error_zip_inv in H as (? & ? & ? & H & ->)
         | H : nth_error (List.map _ _) _ = Some _ |- _ =>
             apply nth_error_map_inv in H as (? & H & ->)
         end.

Ltac same_entries :=
  repeat match goal with
         | H1 : nth_error ?l ?i = Some ?a, H2 : nth_error ?l ?i = Some ?b
           |- _ =>
             assert (b = a) by congruence; subst b; clear H2
         end.

Section PoliciesInForce.
Variables (fpow : Q -> Q -> Q) (fexp : Q -> Q).
Variable R : Projection.references.
Hypothesis Hpow :
  forall x, (0 <= x <= 1)%Q -> (0 <= fpow x (1 / 12) <= 1)%Q.
Variable f : frame.
Variables pc d0 pt : list Q.
Hypothesis Hmp :
  evaluates (Projection.cells fpow fexp R) ("model_point", []) (Ok (VFrame f)).
Hypothesis Hpc : assoc "policy_count" (columns f) = Some (NumCol pc).
Hypothesis Hd0 : assoc "duration_mth" (columns f) = Some (NumCol d0).
Hypothesis Hpt :
  evaluates (Projection.cells fpow fexp R) ("policy_term", []) (Ok (VArr pt)).
Hypothesis Ld0 : length d0 = length pc.
Hypothesis Lpt : length pt = length pc.
Hypothesis Ppc : Forall (fun x => (0 <= x)%Q) pc.

Lemma in_force_at_start :
  exists N,
    evaluates (Projection.cells fpow fexp R)
              ("pols_if_at", [AInt 0; AStr "BEF_MAT"]) (Ok (VArr N)) /\
    length N = length pc /\
    Forall (fun x => (0 <= x)%Q) N.
Proof.
  pose proof (duration_mth_value fpow fexp R f d0 Hmp Hd0 O) as Hdur.
  assert (Hinit : evaluates (Projection.cells fpow fexp R)
                    ("pols_if_init", [])
                    (Ok (VArr (zip_with_q
                                 (fun x b => if Qeq_bool b 0 then 0%Q else x)
                                 pc
                                 (List.map (fun x => qgt x (inject_Z 0))
                                           d0))))).
  { enter_cell. unfold Projection.pols_if_init.
    ask Hmp. unfold getitem at 1. rewrite Hpc. cbn [lift bind].
    ask Hdur. cbn [months_later]. arrays. unfold where_.
    rewrite List.length_map, Ld0, Nat.eqb_refl. apply returns_lift. }
  eexists. split; [|split].
  - enter_cell. unfold Projection.pols_if_at. decide_timing.
    change (arg_eqb (AInt 0) (AInt 0)) with true. cbv iota.
    apply returns_cell. exact Hinit.
  - lengths.
  - apply Forall_nth_error. intros i x Hx. unzip.
    rewrite Forall_nth_error in Ppc.
    destruct (Qeq_bool _ 0); [discriminate|]. eapply Ppc. eassumption.
Qed.

Section Month.
Variable n : nat.
Variables N q r : list Q.
Hypothesis HN :
  evaluates (Projection.cells fpow fexp R)
            ("pols_if_at", [AInt (Z.of_nat n); AStr "BEF_MAT"])
            (Ok (VArr N)).
Hypothesis LN : length N = length pc.
Hypothesis PN : Forall (fun x => (0 <= x)%Q) N.

Lemma maturities_of_month :
  evaluates (Projection.cells fpow fexp R)
            ("pols_maturity", [AInt (Z.of_nat n)])
            (Ok (VArr (zip_with_q Qmult
                         (zip_with_q qeq (months_later n d0)
                            (List.map (fun x => (x * inject_Z 12)%Q) pt))
                         N))).
Proof.
  pose proof (duration_mth_value fpow fexp R f d0 Hmp Hd0 n) as Hdur.
  pose proof (length_months_later n d0) as Lm.
  enter_cell. unfold Projection.pols_maturity.
  ask Hdur. ask Hpt. arrays. ask HN. arrays. apply returns_ret.
Qed.

Lemma new_business_of_month :
  evaluates (Projection.cells fpow fexp R)
            ("pols_new_biz", [AInt (Z.of_nat n)])
            (Ok (VArr (zip_with_q
                         (fun x b => if Qeq_bool b 0 then 0%Q else x) pc
                         (List.map (fun x => qeq x (inject_Z 0))
                                   (months_later n d0))))).
Proof.
  pose proof (duration_mth_value fpow fexp R f d0 Hmp Hd0 n) as Hdur.
  pose proof (length_months_later n d0) as Lm.
  enter_cell. unfold Projection.pols_new_biz.
  ask Hmp. unfold getitem at 1. rewrite Hpc. cbn [lift bind].
  ask Hdur. arrays. unfold where_.
  rewrite List.length_map, Lm, Ld0, Nat.eqb_refl. apply returns_lift.
Qed.

Lemma in_force_before_new_business :
  exists NB,
    evaluates (Projection.cells fpow fexp R)
              ("pols_if_at", [AInt (Z.of_nat n); AStr "BEF_NB"])
              (Ok (VArr NB)) /\
    length NB = length pc /\
    Forall (fun x => (0 <= x)%Q) NB.
Proof.
  pose proof (length_months_later n d0) as Lm.
  eexists. split; [|split].
  - enter_cell. unfold Projection.pols_if_at. decide_timing.
    ask HN. ask maturities_of_month. arrays. apply returns_ret.
  - lengths.
  - apply Forall_nth_error. intros i x Hx. unzip. same_entries.
    rewrite Forall_nth_error in PN.
    match goal with H : nth_error N i = Some ?a |- _ =>
      pose proof (PN i a H) as Pa end.
    unfold qeq. destruct (Qeq_bool _ _); unfold qbool; lra.
Qed.

Lemma in_force_before_decrement :
  exists ND,
    evaluates (Projection.cells fpow fexp R)
              ("pols_if_at", [AInt (Z.of_nat n); AStr "BEF_DECR"])
              (Ok (VArr ND)) /\
    length ND = length pc /\
    Forall (fun x => (0 <= x)%Q) ND.
Proof.
  destruct in_force_before_new_business as (NB & HNB & LNB & PNB).
  pose proof (length_months_later n d0) as Lm.
  eexists. split; [|split].
  - enter_cell. unfold Projection.pols_if_at. decide_timing.
    ask HNB. ask new_business_of_month. arrays. apply returns_ret.
  - lengths.
  - apply Forall_nth_error. intros i x Hx. unzip.
    rewrite Forall_nth_error in PNB, Ppc.
    match goal with H : nth_error NB i = Some ?a |- _ =>
      pose proof (PNB i a H) as Pa end.
    match goal with H : nth_error pc i = Some ?c |- _ =>
      pose proof (Ppc i c H) as Pc end.
    destruct (Qeq_bool _ 0); lra.
Qed.

Hypothesis Hq :
  evaluates (Projection.cells fpow fexp R)
            ("mort_rate_mth", [AInt (Z.of_nat n)]) (Ok (VArr q)).
Hypothesis Hr :
  evaluates (Projection.cells fpow fexp R)
            ("lapse_rate", [AInt (Z.of_nat n)]) (Ok (VArr r)).
Hypothesis Lq : length q = length pc.
Hypothesis Lr : length r = length pc.
Hypothesis Pq : Forall (fun x => (0 <= x <= 1)%Q) q.
Hypothesis Pr : Forall (fun x => (0 <= x <= 1)%Q) r.

Lemma in_force_next_month :
  exists N',
    evaluates (Projection.cells fpow fexp R)
              ("pols_if_at", [AInt (Z.of_nat (S n)); AStr "BEF_MAT"])
              (Ok (VArr N')) /\
    length N' = length pc /\
    Forall (fun x => (0 <= x)%Q) N'.
Proof.
  destruct in_force_before_decrement as (ND & HND & LND & PND).
  assert (HD : evaluates (Projection.cells fpow fexp R)
                 ("pols_death", [AInt (Z.of_nat n)])
                 (Ok (VArr (zip_with_q Qmult ND q)))).
  { enter_cell. unfold Projection.pols_death.
    ask HND. ask Hq. arrays. apply returns_ret. }
  assert (HL : evaluates (Projection.cells fpow fexp R)
                 ("pols_lapse", [AInt (Z.of_nat n)])
                 (Ok (VArr (zip_with_q Qmult
                              (zip_with_q Qminus ND (zip_with_q Qmult ND q))
                              (List.map (Qminus (inject_Z 1))
                                 (List.map (fun x => fpow x (1 / 12)%Q)
                                    (List.map (Qminus (inject_Z 1)) r))))))).
  { enter_cell. unfold Projection.pols_lapse.
    ask HND. ask HD. arrays. ask Hr. unfold Projection.pow. arrays.
    apply returns_ret. }
  eexists. split; [|split].
  - enter_cell. unfold Projection.pols_if_at. decide_timing.
    rewrite arg_eqb_int_ne by lia. cbn [arg_pred lift bind].
    replace (Z.of_nat (S n) - 1) with (Z.of_nat n) by lia.
    ask HND. ask HL. arrays. ask HD. arrays. apply returns_ret.
  - lengths.
  - apply Forall_nth_error. intros i x Hx. unzip. same_entries.
    rewrite Forall_nth_error in PND, Pq, Pr.
    match goal with H : nth_error ND i = Some ?a |- _ =>
      pose proof (PND i a H) as Pa; revert Pa; generalize a end.
    match goal with H : nth_error q i = Some ?a |- _ =>
      pose proof (Pq i a H) as Pb; revert Pb; generalize a end.
    match goal with H : nth_error r i = Some ?a |- _ =>
      pose proof (Pr i a H) as Pc; revert Pc; generalize a end.
    clear - Hpow. intros c Pc b Pb a Pa. change (inject_Z 1) with 1%Q.
    assert (Hf : (0 <= fpow (1 - c) (1 / 12) <= 1)%Q)
      by (apply Hpow; lra).
    revert Hf. generalize (fpow (1 - c)%Q (1 / 12)%Q). intros w Hw.
    destruct (unit_share a b Pa Pb) as [Hx0 Hx1].
    assert (Hs : (0 <= a - a * b)%Q) by lra.
    destruct (unit_share (a - a * b) (1 - w) Hs) as [Hy0 Hy1]; [lra|].
    lra.
Qed.
End Month.

Lemma in_force_nonnegative n :
  (forall s, (s < n)%nat ->
     exists q r,
       evaluates (Projection.cells fpow fexp R)
                 ("mort_rate_mth", [AInt (Z.of_nat s)]) (Ok (VArr q)) /\
       evaluates (Projection.cells fpow fexp R)
                 ("lapse_rate", [AInt (Z.of_nat s)]) (Ok (VArr r)) /\
       length q = length pc /\ length r = length pc /\
       Forall (fun x => (0 <= x <= 1)%Q) q /\
       Forall (fun x => (0 <= x <= 1)%Q) r) ->
  exists N,
    evaluates (Projection.cells fpow fexp R)
              ("pols_if_at", [AInt (Z.of_nat n); AStr "BEF_MAT"])
              (Ok (VArr N)) /\
    length N = length pc /\
    Forall (fun x => (0 <= x)%Q) N.
Proof.
  induction n as [|n IH]; intros Hrates.
  - exact in_force_at_start.
  - destruct IH as (N & HN & LN & PN).
    { intros s Hs. apply Hrates. lia. }
    destruct (Hrates n ltac:(lia)) as (q & r & Hq & Hr & Lq & Lr & Pq & Pr).
    exact (in_force_next_month n N q r HN LN PN Hq Hr Lq Lr Pq Pr).
Qed.
End PoliciesInForce.

(** X30.  The number of policies in force is never negative.  For a
    non-negative [policy_count], and as long as the monthly mortality
    rates and the lapse rates of the months before [t] lie between 0 and
    1 (the twelfth root of a number between 0 and 1 being taken to lie
    between 0 and 1), [pols_if_at(t, timing)] returns, for each of the
    three timings and every [t >= 0], one number per model point, none of
    them negative: maturities take at most the policies in force, and
    deaths and lapses at most those left. *)
Theorem policies_never_negative (fpow : Q -> Q -> Q) (fexp : Q -> Q)
    (R : Projection.references) (f : frame) (pc d0 pt : list Q) (t : Z) :
  (forall x, (0 <= x <= 1)%Q -> (0 <= fpow x (1 / 12) <= 1)%Q) ->
  0 <= t ->
  evaluates (Projection.cells fpow fexp R) ("model_point", [])
            (Ok (VFrame f)) ->
  assoc "policy_count" (columns f) = Some (NumCol pc) ->
  assoc "duration_mth" (columns f) = Some (NumCol d0) ->
  evaluates (Projection.cells fpow fexp R) ("policy_term", [])
            (Ok (VArr pt)) ->
  length d0 = length pc ->
  length pt = length pc ->
  Forall (fun x => (0 <= x)%Q) pc ->
  (forall s, 0 <= s < t ->
     exists q r,
       evaluates (Projection.cells fpow fexp R) ("mort_rate_mth", [AInt s])
                 (Ok (VArr q)) /\
       evaluates (Projection.cells fpow fexp R) ("lapse_rate", [AInt s])
                 (Ok (VArr r)) /\
       length q = length pc /\ length r = length pc /\
       Forall (fun x => (0 <= x <= 1)%Q) q /\
       Forall (fun x => (0 <= x <= 1)%Q) r) ->
  exists before_mat before_nb before_decr,
    evaluates (Projection.cells fpow fexp R)
              ("pols_if_at", [AInt t; AStr "BEF_MAT"])
              (Ok (VArr before_mat)) /\
    evaluates (Projection.cells fpow fexp R)
              ("pols_if_at", [AInt t; AStr "BEF_NB"])
              (Ok (VArr before_nb)) /\
    evaluates (Projection.cells fpow fexp R)
              ("pols_if_at", [AInt t; AStr "BEF_DECR"])
              (Ok (VArr before_decr)) /\
    length before_mat = length pc /\
    length before_nb = length pc /\
    length before_decr = length pc /\
    Forall (fun x => (0 <= x)%Q) before_mat /\
    Forall (fun x => (0 <= x)%Q) before_nb /\
    Forall (fun x => (0 <= x)%Q) before_decr.
Proof.
  intros Hpow Ht Hmp Hpc Hd0 Hpt Ld0 Lpt Ppc Hrates.
  destruct (in_force_nonnegative fpow fexp R Hpow f pc d0 pt
              Hmp Hpc Hd0 Hpt Ld0 Lpt Ppc (Z.to_nat t))
    as (N & HN & LN & PN).
  { intros s Hs.
    destruct (Hrates (Z.of_nat s) ltac:(lia))
      as (q & r & Hq & Hr & Lq & Lr & Pq & Pr).
    now exists q, r. }
  destruct (in_force_before_new_business fpow fexp R f pc d0 pt
              Hmp Hd0 Hpt Ld0 Lpt (Z.to_nat t) N HN LN PN)
    as (NB & HNB & LNB & PNB).
  destruct (in_force_before_decrement fpow fexp R f pc d0 pt
              Hmp Hpc Hd0 Hpt Ld0 Lpt Ppc (Z.to_nat t) N HN LN PN)
    as (ND & HND & LND & PND).
  rewrite Z2Nat.id in HN, HNB, HND by exact Ht.
  exists N, NB, ND. repeat split; assumption.
Qed.

Lemma policies_never_negative_witness :
  exists before_mat before_nb before_decr,
    evaluates Sample.cells ("pols_if_at", [AInt 2; AStr "BEF_MAT"])
              (Ok (VArr before_mat)) /\
    evaluates Sample.cells ("pols_if_at", [AInt 2; AStr "BEF_NB"])
              (Ok (VArr before_nb)) /\
    evaluates Sample.cells ("pols_if_at", [AInt 2; AStr "BEF_DECR"])
              (Ok (VArr before_decr)) /\
    length before_mat = length [100; 50]%Q /\
    length before_nb = length [100; 50]%Q /\
    length before_decr = length [100; 50]%Q /\
    Forall (fun x => (0 <= x)%Q) before_mat /\
    Forall (fun x => (0 <= x)%Q) before_nb /\
    Forall (fun x => (0 <= x)%Q) before_decr.
Proof.
  eapply (policies_never_negative Sample.pow1 Sample.exp1 Sample.refs).
  - intros x Hx. exact Hx.
  - lia.
  - exists 5%nat. vm_compute. reflexivity.
  - reflexivity.
  - reflexivity.
  - exists 10%nat. vm_compute. reflexivity.
  - reflexivity.
  - reflexivity.
  - repeat constructor; discriminate.
  - intros s Hs. assert (s = 0 \/ s = 1) as [->| ->] by lia.
    + eexists _, _. split; [exists 50%nat; vm_compute; reflexivity|].
      split; [exists 50%nat; vm_compute; reflexivity|].
      split; [reflexivity|]. split; [reflexivity|].
      split; repeat constructor; apply Qle_bool_iff; vm_compute; reflexivity.
    + eexists _, _. split; [exists 80%nat; vm_compute; reflexivity|].
      split; [exists 80%nat; vm_compute; reflexivity|].
      split; [reflexivity|]. split; [reflexivity|].
      split; repeat constructor; apply Qle_bool_iff; vm_compute; reflexivity.
Defined.
